(** * pdf-to-image: the chunked rendering loop of [main.go]

    A shallow embedding of the command-line converter (the latest of the
    three revisions of [main.go], the one with the textual progress bar)
    and the proofs of its specification.  The module [FirstRevision]
    embeds the first revision, with its own chunk loop, [logProgress] and
    [clearTerminal].

    - Go's [int] is modelled as [Z] with the 64-bit two's-complement
      wrap-around written out ([GoInt.wrap]).
    - Go's [float64] is modelled by the IEEE-754 binary64 operations of
      [SpecFloat] (53 bits of precision, round to nearest even).
    - The external collaborators (the fitz renderer, the file system and the
      JPEG encoder) are an oracle, [World], that decides which calls fail;
      the calls the program makes are recorded in a trace of [event]s.
    - The output directory is the list of the names of its entries; which
      calls of the file system fail on it is given by a [Disk]. *)

From Stdlib Require Import ZArith List String Ascii Bool Lia.
From Stdlib Require Import SpecFloat DecimalString DecimalZ.
Import ListNotations.
Local Open Scope Z_scope.

(** ** Go's [int] *)

Module GoInt.

Definition bits : Z := 64.
Definition modulus : Z := 2 ^ bits.
Definition max_int : Z := 2 ^ (bits - 1) - 1.
Definition min_int : Z := - 2 ^ (bits - 1).

(** The value of an integer result after it is cut to 64 bits. *)
Definition wrap (z : Z) : Z :=
  (z + 2 ^ (bits - 1)) mod modulus - 2 ^ (bits - 1).

Definition in_range (z : Z) : Prop := min_int <= z <= max_int.

Definition add (a b : Z) : Z := wrap (a + b).
Definition sub (a b : Z) : Z := wrap (a - b).

(** Go's [%] truncates toward zero, like [Z.rem]. *)
Definition rem (a b : Z) : Z := Z.rem a b.

End GoInt.

(** ** [intMin]

    The variadic minimum.  [None] is the panic on an empty argument list. *)

Definition intMin (vals : list Z) : option Z :=
  match vals with
  | [] => None
  | [v] => Some v
  | v :: rest =>
      Some (fold_left (fun best val => if val <? best then val else best) rest v)
  end.

(** ** Bounds resolution

    [startPage] and [endPage] are the two local variables of [main] computed
    under the comment "Determine bounds", as functions of the flags [-s],
    [-e] and of the document's page count. *)

Definition startPage (startPgF endPgF : Z) : Z :=
  if (0 <? startPgF) && (startPgF <=? endPgF)
  then GoInt.sub startPgF 1
  else 0.

Definition endPage (endPgF totalPages : Z) : Z :=
  if (endPgF <? 0) || (totalPages <? endPgF)
  then totalPages
  else endPgF.

(** ** [fmt.Sprintf]: the three verbs the program uses *)

Module Fmt.

Local Open Scope string_scope.

(** [%d] *)
Definition d (z : Z) : string := NilZero.string_of_int (Z.to_int z).

Fixpoint zeros (n : nat) : string :=
  match n with
  | O => EmptyString
  | S n' => String "0" (zeros n')
  end.

(** Left padding with the digit 0 up to [width] characters. *)
Definition pad0 (width : nat) (s : string) : string :=
  zeros (width - String.length s) ++ s.

(** [%03d]: the sign comes first and counts in the width. *)
Definition d03 (z : Z) : string :=
  if (z <? 0)%Z then "-" ++ pad0 2 (d (- z)) else pad0 3 (d z).

End Fmt.

(** ** [float64] *)

Module Float64.

Definition prec : Z := 53.
Definition emax : Z := 1024.

Definition float64 : Type := spec_float.

(** The conversion [float64(i)] of an [int]. *)
Definition of_int (i : Z) : float64 := binary_normalize prec emax i 0 false.

Definition div (x y : float64) : float64 := SFdiv prec emax x y.
Definition mul (x y : float64) : float64 := SFmul prec emax x y.

(** [math.Ceil]. Infinities, NaN and zeros are returned unchanged; a
    negative value above -1 gives the negative zero. *)
Definition Ceil (x : float64) : float64 :=
  match x with
  | S754_finite s m e =>
      if 0 <=? e then x
      else
        let q := - ((- Z.pos m) / 2 ^ (- e)) in
        let f := Z.pos m / 2 ^ (- e) in
        binary_normalize prec emax (if s then - f else q) 0 s
  | _ => x
  end.

(** The conversion [int(x)]: truncation toward zero.  Where the value does
    not fit (also for NaN and the infinities) Go leaves the result to the
    implementation; amd64 gives the smallest [int]. *)
Definition to_int (x : float64) : Z :=
  match x with
  | S754_zero _ => 0
  | S754_finite s m e =>
      let a := if 0 <=? e then Z.pos m * 2 ^ e else Z.pos m / 2 ^ (- e) in
      let z := if s then - a else a in
      if (GoInt.min_int <=? z) && (z <=? GoInt.max_int) then z
      else GoInt.min_int
  | _ => GoInt.min_int
  end.

(** [|x| * 10] rounded to the nearest integer, ties to even: the digits
    that [%.1f] prints. *)
Definition tenths (m : positive) (e : Z) : Z :=
  let num := 10 * Z.pos m * 2 ^ (Z.max e 0) in
  let den := 2 ^ (Z.max (- e) 0) in
  let q := num / den in
  let r := num mod den in
  match 2 * r ?= den with
  | Lt => q
  | Gt => q + 1
  | Eq => if Z.even q then q else q + 1
  end.

Local Open Scope string_scope.

(** [%.1f] *)
Definition fmt_1f (x : float64) : string :=
  match x with
  | S754_nan => "NaN"
  | S754_infinity s => if s then "-Inf" else "+Inf"
  | S754_zero s => if s then "-0.0" else "0.0"
  | S754_finite s m e =>
      let t := tenths m e in
      (if s then "-" else "") ++ Fmt.d (t / 10) ++ "." ++ Fmt.d (t mod 10)
  end.

End Float64.

(** ** [strings.Repeat]

    [None] is the panic on a negative count. *)

Fixpoint repeat_string (s : string) (n : nat) : string :=
  match n with
  | O => EmptyString
  | S n' => (s ++ repeat_string s n')%string
  end.

Definition Repeat (s : string) (count : Z) : option string :=
  if count <? 0 then None else Some (repeat_string s (Z.to_nat count)).

(** ** [logProgress]

    The text that the call prints, or [None] when the call panics (in
    [strings.Repeat]) and prints nothing. *)

Definition SYMBOL_WIDTH : Z := 20.
Definition SYMBOL : string := "#".

Definition CR : string := String (ascii_of_nat 13) EmptyString.
Definition TAB : string := String (ascii_of_nat 9) EmptyString.

Definition logProgress (tot cur : Z) : option string :=
  let progress := Float64.div (Float64.of_int cur) (Float64.of_int tot) in
  let outStr := (CR ++ "through pg: " ++ Fmt.d cur ++ TAB ++ "[")%string in
  let symCnt :=
    Float64.to_int
      (Float64.Ceil (Float64.mul (Float64.of_int SYMBOL_WIDTH) progress)) in
  match Repeat SYMBOL symCnt with
  | None => None
  | Some filled =>
      match Repeat " " (GoInt.sub SYMBOL_WIDTH symCnt) with
      | None => None
      | Some blank =>
          Some (outStr ++ filled ++ blank ++ "]" ++ " "
                ++ Float64.fmt_1f (Float64.mul progress (Float64.of_int 100))
                ++ "%")%string
      end
  end.

(** ** The world outside the program

    Every call to the renderer, the file system or the encoder that returns
    without an error is recorded as an [event]; the trace is the history of
    what has happened.  Whether a call fails is decided by the [World], from
    the history followed by the call being made; a call that fails is not
    added to the trace, it is the reason of the [Fatal] end of the run. *)

Inductive event : Type :=
| EvNew                              (* fitz.New(f) *)
| EvClose                            (* doc.Close() *)
| EvChunk (start end_ : Z)           (* entry of processChunk(start, end, ...) *)
| EvImage (n : Z)                    (* doc.Image(n) *)
| EvCreate (n : Z) (name : string)   (* os.Create(filepath.Join(opath, name)) *)
| EvEncode (n : Z) (name : string)   (* jpeg.Encode(f, img, quality 100) *)
| EvFileClose (n : Z)                (* f.Close() *)
| EvProgress (line : string).        (* the text printed by logProgress *)

Definition trace : Type := list event.

Record World : Type := mkWorld {
  NumPage : Z;                       (* doc.NumPage() *)
  fails : trace -> bool              (* does the call at the end fail? *)
}.

(** How a run ends: [log.Fatal] (exit status 1) after a failed call, or a
    panic (exit status 2). *)
Inductive abort : Type :=
| Fatal (failed : event)
| Panicked.

Inductive result (A : Type) : Type :=
| Ok (a : A)
| Abort (why : abort).
Arguments Ok {A} a.
Arguments Abort {A} why.

(** The program's steps: a state monad over the trace, with abortion. *)
Definition M (A : Type) : Type := trace -> trace * result A.

Definition ret {A : Type} (a : A) : M A := fun tr => (tr, Ok a).

Definition bind {A B : Type} (m : M A) (f : A -> M B) : M B :=
  fun tr =>
    match m tr with
    | (tr', Ok a) => f a tr'
    | (tr', Abort why) => (tr', Abort why)
    end.

Declare Scope prog_scope.
Delimit Scope prog_scope with prog.
Notation "x <- m ;; k" := (bind m (fun x => k))
  (at level 61, m at next level, right associativity) : prog_scope.
Notation "m ;; k" := (bind m (fun _ => k))
  (at level 61, right associativity) : prog_scope.

(** A call that cannot fail. *)
Definition emit (e : event) : M unit := fun tr => (tr ++ [e], Ok tt).

(** A call followed by [checkError(err)]. *)
Definition checked (w : World) (e : event) : M unit :=
  fun tr =>
    if fails w (tr ++ [e]) then (tr, Abort (Fatal e)) else (tr ++ [e], Ok tt).

(** [panic]. *)
Definition panic {A : Type} : M A := fun tr => (tr, Abort Panicked).

(** [logProgress(tot, cur)] as a step. *)
Definition logProgressM (tot cur : Z) : M unit :=
  match logProgress tot cur with
  | Some line => emit (EvProgress line)
  | None => panic
  end.

(** [defer doc.Close()]: the deferred call runs when the body returns and
    when it panics, but not when [log.Fatal] ends the process. *)
Definition deferClose {A : Type} (body : M A) : M A :=
  fun tr =>
    match body tr with
    | (tr', Ok a) => (tr' ++ [EvClose], Ok a)
    | (tr', Abort Panicked) => (tr' ++ [EvClose], Abort Panicked)
    | (tr', Abort (Fatal e)) => (tr', Abort (Fatal e))
    end.

(** ** [processChunk] *)

Definition pollFreq : Z := 5.

(** The name of the file of page index [n]: [fmt.Sprintf("%03d.jpg", n+1)]. *)
Definition fileName (n : Z) : string :=
  (Fmt.d03 (GoInt.add n 1) ++ ".jpg")%string.

Local Open Scope prog_scope.

(** The body of [for n := start; n < end; n++], [k] iterations from [n]. *)
Fixpoint pageLoop (w : World) (tot : Z) (k : nat) (n count : Z) : M Z :=
  match k with
  | O => ret count
  | S k' =>
      checked w (EvImage n) ;;
      checked w (EvCreate n (fileName n)) ;;
      checked w (EvEncode n (fileName n)) ;;
      (if GoInt.rem count pollFreq =? 0 then logProgressM tot count
       else ret tt) ;;
      emit (EvFileClose n) ;;
      pageLoop w tot k' (GoInt.add n 1) (GoInt.add count 1)
  end.

Definition processChunk (w : World) (start end_ cnt tot : Z) : M Z :=
  emit (EvChunk start end_) ;;
  checked w EvNew ;;
  deferClose
    (count <- pageLoop w tot (Z.to_nat (end_ - start)) start cnt ;;
     logProgressM tot count ;;
     ret count).

(** ** [main]

    The part of [main] from the first [fitz.New] on.  (Before it, [main]
    parses the flags and prepares the output directory; the elapsed time it
    prints at the end is not modelled.) *)

Definition intMinM (vals : list Z) : M Z :=
  match intMin vals with
  | Some v => ret v
  | None => panic
  end.

(** The loop [for remPages > 0 { ... }].  [None]: the fuel ran out. *)
Fixpoint chunkLoop (w : World) (chunkSizeF totalPages tot : Z) (fuel : nat)
    (remPages curStart curEnd count : Z) (tr : trace)
    : option (trace * result Z) :=
  if remPages >? 0 then
    match fuel with
    | O => None
    | S fuel' =>
        match processChunk w curStart curEnd count tot tr with
        | (tr1, Ok count') =>
            let remPages' := GoInt.sub remPages (GoInt.sub curEnd curStart) in
            match intMinM [GoInt.add curEnd chunkSizeF; totalPages] tr1 with
            | (tr2, Ok curEnd') =>
                chunkLoop w chunkSizeF totalPages tot fuel'
                  remPages' curEnd curEnd' count' tr2
            | (tr2, Abort why) => Some (tr2, Abort why)
            end
        | (tr1, Abort why) => Some (tr1, Abort why)
        end
    end
  else Some (tr, Ok count).

(** The set-up before the loop: the throw-away handle that gives the page
    count, the bounds, and the first chunk. *)
Definition setup (w : World) (startPgF endPgF chunkSizeF : Z)
    : M (Z * Z * Z * Z) :=
  checked w EvNew ;;
  emit EvClose ;;
  let totalPages := NumPage w in
  let startPage := startPage startPgF endPgF in
  let endPage := endPage endPgF totalPages in
  let remPages := GoInt.sub endPage startPage in
  curEnd <- intMinM [GoInt.add startPage remPages;
                     GoInt.add startPage chunkSizeF; totalPages] ;;
  ret (remPages, startPage, curEnd, GoInt.sub endPage startPage).

Definition main (w : World) (fuel : nat) (startPgF endPgF chunkSizeF : Z)
    : option (trace * result Z) :=
  match setup w startPgF endPgF chunkSizeF [] with
  | (tr, Ok (remPages, curStart, curEnd, tot)) =>
      chunkLoop w chunkSizeF (NumPage w) tot fuel remPages curStart curEnd 0 tr
  | (tr, Abort why) => Some (tr, Abort why)
  end.

Local Close Scope prog_scope.

(** The process's exit status. *)
Definition exitStatus {A : Type} (r : result A) : Z :=
  match r with
  | Ok _ => 0
  | Abort (Fatal _) => 1
  | Abort Panicked => 2
  end.

(** ** What a trace says *)

(** The chunks handed to [processChunk], in order. *)
Fixpoint chunksOf (tr : trace) : list (Z * Z) :=
  match tr with
  | [] => []
  | EvChunk a b :: tr' => (a, b) :: chunksOf tr'
  | _ :: tr' => chunksOf tr'
  end.

(** The page indices given to [doc.Image], in order. *)
Fixpoint renderedOf (tr : trace) : list Z :=
  match tr with
  | [] => []
  | EvImage n :: tr' => n :: renderedOf tr'
  | _ :: tr' => renderedOf tr'
  end.

(** The files that [os.Create] was asked for, in order. *)
Fixpoint createdOf (tr : trace) : list string :=
  match tr with
  | [] => []
  | EvCreate _ name :: tr' => name :: createdOf tr'
  | _ :: tr' => createdOf tr'
  end.

(** The files given to the encoder, in order. *)
Fixpoint encodedOf (tr : trace) : list string :=
  match tr with
  | [] => []
  | EvEncode _ name :: tr' => name :: encodedOf tr'
  | _ :: tr' => encodedOf tr'
  end.

(** The progress lines printed, in order. *)
Fixpoint progressOf (tr : trace) : list string :=
  match tr with
  | [] => []
  | EvProgress s :: tr' => s :: progressOf tr'
  | _ :: tr' => progressOf tr'
  end.

(** A world in which no call fails. *)
Definition calm (pages : Z) : World := mkWorld pages (fun _ => false).


(** ** Vocabulary of the statements *)

(** The page indices [a, a+1, ..., a+n-1]. *)
Definition seqZ (a : Z) (n : nat) : list Z :=
  map (fun i => a + Z.of_nat i) (seq 0 n).

(** The trace contains the complete processing (render, create, encode) of
    exactly the pages [from .. from+j-1], in order, and of no other page. *)
Definition donePages (from : Z) (j : nat) (tr : trace) : Prop :=
  renderedOf tr = seqZ from j /\
  createdOf tr = map fileName (seqZ from j) /\
  encodedOf tr = map fileName (seqZ from j).

(** What the trace holds when the run ends with [r], in terms of the pages
    from [from] on: [j] pages are complete; after an error, the failing call
    is the one of the next page, [from + j], whose earlier steps have been
    done. *)
Definition pagesState {A : Type} (from : Z) (j : nat) (tr : trace)
    (r : result A) : Prop :=
  match r with
  | Ok _ | Abort Panicked | Abort (Fatal EvNew) => donePages from j tr
  | Abort (Fatal (EvImage p)) =>
      p = from + Z.of_nat j /\ donePages from j tr
  | Abort (Fatal (EvCreate p name)) =>
      p = from + Z.of_nat j /\ name = fileName p /\
      renderedOf tr = seqZ from (S j) /\
      createdOf tr = map fileName (seqZ from j) /\
      encodedOf tr = map fileName (seqZ from j)
  | Abort (Fatal (EvEncode p name)) =>
      p = from + Z.of_nat j /\ name = fileName p /\
      renderedOf tr = seqZ from (S j) /\
      createdOf tr = map fileName (seqZ from (S j)) /\
      encodedOf tr = map fileName (seqZ from j)
  | Abort (Fatal _) => False
  end.

(** The invariant of the chunk loop, at the loop's head, for the resolved
    range [sp, ep) of a document of [total] pages and the chunk size [C]:
    the pages from [sp] on have been processed, [count] of them.  While
    pages remain, [curStart] is the next page and [remPages] is what is left
    up to [ep]; the next chunk ends at or before [total], after [curStart]
    unless [curStart + C] has wrapped around. *)
Definition loopInv (C total sp ep : Z) (tr : trace)
    (remPages curStart curEnd count : Z) : Prop :=
  exists j : nat,
    donePages sp j tr /\
    count = Z.of_nat j /\
    (j = 0%nat \/ sp + count <= total) /\
    remPages <= ep - sp - count /\
    (0 < remPages ->
     curStart = sp + count /\
     remPages = ep - curStart /\
     curEnd <= total /\
     (curStart + C <= GoInt.max_int -> curStart < curEnd <= curStart + C) /\
     (GoInt.max_int < curStart + C -> curEnd = curStart + C - GoInt.modulus)) /\
    (total + C <= GoInt.max_int -> remPages = ep - sp - count).

(** The end of the first chunk, as [main] computes it before the loop. *)
Definition firstEnd (C total sp ep : Z) : Z :=
  Z.min (Z.min (GoInt.add sp (ep - sp)) (GoInt.add sp C)) total.

(** A world in which every call of the encoder fails, and no other call. *)
Definition encoderDown (pages : Z) : World :=
  mkWorld pages
    (fun tr => match List.last tr EvClose with
               | EvEncode _ _ => true
               | _ => false
               end).

(** ** Vocabulary of the statements about failed calls *)









(** ** Vocabulary of the floating-point proofs *)

(** Where a remainder [r] in [0, D) lies between two neighbours: on the
    lower one, below, at or above the midpoint. *)
Definition locOf (r D : Z) : location :=
  if r =? 0 then loc_Exact else loc_Inexact (2 * r ?= D).

(** The quotient N/D cut to an integer, with the location of what was cut
    off, in the form the rounding of [SpecFloat] works on. *)
Definition qrec (N D : Z) : shr_record :=
  shr_record_of_loc (N / D) (locOf (N mod D) D).

(** N/D rounded to the nearest integer, ties to even. *)
Definition rne (N D : Z) : Z :=
  round_nearest_even (N / D) (locOf (N mod D) D).

(** The float64 nearest to (N/D) * 2^e. *)
Definition roundQ (N D e : Z) : spec_float :=
  binary_round_aux Float64.prec Float64.emax false (N / D) e
    (locOf (N mod D) D).

(** The float m * 2^e for a mantissa in [2^52, 2^53], where 2^53 stands for
    the first mantissa of the next exponent. *)
Definition rfloat (m e : Z) : spec_float :=
  if m <? 2 ^ 53 then S754_finite false (Z.to_pos m) e
  else S754_finite false (Z.to_pos (2 ^ 52)) (e + 1).

(** The ceiling of the quotient n/d. *)
Definition ceilDiv (n d : Z) : Z := - ((- n) / d).

(** The number of filled segments that [logProgress] computes,
    [int(math.Ceil(SYMBOL_WIDTH * progress))]. *)
Definition symCntOf (tot cur : Z) : Z :=
  Float64.to_int
    (Float64.Ceil
       (Float64.mul (Float64.of_int SYMBOL_WIDTH)
          (Float64.div (Float64.of_int cur) (Float64.of_int tot)))).

(** ** Vocabulary of the statements about file names *)

(** The number that a string of decimal digits stands for; [None] when a
    character is not a digit. *)
Definition decimalValue (s : string) : option Z :=
  option_map Z.of_uint (NilEmpty.uint_of_string s).

(** ** Vocabulary of the statements about the chunk schedule *)

(** The chunks as the loop of [main] schedules them for the range that ends
    at [ep] in a document of [total] pages: each chunk starts at [from],
    where the one before ended, and below [ep]; the first one ends at
    [min(ep, from + C)], a later one at [min(from + C, total)]. *)
Fixpoint chunkChain (C total ep : Z) (first : bool) (from : Z)
    (cs : list (Z * Z)) : Prop :=
  match cs with
  | [] => True
  | (a, b) :: rest =>
      a = from /\ from < ep /\
      b = (if first then Z.min ep (from + C) else Z.min (from + C) total) /\
      chunkChain C total ep false b rest
  end.

(** The end of the last chunk of a list, [from] when there is none. *)
Definition lastEnd (from : Z) (cs : list (Z * Z)) : Z :=
  List.last (map snd cs) from.

(** What the loop knows at its head when nothing wraps around: the pages
    left, the pages counted, and how the end of the next chunk was
    computed. *)
Definition chainInv (C total sp ep : Z) (first : bool)
    (remPages curStart curEnd count : Z) : Prop :=
  remPages = ep - curStart /\
  count = curStart - sp /\
  sp <= curStart /\
  (0 < remPages ->
   curEnd = (if first then Z.min ep (curStart + C)
             else Z.min (curStart + C) total)).

(** ** Vocabulary of the statements about the renderer handle *)

(** The events of the processing of a page: everything but the opening and
    the closing of the document and the entry of a chunk. *)
Definition pageEvent (e : event) : bool :=
  match e with
  | EvNew | EvClose | EvChunk _ _ => false
  | _ => true
  end.

(** The discipline of the document handle, checked along a trace from the
    state [live] (is a handle open?): a document is opened only when none is
    open, closed only when one is open, and pages are rendered only on an
    open one.  The result is the state at the end, [None] when the trace
    breaks the discipline. *)
Fixpoint protocol (live : bool) (tr : trace) : option bool :=
  match tr with
  | [] => Some live
  | EvNew :: tr' => if live then None else protocol true tr'
  | EvClose :: tr' => if live then protocol false tr' else None
  | EvImage _ :: tr' => if live then protocol true tr' else None
  | _ :: tr' => protocol live tr'
  end.

(** Is a handle left open when the process ends with [r]?  Only when
    [log.Fatal] ends it inside a chunk, after the chunk's document was
    opened. *)
Definition leftOpen {A : Type} (r : result A) : bool :=
  match r with
  | Abort (Fatal EvNew) => false
  | Abort (Fatal _) => true
  | _ => false
  end.

(** A step that adds only events that satisfy [P] to the trace. *)
Definition emitsOnly {A : Type} (P : event -> bool) (m : M A) : Prop :=
  forall tr tr' r, m tr = (tr', r) ->
                   exists d, tr' = tr ++ d /\ forallb P d = true.

(** ** The output directory: [removeAllFiles] and the start of [main]

    A directory is the list of the names of its entries, in the order in
    which [Readdirnames] lists them.  The [Disk] decides which calls of the
    operating system fail. *)

Record Disk : Type := mkDisk {
  mkdirErr : bool;               (* os.MkdirAll(dir, 0755) fails *)
  openErr : bool;                (* os.Open(dir) fails *)
  readErr : bool;                (* d.Readdirnames(-1) fails *)
  removeErr : string -> bool     (* os.RemoveAll(dir/name) fails *)
}.

Inductive fsError : Type :=
| ErrMkdirAll
| ErrOpen
| ErrReaddirnames
| ErrRemoveAll (name : string).

(** The directory after [os.RemoveAll(dir/name)] has succeeded. *)
Definition removeEntry (name : string) (dir : list string) : list string :=
  filter (fun n => negb (String.eqb n name)) dir.

(** The loop [for _, name := range names]: the directory it leaves and the
    error it returns. *)
Fixpoint removeLoop (d : Disk) (names dir : list string)
    : list string * option fsError :=
  match names with
  | [] => (dir, None)
  | name :: rest =>
      if removeErr d name then (dir, Some (ErrRemoveAll name))
      else removeLoop d rest (removeEntry name dir)
  end.

Definition removeAllFiles (d : Disk) (dir : list string)
    : list string * option fsError :=
  if openErr d then (dir, Some ErrOpen)
  else if readErr d then (dir, Some ErrReaddirnames)
  else removeLoop d dir dir.

(** The start of [main]: the output directory is made if it is missing
    ([None]) and, unless [-a] is given, emptied.  An error is the
    [log.Fatal] that ends the process.  The directory exists after
    [os.MkdirAll], so that [os.Stat] finds it. *)
Definition prepareOutput (d : Disk) (appendF : bool)
    (dir : option (list string)) : option (list string) * option fsError :=
  if mkdirErr d then (dir, Some ErrMkdirAll)
  else
    let made := match dir with Some entries => entries | None => [] end in
    if negb appendF then
      match removeAllFiles d made with
      | (kept, err) => (Some kept, err)
      end
    else (Some made, None).

(** ** Vocabulary of the statements about panics *)

(** A step that does not panic. *)
Definition noPanic {A : Type} (m : M A) : Prop :=
  forall tr tr' r, m tr = (tr', r) -> r <> Abort Panicked.

(** The chunk size divides what is left of the range from [from], or the
    range ends with the document: the chunks from [from] on, cut at
    [total], end at [ep]. *)
Definition endsAt (C total ep from : Z) : Prop :=
  ep = total \/ (ep - from) mod C = 0.

(** ** Vocabulary of the statements about the progress lines *)

(** The counts that the page loop reports when it runs [k] turns from the
    count [from]: those that [pollFreq] divides. *)
Definition pollCounts (from : Z) (k : nat) : list Z :=
  filter (fun c => GoInt.rem c pollFreq =? 0) (seqZ from k).

(** The counts reported during the chunks [cs] of a range that starts at
    [sp]: inside a chunk, the polled counts of the pages before each page;
    at the end of a chunk, the count of all pages up to its end. *)
Definition reported (sp : Z) (cs : list (Z * Z)) : list Z :=
  flat_map (fun ab => pollCounts (fst ab - sp) (Z.to_nat (snd ab - fst ab))
                      ++ [snd ab - sp]) cs.

(** ** The first revision of [main.go]

    The first revision has the same flags, the same bounds and the same
    calls to the renderer, the file system and the encoder.  It differs in
    three places: [intMin] takes two arguments, the end of every chunk (the
    first one too) is [intMin(start + chunkSize, totalPages)], and
    [logProgress] prints a line before every page, after it has cleared the
    terminal with an external command once more than five pages are done. *)

Module FirstRevision.

(** The calls of this revision: those of the later revisions, and the
    commands that [clearTerminal] runs. *)
Inductive call : Type :=
| Lib (e : event)
| Run (name : string) (args : list string).  (* exec.Command(name, args...).Run() *)

Definition history : Type := list call.

Record Host : Type := mkHost {
  GOOS : string;                     (* runtime.GOOS *)
  NumPage : Z;                       (* doc.NumPage() *)
  fails : history -> bool            (* does the call at the end fail? *)
}.

(** How a run ends: nothing panics in this revision; [log.Fatal] ends the
    process with exit status 1 after a failed call. *)
Inductive outcome (A : Type) : Type :=
| Returned (a : A)
| Exited (failed : call).
Arguments Returned {A} a.
Arguments Exited {A} failed.

Definition T (A : Type) : Type := history -> history * outcome A.

Definition ret {A : Type} (a : A) : T A := fun hist => (hist, Returned a).

Definition bind {A B : Type} (m : T A) (f : A -> T B) : T B :=
  fun hist =>
    match m hist with
    | (hist', Returned a) => f a hist'
    | (hist', Exited c) => (hist', Exited c)
    end.

Declare Scope first_scope.
Delimit Scope first_scope with first.
Notation "x <- m ;; k" := (bind m (fun x => k))
  (at level 61, m at next level, right associativity) : first_scope.
Notation "m ;; k" := (bind m (fun _ => k))
  (at level 61, right associativity) : first_scope.

(** A call that cannot fail. *)
Definition emit (c : call) : T unit := fun hist => (hist ++ [c], Returned tt).

(** A call whose error goes to [log.Fatal]. *)
Definition checked (h : Host) (c : call) : T unit :=
  fun hist =>
    if fails h (hist ++ [c]) then (hist, Exited c)
    else (hist ++ [c], Returned tt).

(** A call whose error is dropped: [if err != nil { return }]. *)
Definition attempt (h : Host) (c : call) : T unit :=
  fun hist =>
    if fails h (hist ++ [c]) then (hist, Returned tt)
    else (hist ++ [c], Returned tt).

(** [defer doc.Close()]: not run when [log.Fatal] ends the process. *)
Definition deferClose {A : Type} (body : T A) : T A :=
  fun hist =>
    match body hist with
    | (hist', Returned a) => (hist' ++ [Lib EvClose], Returned a)
    | (hist', Exited c) => (hist', Exited c)
    end.

Local Open Scope first_scope.

Definition clearTerminal (h : Host) : T unit :=
  if (GOOS h =? "linux")%string then checked h (Run "clear" [])
  else if (GOOS h =? "darwin")%string then attempt h (Run "clear" [])
  else if (GOOS h =? "windows")%string then
    attempt h (Run "cmd" ["/c"; "cls"]%string)
  else ret tt.

Definition LF : string := String (ascii_of_nat 10) EmptyString.

(** [logProgress(n, c)]; the event holds the message given to
    [log.Printf]. *)
Definition logProgress (h : Host) (n c : Z) : T unit :=
  (if c >? 5 then clearTerminal h else ret tt) ;;
  emit (Lib (EvProgress
               ("working on pg: " ++ Fmt.d (GoInt.add n 1) ++ LF)%string)).

(** The body of [for n := start; n < end; n++], [k] iterations from [n]. *)
Fixpoint pageLoop (h : Host) (k : nat) (n count : Z) : T Z :=
  match k with
  | O => ret count
  | S k' =>
      logProgress h n count ;;
      checked h (Lib (EvImage n)) ;;
      checked h (Lib (EvCreate n (fileName n))) ;;
      checked h (Lib (EvEncode n (fileName n))) ;;
      emit (Lib (EvFileClose n)) ;;
      pageLoop h k' (GoInt.add n 1) (GoInt.add count 1)
  end.

Definition processChunk (h : Host) (start end_ cnt : Z) : T Z :=
  emit (Lib (EvChunk start end_)) ;;
  checked h (Lib EvNew) ;;
  deferClose (pageLoop h (Z.to_nat (end_ - start)) start cnt).

Definition intMin (a b : Z) : Z := if a <? b then a else b.

(** The loop [for remPages > 0 { ... }].  [None]: the fuel ran out. *)
Fixpoint chunkLoop (h : Host) (chunkSizeF totalPages : Z) (fuel : nat)
    (remPages curStart curEnd count : Z) (hist : history)
    : option (history * outcome Z) :=
  if remPages >? 0 then
    match fuel with
    | O => None
    | S fuel' =>
        match processChunk h curStart curEnd count hist with
        | (hist1, Returned count') =>
            chunkLoop h chunkSizeF totalPages fuel'
              (GoInt.sub remPages (GoInt.sub curEnd curStart))
              curEnd (intMin (GoInt.add curEnd chunkSizeF) totalPages)
              count' hist1
        | (hist1, Exited c) => Some (hist1, Exited c)
        end
    end
  else Some (hist, Returned count).

(** The part of [main] from the first [fitz.New] on. *)
Definition main (h : Host) (fuel : nat) (startPgF endPgF chunkSizeF : Z)
    : option (history * outcome Z) :=
  match (checked h (Lib EvNew) ;; emit (Lib EvClose)) [] with
  | (hist, Returned _) =>
      let totalPages := NumPage h in
      let startPage := startPage startPgF endPgF in
      let endPage := endPage endPgF totalPages in
      let remPages := GoInt.sub endPage startPage in
      chunkLoop h chunkSizeF totalPages fuel remPages startPage
        (intMin (GoInt.add startPage chunkSizeF) totalPages) 0 hist
  | (hist, Exited c) => Some (hist, Exited c)
  end.

Local Close Scope first_scope.

(** *** What a history says *)

(** The calls that the revisions have in common. *)
Fixpoint libOf (hist : history) : trace :=
  match hist with
  | [] => []
  | Lib e :: hist' => e :: libOf hist'
  | Run _ _ :: hist' => libOf hist'
  end.

(** The commands that were run, in order. *)
Fixpoint commandsOf (hist : history) : list (string * list string) :=
  match hist with
  | [] => []
  | Lib _ :: hist' => commandsOf hist'
  | Run name args :: hist' => (name, args) :: commandsOf hist'
  end.

(** A host on which no call fails. *)
Definition quiet (os : string) (pages : Z) : Host :=
  mkHost os pages (fun _ => false).

(** A host on which no command can be run, and no other call fails. *)
Definition bare (os : string) (pages : Z) : Host :=
  mkHost os pages
    (fun hist => match List.last hist (Lib EvClose) with
                 | Run _ _ => true
                 | Lib _ => false
                 end).

(** On this host every command fails. *)
Definition noCommands (h : Host) : Prop :=
  forall (hist : history) (name : string) (args : list string),
    fails h (hist ++ [Run name args]) = true.

(** *** Vocabulary of the statements *)

(** What the history holds when the run ends with [r], in terms of the
    pages from [from] on, [cnt] pages having been counted before them: [j]
    pages are complete; after a failed call of the library the state is the
    one of [pagesState]; a command fails only on linux, it is [clear], and
    more than five pages have been counted. *)
Definition state {A : Type} (h : Host) (from cnt : Z) (j : nat)
    (hist : history) (r : outcome A) : Prop :=
  match r with
  | Returned _ => donePages from j (libOf hist)
  | Exited (Lib e) => pagesState from j (libOf hist) (@Abort A (Fatal e))
  | Exited (Run name args) =>
      donePages from j (libOf hist) /\
      GOOS h = "linux"%string /\ name = "clear"%string /\ args = [] /\
      5 < cnt + Z.of_nat j
  end.

(** The price of the pages in commands: on linux all pages rendered in
    [d] but [budget] of them were preceded by a command that was run; and
    where no command can be run, none is in [d]. *)
Definition cleared (h : Host) (budget : Z) (d : history) : Prop :=
  (GOOS h = "linux"%string ->
   Z.of_nat (List.length (renderedOf (libOf d)))
   <= Z.of_nat (List.length (commandsOf d)) + budget) /\
  (noCommands h -> commandsOf d = []).

(** The invariant of the chunk loop of this revision, at the loop's head,
    when nothing wraps around. *)
Definition loopInv (h : Host) (C total sp ep : Z) (hist : history)
    (remPages curStart curEnd count : Z) : Prop :=
  exists j : nat,
    donePages sp j (libOf hist) /\
    count = Z.of_nat j /\
    (j = 0%nat \/ sp + count <= total) /\
    remPages = ep - sp - count /\
    curStart = sp + count /\
    (0 < remPages -> curEnd = Z.min (curStart + C) total) /\
    cleared h 6 hist.

End FirstRevision.

(** * Proofs *)

(** ** Arithmetic on [int] *)

Lemma wrap_small (z : Z) : GoInt.in_range z -> GoInt.wrap z = z.
Proof.
  unfold GoInt.in_range, GoInt.wrap, GoInt.min_int, GoInt.max_int,
    GoInt.modulus, GoInt.bits.
  intros H. change (2 ^ (64 - 1)) with 9223372036854775808 in *.
  change (2 ^ 64) with 18446744073709551616.
  rewrite Z.mod_small; lia.
Qed.

Lemma wrap_above (z : Z) :
  GoInt.max_int < z <= GoInt.max_int + GoInt.modulus ->
  GoInt.wrap z = z - GoInt.modulus.
Proof.
  unfold GoInt.wrap, GoInt.max_int, GoInt.modulus, GoInt.bits.
  change (2 ^ (64 - 1)) with 9223372036854775808 in *.
  change (2 ^ 64) with 18446744073709551616.
  intros H.
  replace (z + 9223372036854775808)
    with ((z - 9223372036854775808) + 1 * 18446744073709551616) by lia.
  rewrite Z.mod_add by lia. rewrite Z.mod_small; lia.
Qed.

Lemma wrap_below (z : Z) :
  GoInt.min_int - GoInt.modulus <= z < GoInt.min_int ->
  GoInt.wrap z = z + GoInt.modulus.
Proof.
  unfold GoInt.wrap, GoInt.min_int, GoInt.modulus, GoInt.bits.
  change (2 ^ (64 - 1)) with 9223372036854775808 in *.
  change (2 ^ 64) with 18446744073709551616.
  intros H.
  replace (z + 9223372036854775808)
    with ((z + 27670116110564327424) + (-1) * 18446744073709551616) by lia.
  rewrite Z.mod_add by lia. rewrite Z.mod_small; lia.
Qed.

Lemma max_int_val : GoInt.max_int = 9223372036854775807.
Proof. reflexivity. Qed.

Lemma min_int_val : GoInt.min_int = -9223372036854775808.
Proof. reflexivity. Qed.

Lemma modulus_val : GoInt.modulus = 18446744073709551616.
Proof. reflexivity. Qed.

(** Turns the bounds of [int] into numerals that [lia] can use. *)
Ltac int_bounds :=
  unfold GoInt.in_range in *;
  rewrite ?max_int_val, ?min_int_val, ?modulus_val in *.

Lemma add_small (a b : Z) :
  GoInt.in_range (a + b) -> GoInt.add a b = a + b.
Proof. apply wrap_small. Qed.

Lemma sub_small (a b : Z) :
  GoInt.in_range (a - b) -> GoInt.sub a b = a - b.
Proof. apply wrap_small. Qed.

Lemma wrap_above_add (a b : Z) :
  GoInt.max_int < a + b <= GoInt.max_int + GoInt.modulus ->
  GoInt.add a b = a + b - GoInt.modulus.
Proof. apply wrap_above. Qed.

(** ** [intMin] *)

Lemma intMin_2 (a b : Z) : intMin [a; b] = Some (Z.min a b).
Proof.
  cbn. destruct (Z.ltb_spec b a); f_equal; lia.
Qed.

Lemma intMin_3 (a b c : Z) : intMin [a; b; c] = Some (Z.min (Z.min a b) c).
Proof.
  cbn. destruct (Z.ltb_spec b a);
    match goal with |- context [?x <? ?y] => destruct (Z.ltb_spec x y) end;
    f_equal; lia.
Qed.

(** ** Bounds resolution *)

Lemma startPage_cases (s e : Z) :
  GoInt.in_range s ->
  (0 < s /\ s <= e /\ startPage s e = s - 1) \/
  (~ (0 < s /\ s <= e) /\ startPage s e = 0).
Proof.
  intros Hs. unfold startPage.
  destruct (Z.ltb_spec 0 s); destruct (Z.leb_spec s e); cbn [andb];
    try (right; split; [lia | reflexivity]).
  left. repeat split; try lia. apply sub_small. int_bounds. lia.
Qed.

Lemma endPage_cases (e total : Z) :
  ((e < 0 \/ total < e) /\ endPage e total = total) \/
  (0 <= e <= total /\ endPage e total = e).
Proof.
  unfold endPage.
  destruct (Z.ltb_spec e 0); destruct (Z.ltb_spec total e); cbn [orb];
    try (left; split; [lia | reflexivity]).
  right. split; [lia | reflexivity].
Qed.

Lemma startPage_nonneg (s e : Z) : GoInt.in_range s -> 0 <= startPage s e.
Proof. intros Hs. destruct (startPage_cases s e Hs) as [[? [? ->]]|[_ ->]]; lia. Qed.

Lemma endPage_bounds (e total : Z) : 0 <= total -> 0 <= endPage e total <= total.
Proof. intros Ht. destruct (endPage_cases e total) as [[? ->]|[? ->]]; lia. Qed.

(** C2, as stated, fails: with [-s 5 -e 7] on a document of 3 pages the
    resolved range is [startPage = 4], [endPage = 3]. *)
Lemma range_invariant_counterexample :
  ~ (0 <= startPage 5 7 /\ startPage 5 7 <= endPage 7 3 /\ endPage 7 3 <= 3).
Proof. vm_compute. intros [_ [H _]]. apply H. reflexivity. Qed.

(** C2 (amended): for all flags and every page count [totalPages >= 0] the
    resolved range satisfies [0 <= startPage] and
    [0 <= endPage <= totalPages]; and [startPage <= endPage] holds exactly
    when it is not the case that [totalPages + 1 < startFlag <= endFlag]. *)
Theorem range_invariant (startPgF endPgF totalPages : Z) :
  GoInt.in_range startPgF ->
  0 <= totalPages ->
  0 <= startPage startPgF endPgF /\
  0 <= endPage endPgF totalPages <= totalPages /\
  (startPage startPgF endPgF <= endPage endPgF totalPages <->
   ~ (totalPages + 1 < startPgF /\ startPgF <= endPgF)).
Proof.
  intros Hs Ht.
  destruct (startPage_cases startPgF endPgF Hs) as [[H1 [H2 ->]]|[H1 ->]];
    destruct (endPage_cases endPgF totalPages) as [[H3 ->]|[H3 ->]]; lia.
Qed.

Lemma range_invariant_witness :
  0 <= startPage 2 5 /\
  0 <= endPage 5 10 <= 10 /\
  (startPage 2 5 <= endPage 5 10 <-> ~ (10 + 1 < 2 /\ 2 <= 5)).
Proof. apply (range_invariant 2 5 10); [int_bounds; lia | lia]. Defined.

(** C5: a positive start flag greater than the end flag resolves to
    [startPage = 0]; in particular with the end flag left at its default -1
    no positive start flag is honoured. *)
Theorem start_flag_guard (startPgF endPgF : Z) :
  0 < startPgF ->
  startPgF > endPgF ->
  startPage startPgF endPgF = 0 /\ startPage startPgF (-1) = 0.
Proof.
  intros Hpos Hgt. unfold startPage.
  destruct (Z.leb_spec startPgF endPgF); [lia|].
  destruct (Z.leb_spec startPgF (-1)); [lia|].
  rewrite !andb_false_r. split; reflexivity.
Qed.

Lemma start_flag_guard_witness :
  startPage 4 2 = 0 /\ startPage 4 (-1) = 0.
Proof. apply (start_flag_guard 4 2); lia. Defined.

(** C6: for [totalPages >= 0], the end flag -1 and every end flag above
    [totalPages] resolve to [endPage = totalPages], an end flag in
    [0 .. totalPages] is kept, and resolving a resolved [endPage] again
    changes nothing. *)
Theorem end_flag_clamp (totalPages : Z) :
  0 <= totalPages ->
  endPage (-1) totalPages = totalPages /\
  (forall e, totalPages < e -> endPage e totalPages = totalPages) /\
  (forall e, 0 <= e <= totalPages -> endPage e totalPages = e) /\
  (forall e, endPage (endPage e totalPages) totalPages = endPage e totalPages).
Proof.
  intros Ht. split; [reflexivity|]. split; [|split].
  - intros e He. destruct (endPage_cases e totalPages) as [[_ ->]|[? _]]; lia.
  - intros e He. destruct (endPage_cases e totalPages) as [[? _]|[_ ->]]; lia.
  - intros e.
    destruct (endPage_cases e totalPages) as [[_ ->]|[H ->]];
      destruct (endPage_cases totalPages totalPages) as [[? ?]|[_ ?]];
      destruct (endPage_cases e totalPages) as [[? ?]|[_ ?]]; lia.
Qed.

Lemma end_flag_clamp_witness :
  endPage (-1) 7 = 7 /\
  (forall e, 7 < e -> endPage e 7 = 7) /\
  (forall e, 0 <= e <= 7 -> endPage e 7 = e) /\
  (forall e, endPage (endPage e 7) 7 = endPage e 7).
Proof. apply (end_flag_clamp 7). lia. Defined.

(** Splits a conjunction into its parts, without unfolding definitions. *)
Ltac splits := repeat match goal with |- _ /\ _ => split end.

(** ** Traces *)

Lemma chunksOf_app (a b : trace) : chunksOf (a ++ b) = chunksOf a ++ chunksOf b.
Proof. induction a as [|[] a IH]; cbn; rewrite ?IH; reflexivity. Qed.

Lemma renderedOf_app (a b : trace) :
  renderedOf (a ++ b) = renderedOf a ++ renderedOf b.
Proof. induction a as [|[] a IH]; cbn; rewrite ?IH; reflexivity. Qed.

Lemma createdOf_app (a b : trace) :
  createdOf (a ++ b) = createdOf a ++ createdOf b.
Proof. induction a as [|[] a IH]; cbn; rewrite ?IH; reflexivity. Qed.

Lemma encodedOf_app (a b : trace) :
  encodedOf (a ++ b) = encodedOf a ++ encodedOf b.
Proof. induction a as [|[] a IH]; cbn; rewrite ?IH; reflexivity. Qed.

Lemma progressOf_app (a b : trace) :
  progressOf (a ++ b) = progressOf a ++ progressOf b.
Proof. induction a as [|[] a IH]; cbn; rewrite ?IH; reflexivity. Qed.

Lemma seqZ_S (a : Z) (n : nat) : seqZ a (S n) = seqZ a n ++ [a + Z.of_nat n].
Proof. unfold seqZ. rewrite seq_S, map_app. reflexivity. Qed.

Lemma seqZ_cons (a : Z) (n : nat) : seqZ a (S n) = a :: seqZ (a + 1) n.
Proof.
  unfold seqZ. cbn [seq map]. rewrite Z.add_0_r. f_equal.
  rewrite <- seq_shift, map_map. apply map_ext. intros i. lia.
Qed.

Lemma seqZ_app (a : Z) (n m : nat) :
  seqZ a (n + m) = seqZ a n ++ seqZ (a + Z.of_nat n) m.
Proof.
  revert a. induction n as [|n IH]; intros a.
  - cbn [seqZ seq map app Nat.add Z.of_nat]. rewrite Z.add_0_r. reflexivity.
  - change (S n + m)%nat with (S (n + m)). rewrite !seqZ_cons, IH.
    cbn [app]. replace (a + 1 + Z.of_nat n) with (a + Z.of_nat (S n)) by lia.
    reflexivity.
Qed.

Lemma seqZ_length (a : Z) (n : nat) : List.length (seqZ a n) = n.
Proof. unfold seqZ. rewrite length_map, length_seq. reflexivity. Qed.

Lemma seqZ_In (a : Z) (n : nat) (x : Z) :
  In x (seqZ a n) <-> a <= x < a + Z.of_nat n.
Proof.
  unfold seqZ. rewrite in_map_iff. split.
  - intros [i [<- Hi]]. apply in_seq in Hi. lia.
  - intros H. exists (Z.to_nat (x - a)). split; [lia|]. apply in_seq. lia.
Qed.

Lemma donePages_nil (from : Z) : donePages from 0 [].
Proof. repeat split. Qed.

Lemma donePages_app (from : Z) (i j : nat) (a b : trace) :
  donePages from i a ->
  donePages (from + Z.of_nat i) j b ->
  donePages from (i + j) (a ++ b).
Proof.
  intros (Ha1 & Ha2 & Ha3) (Hb1 & Hb2 & Hb3). unfold donePages.
  rewrite renderedOf_app, createdOf_app, encodedOf_app, seqZ_app, map_app.
  rewrite Ha1, Ha2, Ha3, Hb1, Hb2, Hb3. repeat split.
Qed.

(** Pages done before a point add up with what happens after it. *)
Lemma pagesState_shift {A : Type} (from : Z) (i j : nat) (a b : trace)
    (r : result A) :
  donePages from i a ->
  pagesState (from + Z.of_nat i) j b r ->
  pagesState from (i + j) (a ++ b) r.
Proof.
  intros Ha Hb.
  assert (Hdone : donePages (from + Z.of_nat i) j b ->
                  donePages from (i + j) (a ++ b))
    by (apply donePages_app; assumption).
  destruct Ha as (Ha1 & Ha2 & Ha3).
  destruct r as [c|[e|]]; cbn [pagesState] in *; auto.
  destruct e; auto.
  - destruct Hb as [-> Hb]. split; [lia | auto].
  - destruct Hb as (-> & -> & Hb1 & Hb2 & Hb3).
    rewrite renderedOf_app, createdOf_app, encodedOf_app.
    rewrite Ha1, Ha2, Ha3, Hb1, Hb2, Hb3.
    replace (S (i + j)) with (i + S j)%nat by lia.
    rewrite !seqZ_app, !map_app.
    replace (from + Z.of_nat (i + j)) with (from + Z.of_nat i + Z.of_nat j)
      by lia.
    repeat split.
  - destruct Hb as (-> & -> & Hb1 & Hb2 & Hb3).
    rewrite renderedOf_app, createdOf_app, encodedOf_app.
    rewrite Ha1, Ha2, Ha3, Hb1, Hb2, Hb3.
    replace (S (i + j)) with (i + S j)%nat by lia.
    rewrite !seqZ_app, !map_app.
    replace (from + Z.of_nat (i + j)) with (from + Z.of_nat i + Z.of_nat j)
      by lia.
    repeat split.
Qed.

(** ** The steps of the program *)

Lemma checked_cases (w : World) (e : event) (tr : trace) :
  checked w e tr = (tr ++ [e], Ok tt) \/
  (fails w (tr ++ [e]) = true /\ checked w e tr = (tr, Abort (Fatal e))).
Proof. unfold checked. destruct (fails w (tr ++ [e])); auto. Qed.

Lemma logProgressM_cases (tot cur : Z) (tr : trace) :
  (exists line, logProgress tot cur = Some line /\
                logProgressM tot cur tr = (tr ++ [EvProgress line], Ok tt)) \/
  (logProgress tot cur = None /\
   logProgressM tot cur tr = (tr, Abort Panicked)).
Proof.
  unfold logProgressM. destruct (logProgress tot cur) as [line|].
  - left. exists line. split; reflexivity.
  - right. split; reflexivity.
Qed.

(** Closes the side goals of a step of the page loop. *)
Ltac step_done :=
  try solve
    [ lia | discriminate | reflexivity | now symmetry
    | cbn; unfold donePages; cbn; rewrite ?Z.add_0_r; splits;
      (reflexivity || lia)
    | repeat split
    | intros ? [=]
    | intros ? [= <-]; assumption ].

Section PageLoop.

Variable w : World.
Variable tot : Z.

(** One turn of the page loop, up to the recursive call. *)
Lemma pageLoop_step (k : nat) (n count : Z) (tr : trace)
    (res : trace * result Z) :
  pageLoop w tot (S k) n count tr = res ->
  (exists mid,
      res = pageLoop w tot k (GoInt.add n 1) (GoInt.add count 1) (tr ++ mid)
      /\ donePages n 1 mid /\ chunksOf mid = []) \/
  (exists mid r j,
      res = (tr ++ mid, Abort r) /\
      pagesState n j mid (@Abort Z r) /\ chunksOf mid = [] /\
      r <> Fatal EvNew /\ (j <= 1)%nat /\ (j = 1%nat -> r = Panicked) /\
      (forall e, r = Fatal e -> fails w ((tr ++ mid) ++ [e]) = true)).
Proof.
  intros E. cbn [pageLoop] in E. unfold bind at 1 in E.
  destruct (checked_cases w (EvImage n) tr) as [H | [Hf H]]; rewrite H in E;
    clear H.
  2:{ right. exists [], (Fatal (EvImage n)), 0%nat. rewrite app_nil_r.
      splits; step_done. }
  unfold bind at 1 in E.
  destruct (checked_cases w (EvCreate n (fileName n)) (tr ++ [EvImage n]))
    as [H | [Hf H]]; rewrite H in E; clear H.
  2:{ right. exists [EvImage n], (Fatal (EvCreate n (fileName n))), 0%nat.
      splits; step_done. }
  unfold bind at 1 in E.
  destruct (checked_cases w (EvEncode n (fileName n))
              ((tr ++ [EvImage n]) ++ [EvCreate n (fileName n)]))
    as [H | [Hf H]]; rewrite H in E; clear H.
  2:{ right. exists [EvImage n; EvCreate n (fileName n)],
        (Fatal (EvEncode n (fileName n))), 0%nat.
      rewrite <- !app_assoc in E. rewrite <- !app_assoc in Hf.
      splits; step_done.
      intros e [= <-]. rewrite <- !app_assoc. assumption. }
  unfold bind at 1 in E. rewrite <- !app_assoc in E. cbn [app] in E.
  destruct (GoInt.rem count pollFreq =? 0).
  - match type of E with context [logProgressM tot count ?t] =>
      destruct (logProgressM_cases tot count t) as [(line & _ & H)|[_ H]];
      rewrite H in E; clear H
    end.
    + left.
      exists [EvImage n; EvCreate n (fileName n); EvEncode n (fileName n);
              EvProgress line; EvFileClose n].
      unfold bind at 1, emit at 1 in E. rewrite <- !app_assoc in E.
      cbn [app] in E.
      splits; step_done.
    + right.
      exists [EvImage n; EvCreate n (fileName n); EvEncode n (fileName n)],
        Panicked, 1%nat.
      splits; step_done.
  - left.
    exists [EvImage n; EvCreate n (fileName n); EvEncode n (fileName n);
            EvFileClose n].
    unfold ret at 1, bind at 1, emit at 1 in E. rewrite <- !app_assoc in E.
    cbn [app] in E.
    splits; step_done.
Qed.

(** The page loop: it extends the trace by the complete processing of the
    pages [n ..], all [k] of them when it returns. *)
Lemma pageLoop_spec (k : nat) :
  forall (n count : Z) (tr tr' : trace) (r : result Z),
    GoInt.min_int <= n -> n + Z.of_nat k <= GoInt.max_int ->
    GoInt.min_int <= count -> count + Z.of_nat k <= GoInt.max_int ->
    pageLoop w tot k n count tr = (tr', r) ->
    exists (d : trace) (j : nat),
      tr' = tr ++ d /\ chunksOf d = [] /\ (j <= k)%nat /\
      pagesState n j d r /\
      (forall c, r = Ok c -> j = k /\ c = count + Z.of_nat k) /\
      (forall e, r = Abort (Fatal e) -> e <> EvNew /\ (j < k)%nat).
Proof.
  induction k as [|k IH]; intros n count tr tr' r Hn1 Hn2 Hc1 Hc2 E.
  - cbn in E. injection E as <- <-. exists [], 0%nat.
    rewrite app_nil_r. repeat apply conj; try reflexivity; try lia.
    + intros c [= <-]. lia.
    + intros e [=].
  - destruct (pageLoop_step k n count tr _ E)
      as [(mid & E' & Hmid & Hch)
         | (mid & a & j & E' & Hst & Hch & Hne & Hj & Hj1 & Hfl)].
    + rewrite !add_small in E' by (int_bounds; lia).
      symmetry in E'.
      apply IH in E'; try lia.
      destruct E' as (d & j & -> & Hd & Hjk & Hst & Hok & Hne).
      exists (mid ++ d), (1 + j)%nat.
      rewrite app_assoc, chunksOf_app, Hch, Hd.
      repeat apply conj; try reflexivity; try lia; try assumption.
      * apply pagesState_shift; [assumption|].
        replace (n + Z.of_nat 1) with (n + 1) by lia. assumption.
      * intros c Hc. destruct (Hok c Hc). lia.
      * intros e He. destruct (Hne e He). split; [assumption | lia].
    + injection E' as -> ->. exists mid, j.
      repeat apply conj; try reflexivity; try lia; try assumption.
      * intros c [=].
      * intros e [= ->]. split.
        -- intros ->. apply Hne. reflexivity.
        -- assert (j <> 1%nat) by (intros Hx; specialize (Hj1 Hx); discriminate).
           lia.
Qed.

End PageLoop.

(** [pagesState] looks at a trace only through its page events. *)
Lemma pagesState_proj {A : Type} (from : Z) (j : nat) (d d' : trace)
    (r : result A) :
  renderedOf d' = renderedOf d ->
  createdOf d' = createdOf d ->
  encodedOf d' = encodedOf d ->
  pagesState from j d r -> pagesState from j d' r.
Proof.
  intros H1 H2 H3.
  destruct r as [c|[e|]]; cbn [pagesState]; unfold donePages;
    try destruct e; rewrite ?H1, ?H2, ?H3; auto.
Qed.

Section ProcessChunk.

Variable w : World.
Variable tot : Z.

Lemma processChunk_spec (start end_ cnt : Z) (tr tr' : trace)
    (r : result Z) :
  GoInt.in_range start -> end_ <= GoInt.max_int ->
  GoInt.min_int <= cnt ->
  cnt + Z.of_nat (Z.to_nat (end_ - start)) <= GoInt.max_int ->
  processChunk w start end_ cnt tot tr = (tr', r) ->
  exists (d : trace) (j : nat),
    tr' = tr ++ d /\ chunksOf d = [(start, end_)] /\
    (j <= Z.to_nat (end_ - start))%nat /\
    pagesState start j d r /\
    (forall c, r = Ok c ->
               j = Z.to_nat (end_ - start) /\ c = cnt + Z.of_nat j /\
               logProgress tot c <> None) /\
    (forall e, r = Abort (Fatal e) -> e <> EvNew ->
               (j < Z.to_nat (end_ - start))%nat).
Proof.
  intros Hs He Hc1 Hc2 E.
  unfold processChunk in E. unfold bind at 1, emit at 1 in E.
  unfold bind at 1 in E.
  destruct (checked_cases w EvNew (tr ++ [EvChunk start end_])) as [H|[_ H]];
    rewrite H in E; clear H.
  2:{ injection E as <- <-. exists [EvChunk start end_], 0%nat.
      repeat apply conj; try reflexivity; try lia.
      - intros c [=].
      - intros e [= <-] Hx. now contradiction Hx. }
  unfold deferClose, bind at 1 in E.
  destruct (pageLoop w tot (Z.to_nat (end_ - start)) start cnt
              ((tr ++ [EvChunk start end_]) ++ [EvNew]))
    as [tr1 r1] eqn:EL.
  apply pageLoop_spec in EL; try (unfold GoInt.in_range in Hs; lia).
  destruct EL as (d & j & -> & Hch & Hj & Hst & Hok & Hne).
  destruct r1 as [count|[e|]].
  - destruct (Hok count eq_refl) as [-> ->].
    unfold bind at 1 in E.
    match type of E with context [logProgressM tot ?c ?t] =>
      destruct (logProgressM_cases tot c t) as [(line & Hl & H)|[Hl H]];
      rewrite H in E; clear H
    end.
    + unfold ret in E. injection E as <- <-.
      exists ([EvChunk start end_; EvNew] ++ d ++ [EvProgress line; EvClose]).
      exists (Z.to_nat (end_ - start)).
      split; [|split; [|split; [|split; [|split]]]].
      * rewrite <- !app_assoc. reflexivity.
      * rewrite !chunksOf_app, Hch. reflexivity.
      * lia.
      * eapply pagesState_proj; [ | | | exact Hst];
          [rewrite !renderedOf_app | rewrite !createdOf_app
           | rewrite !encodedOf_app]; cbn; rewrite app_nil_r; reflexivity.
      * intros c [= <-]. repeat apply conj; try reflexivity.
        rewrite Hl. discriminate.
      * intros e [=].
    + injection E as <- <-.
      exists ([EvChunk start end_; EvNew] ++ d ++ [EvClose]).
      exists (Z.to_nat (end_ - start)).
      split; [|split; [|split; [|split; [|split]]]].
      * rewrite <- !app_assoc. reflexivity.
      * rewrite !chunksOf_app, Hch. reflexivity.
      * lia.
      * eapply pagesState_proj; [ | | | exact Hst];
          [rewrite !renderedOf_app | rewrite !createdOf_app
           | rewrite !encodedOf_app]; cbn; rewrite app_nil_r; reflexivity.
      * intros c [=].
      * intros e [=].
  - injection E as <- <-.
    exists ([EvChunk start end_; EvNew] ++ d), j.
    split; [|split; [|split; [|split; [|split]]]].
    * rewrite <- !app_assoc. reflexivity.
    * rewrite !chunksOf_app, Hch. reflexivity.
    * lia.
    * eapply pagesState_proj; [ | | | exact Hst]; reflexivity.
    * intros c [=].
    * intros e' [= <-] _. apply (Hne e eq_refl).
  - injection E as <- <-.
    exists ([EvChunk start end_; EvNew] ++ d ++ [EvClose]), j.
    split; [|split; [|split; [|split; [|split]]]].
    * rewrite <- !app_assoc. reflexivity.
    * rewrite !chunksOf_app, Hch. reflexivity.
    * lia.
    * eapply pagesState_proj; [ | | | exact Hst];
        [rewrite !renderedOf_app | rewrite !createdOf_app
         | rewrite !encodedOf_app]; cbn; rewrite app_nil_r; reflexivity.
    * intros c [=].
    * intros e [=].
Qed.

End ProcessChunk.

(** ** The chunk loop *)

Section ChunkLoop.

Variable w : World.
Variables C sp ep tot : Z.

Local Abbreviation total := (NumPage w).

Hypothesis HC : 0 < C <= GoInt.max_int.
Hypothesis Htotal : 0 <= total <= GoInt.max_int.
Hypothesis Hsp : 0 <= sp <= GoInt.max_int.
Hypothesis Hep : 0 <= ep <= total.

(** One turn of the loop keeps the invariant and uses up remaining
    pages. *)
Lemma loop_iteration (tr tr1 : trace) (remPages curStart curEnd count : Z)
    (r : result Z) :
  loopInv C total sp ep tr remPages curStart curEnd count ->
  0 < remPages ->
  processChunk w curStart curEnd count tot tr = (tr1, r) ->
  chunksOf tr1 = chunksOf tr ++ [(curStart, curEnd)] /\
  0 <= curStart /\ curEnd <= total /\
  (curStart + C <= GoInt.max_int -> curStart < curEnd <= curStart + C) /\
  (exists j : nat,
      pagesState sp j tr1 r /\
      (j = 0%nat \/ sp + Z.of_nat j <= total) /\
      (forall e, r = Abort (Fatal e) -> e <> EvNew ->
                 sp + Z.of_nat j < total)) /\
  (forall count', r = Ok count' ->
     loopInv C total sp ep tr1
       (GoInt.sub remPages (GoInt.sub curEnd curStart))
       curEnd (Z.min (GoInt.add curEnd C) total) count' /\
     GoInt.sub remPages (GoInt.sub curEnd curStart) < remPages /\
     logProgress tot count' <> None).
Proof.
  intros (j & Hdone & Hcount & Hj & Hrem & Hhead & Hexact) Hpos E.
  destruct (Hhead Hpos) as (HcurStart & HremEq & HcurEnd & Hnowrap & Hwrap).
  clear Hhead.
  apply processChunk_spec in E; try (int_bounds; lia).
  destruct E as (d & j' & -> & Hch & Hj' & Hst & Hok & Hfatal).
  split; [rewrite chunksOf_app, Hch; reflexivity|].
  split; [lia|]. split; [lia|]. split; [assumption|]. split.
  - exists (j + j')%nat. split; [|split].
    + apply pagesState_shift; [assumption|].
      replace (sp + Z.of_nat j) with curStart by lia. assumption.
    + int_bounds. lia.
    + intros e He Hne. specialize (Hfatal e He Hne). int_bounds. lia.
  - intros count' ->.
    destruct (Hok count' eq_refl) as (-> & -> & Hlog). clear Hok Hfatal.
    split; [|split]; [| |assumption].
    + (* the invariant *)
      destruct (Z.le_gt_cases (curStart + C) GoInt.max_int) as [Hle|Hgt].
      * (* no wrap-around *)
        specialize (Hnowrap Hle).
        rewrite (sub_small curEnd curStart) by (int_bounds; lia).
        rewrite sub_small by (int_bounds; lia).
        exists (j + Z.to_nat (curEnd - curStart))%nat.
        split; [|split; [|split; [|split; [|split]]]].
        -- apply (pagesState_shift (A := Z) sp j _ tr d (Ok 0)
                    Hdone).
           replace (sp + Z.of_nat j) with curStart by lia. exact Hst.
        -- lia.
        -- right. lia.
        -- lia.
        -- intros Hpos'. split; [lia|]. split; [lia|]. split; [lia|].
           split.
           ++ intros Hle'. rewrite add_small by (int_bounds; lia). lia.
           ++ intros Hgt'. rewrite wrap_above_add by (int_bounds; lia).
              int_bounds. lia.
        -- intros _. lia.
      * (* [curStart + C] has wrapped around: an empty chunk *)
        specialize (Hwrap Hgt).
        assert (Hsub : GoInt.sub curEnd curStart = C).
        { unfold GoInt.sub. rewrite wrap_below; int_bounds; lia. }
        rewrite Hsub. rewrite sub_small by (int_bounds; lia).
        replace (Z.to_nat (curEnd - curStart)) with 0%nat
          by (int_bounds; lia).
        exists j. split; [|split; [|split; [|split; [|split]]]].
        -- apply (pagesState_proj (A := Z) sp j tr (tr ++ d) (Ok 0));
             try exact Hdone.
           all: replace (Z.to_nat (curEnd - curStart)) with 0%nat in Hst
               by (int_bounds; lia);
             destruct Hst as (H1 & H2 & H3);
             rewrite ?renderedOf_app, ?createdOf_app, ?encodedOf_app,
               ?H1, ?H2, ?H3; cbn; now rewrite app_nil_r.
        -- lia.
        -- destruct Hj; [left; assumption | right; lia].
        -- lia.
        -- intros Hpos'. exfalso. int_bounds. lia.
        -- intros Hfit. exfalso. int_bounds. lia.
    + (* fewer pages remain *)
      destruct (Z.le_gt_cases (curStart + C) GoInt.max_int) as [Hle|Hgt].
      * specialize (Hnowrap Hle).
        rewrite (sub_small curEnd curStart) by (int_bounds; lia).
        rewrite sub_small by (int_bounds; lia). lia.
      * specialize (Hwrap Hgt).
        assert (Hsub : GoInt.sub curEnd curStart = C).
        { unfold GoInt.sub. rewrite wrap_below; int_bounds; lia. }
        rewrite Hsub. rewrite sub_small by (int_bounds; lia). lia.
Qed.

Lemma chunkLoop_unfold (fuel : nat) (remPages curStart curEnd count : Z)
    (tr : trace) :
  0 < remPages ->
  chunkLoop w C total tot (S fuel) remPages curStart curEnd count tr =
  match processChunk w curStart curEnd count tot tr with
  | (tr1, Ok count') =>
      chunkLoop w C total tot fuel
        (GoInt.sub remPages (GoInt.sub curEnd curStart))
        curEnd (Z.min (GoInt.add curEnd C) total) count' tr1
  | (tr1, Abort why) => Some (tr1, Abort why)
  end.
Proof.
  intros Hpos. cbn [chunkLoop].
  destruct (Z.gtb_spec remPages 0); [|lia].
  destruct (processChunk w curStart curEnd count tot tr) as [tr1 [c|why]];
    [|reflexivity].
  unfold intMinM. rewrite intMin_2. reflexivity.
Qed.

Lemma chunkLoop_exit (fuel : nat) (remPages curStart curEnd count : Z)
    (tr : trace) :
  remPages <= 0 ->
  chunkLoop w C total tot fuel remPages curStart curEnd count tr =
  Some (tr, Ok count).
Proof.
  intros Hle. destruct fuel; cbn [chunkLoop];
    destruct (Z.gtb_spec remPages 0); try lia; reflexivity.
Qed.

(** What holds of the trace and the result when the loop ends. *)
Lemma chunkLoop_spec (fuel : nat) :
  forall (tr tr' : trace) (remPages curStart curEnd count : Z)
         (r : result Z),
    loopInv C total sp ep tr remPages curStart curEnd count ->
    chunkLoop w C total tot fuel remPages curStart curEnd count tr
    = Some (tr', r) ->
    exists j : nat,
      pagesState sp j tr' r /\
      (j = 0%nat \/ sp + Z.of_nat j <= total) /\
      (forall e, r = Abort (Fatal e) -> e <> EvNew ->
                 sp + Z.of_nat j < total) /\
      (forall c, r = Ok c ->
                 c = Z.of_nat j /\
                 (total + C <= GoInt.max_int -> ep - sp <= c) /\
                 ((remPages <= 0 /\ tr' = tr /\ c = count) \/
                  logProgress tot c <> None)) /\
      (forall a b, In (a, b) (chunksOf tr') ->
                   In (a, b) (chunksOf tr) \/
                   (0 <= a /\ b <= total /\
                    (a + C <= GoInt.max_int -> a < b <= a + C))) /\
      (List.length (chunksOf tr')
       <= List.length (chunksOf tr) + Z.to_nat remPages)%nat.
Proof.
  induction fuel as [|fuel IH];
    intros tr tr' remPages curStart curEnd count r Hinv E.
  - (* no fuel: the loop can only have ended at once *)
    cbn [chunkLoop] in E. destruct (Z.gtb_spec remPages 0); [discriminate|].
    injection E as <- <-.
    destruct Hinv as (j & Hdone & Hcount & Hj & Hrem & _ & Hexact).
    exists j. splits; try exact Hdone; try assumption; try lia.
    + intros e [=].
    + intros c [= <-]. splits; try lia. left. splits; [lia|reflexivity|reflexivity].
    + intros a b Hin. left. assumption.
  - destruct (Z.le_gt_cases remPages 0) as [Hle|Hpos].
    + rewrite chunkLoop_exit in E by assumption. injection E as <- <-.
      destruct Hinv as (j & Hdone & Hcount & Hj & Hrem & _ & Hexact).
      exists j. splits; try exact Hdone; try assumption; try lia.
      * intros e [=].
      * intros c [= <-]. splits; try lia. left. splits; [lia|reflexivity|reflexivity].
      * intros a b Hin. left. assumption.
    + rewrite chunkLoop_unfold in E by lia.
      destruct (processChunk w curStart curEnd count tot tr)
        as [tr1 r1] eqn:EP.
      destruct (loop_iteration _ _ _ _ _ _ _ Hinv ltac:(lia) EP)
        as (Hch & Hcs & Hce & Hne & (j & Hst & Hj & Hfatal) & Hnext).
      destruct r1 as [count'|why].
      * destruct (Hnext count' eq_refl) as (Hinv' & Hless & Hlog).
        destruct (IH _ _ _ _ _ _ _ Hinv' E)
          as (j' & Hst' & Hj' & Hfatal' & Hok' & Hin' & Hlen').
        exists j'. splits; try assumption.
        -- intros c Hc. destruct (Hok' c Hc) as (Hc1 & Hc2 & Hc3).
           splits; try assumption.
           right. destruct Hc3 as [(_ & _ & ->)|Hc3]; assumption.
        -- intros a b Hin. destruct (Hin' a b Hin) as [Hold|Hnew]; [|auto].
           rewrite Hch in Hold. apply in_app_or in Hold.
           destruct Hold as [Hold|[[= <- <-]|[]]]; [auto|right; splits; (lia || assumption)].
        -- rewrite Hch, length_app in Hlen'. cbn [List.length] in Hlen'. lia.
      * injection E as <- <-. exists j.
        splits; try assumption.
        -- intros c [=].
        -- intros a b Hin. rewrite Hch in Hin. apply in_app_or in Hin.
           destruct Hin as [Hold|[[= <- <-]|[]]]; [auto|right; splits; (lia || assumption)].
        -- rewrite Hch, length_app. cbn [List.length]. lia.
Qed.

(** The loop ends: fuel for one turn per remaining page is enough. *)
Lemma chunkLoop_terminates (fuel : nat) :
  forall (tr : trace) (remPages curStart curEnd count : Z),
    loopInv C total sp ep tr remPages curStart curEnd count ->
    remPages <= Z.of_nat fuel ->
    exists res,
      chunkLoop w C total tot fuel remPages curStart curEnd count tr
      = Some res.
Proof.
  induction fuel as [|fuel IH];
    intros tr remPages curStart curEnd count Hinv Hfuel.
  - rewrite chunkLoop_exit by lia. eauto.
  - destruct (Z.le_gt_cases remPages 0) as [Hle|Hpos].
    + rewrite chunkLoop_exit by lia. eauto.
    + rewrite chunkLoop_unfold by lia.
      destruct (processChunk w curStart curEnd count tot tr)
        as [tr1 r1] eqn:EP.
      destruct (loop_iteration _ _ _ _ _ _ _ Hinv ltac:(lia) EP)
        as (_ & _ & _ & _ & _ & Hnext).
      destruct r1 as [count'|why]; [|eauto].
      destruct (Hnext count' eq_refl) as (Hinv' & Hless & _).
      apply IH; [assumption | lia].
Qed.

(** More fuel does not change the result. *)
Lemma chunkLoop_fuel_mono (fuel : nat) :
  forall (extra : nat) (tr : trace) (remPages curStart curEnd count : Z)
         res,
    chunkLoop w C total tot fuel remPages curStart curEnd count tr
    = Some res ->
    chunkLoop w C total tot (fuel + extra) remPages curStart curEnd count tr
    = Some res.
Proof.
  induction fuel as [|fuel IH];
    intros extra tr remPages curStart curEnd count res E.
  - cbn [chunkLoop] in E. destruct (Z.gtb_spec remPages 0); [discriminate|].
    injection E as <-. apply chunkLoop_exit. lia.
  - destruct (Z.le_gt_cases remPages 0) as [Hle|Hpos].
    + rewrite chunkLoop_exit in E by lia. injection E as <-.
      apply chunkLoop_exit. lia.
    + change (S fuel + extra)%nat with (S (fuel + extra)).
      rewrite chunkLoop_unfold in * by lia.
      destruct (processChunk w curStart curEnd count tot tr)
        as [tr1 [count'|why]]; [|assumption].
      apply IH. assumption.
Qed.

End ChunkLoop.

(** ** A failed call ends the run

    When the run ends with [Fatal e], the trace is the history up to the
    failing call [e]: nothing was done after it, and nothing was retried. *)

Section FatalIsLast.

Variable w : World.

Lemma pageLoop_fatal (tot : Z) (k : nat) :
  forall (n count : Z) (tr tr' : trace) (e : event),
    pageLoop w tot k n count tr = (tr', Abort (Fatal e)) ->
    fails w (tr' ++ [e]) = true.
Proof.
  induction k as [|k IH]; intros n count tr tr' e E.
  - discriminate E.
  - destruct (pageLoop_step w tot k n count tr _ E)
      as [(mid & E' & _) | (mid & a & j & E' & _ & _ & _ & _ & _ & Hfl)].
    + symmetry in E'. eapply IH. exact E'.
    + injection E' as -> <-. apply Hfl. reflexivity.
Qed.

Lemma processChunk_fatal (tot start end_ cnt : Z) (tr tr' : trace)
    (e : event) :
  processChunk w start end_ cnt tot tr = (tr', Abort (Fatal e)) ->
  fails w (tr' ++ [e]) = true.
Proof.
  intros E. unfold processChunk in E.
  unfold bind at 1, emit at 1 in E. unfold bind at 1 in E.
  destruct (checked_cases w EvNew (tr ++ [EvChunk start end_]))
    as [H|[Hf H]]; rewrite H in E; clear H.
  2:{ injection E as <- <-. assumption. }
  unfold deferClose, bind at 1 in E.
  destruct (pageLoop w tot (Z.to_nat (end_ - start)) start cnt
              ((tr ++ [EvChunk start end_]) ++ [EvNew]))
    as [tr1 [count|[e1|]]] eqn:EL.
  - unfold bind at 1 in E.
    match type of E with context [logProgressM tot ?c ?t] =>
      destruct (logProgressM_cases tot c t) as [(line & _ & H)|[_ H]];
      rewrite H in E; clear H
    end; discriminate E.
  - injection E as <- <-. eapply pageLoop_fatal. exact EL.
  - discriminate E.
Qed.

Lemma chunkLoop_fatal (C total tot : Z) (fuel : nat) :
  forall (remPages curStart curEnd count : Z) (tr tr' : trace) (e : event),
    chunkLoop w C total tot fuel remPages curStart curEnd count tr
    = Some (tr', Abort (Fatal e)) ->
    fails w (tr' ++ [e]) = true.
Proof.
  induction fuel as [|fuel IH];
    intros remPages curStart curEnd count tr tr' e E;
    cbn [chunkLoop] in E; destruct (remPages >? 0); try discriminate E.
  destruct (processChunk w curStart curEnd count tot tr)
    as [tr1 [count'|why]] eqn:EP.
  - unfold intMinM in E. rewrite intMin_2 in E. unfold ret in E.
    eapply IH. exact E.
  - injection E as <- ->. eapply processChunk_fatal. exact EP.
Qed.

End FatalIsLast.

(** ** [main] *)

Section Main.

Variable w : World.
Variables startPgF endPgF chunkSizeF : Z.

Local Abbreviation total := (NumPage w).
Local Abbreviation sp := (startPage startPgF endPgF).
Local Abbreviation ep := (endPage endPgF total).

Hypothesis Hs : GoInt.in_range startPgF.
Hypothesis Htotal : 0 <= total <= GoInt.max_int.

Lemma sp_range : 0 <= sp <= GoInt.max_int.
Proof.
  destruct (startPage_cases startPgF endPgF Hs) as [(? & ? & ->)|[_ ->]];
    int_bounds; lia.
Qed.

Lemma ep_range : 0 <= ep <= total.
Proof. apply endPage_bounds. lia. Qed.

Local Abbreviation curEnd0 := (firstEnd chunkSizeF total sp ep).

Lemma setup_cases :
  (fails w [EvNew] = true /\
   setup w startPgF endPgF chunkSizeF [] = ([], Abort (Fatal EvNew))) \/
  (fails w [EvNew] = false /\
   setup w startPgF endPgF chunkSizeF [] =
   ([EvNew; EvClose], Ok (ep - sp, sp, curEnd0, ep - sp))).
Proof.
  pose proof sp_range as Hsp. pose proof ep_range as Hep.
  unfold setup, intMinM. rewrite intMin_3.
  unfold bind, checked, emit, ret. cbn [app].
  rewrite (sub_small ep sp) by (int_bounds; lia).
  destruct (fails w [EvNew]); [left|right]; split; reflexivity.
Qed.

Lemma main_unfold (fuel : nat) :
  fails w [EvNew] = false ->
  main w fuel startPgF endPgF chunkSizeF =
  chunkLoop w chunkSizeF total (ep - sp) fuel (ep - sp) sp curEnd0 0
    [EvNew; EvClose].
Proof.
  intros Hok. unfold main.
  destruct setup_cases as [[Hf _]|[_ ->]]; [congruence | reflexivity].
Qed.

Lemma main_open_fails (fuel : nat) :
  fails w [EvNew] = true ->
  main w fuel startPgF endPgF chunkSizeF = Some ([], Abort (Fatal EvNew)).
Proof.
  intros Hf. unfold main.
  destruct setup_cases as [[_ ->]|[Hok _]]; [reflexivity | congruence].
Qed.

(** C8: when the resolved range is empty ([endPage <= startPage], which
    includes every document without pages), the run hands no chunk to
    [processChunk], renders no page, creates and encodes no file, never
    calls the progress renderer, and ends successfully. *)
Theorem empty_range_run (fuel : nat) :
  fails w [EvNew] = false ->
  ep <= sp \/ total = 0 ->
  exists tr,
    main w fuel startPgF endPgF chunkSizeF = Some (tr, Ok 0) /\
    exitStatus (Ok 0) = 0 /\
    chunksOf tr = [] /\ renderedOf tr = [] /\ createdOf tr = [] /\
    encodedOf tr = [] /\ progressOf tr = [].
Proof.
  intros Hopen Hempty. pose proof sp_range as Hsp. pose proof ep_range as Hep.
  exists [EvNew; EvClose]. split; [|repeat split].
  rewrite main_unfold by assumption.
  destruct fuel; cbn [chunkLoop];
    destruct (Z.gtb_spec (ep - sp) 0); try reflexivity; lia.
Qed.

Hypothesis HC : 0 < chunkSizeF <= GoInt.max_int.

Lemma loopInv_init :
  loopInv chunkSizeF total sp ep [EvNew; EvClose] (ep - sp) sp curEnd0 0.
Proof.
  pose proof sp_range as Hsp. pose proof ep_range as Hep.
  exists 0%nat. splits; try lia.
  - repeat split.
  - intros Hpos. unfold firstEnd.
    rewrite (add_small sp (ep - sp)) by (int_bounds; lia).
    splits; try lia.
    + intros Hle. rewrite add_small by (int_bounds; lia). lia.
    + intros Hgt. rewrite wrap_above_add by (int_bounds; lia).
      int_bounds. lia.
Qed.


(** C10 (amended): with a positive chunk size, every page index given to
    the renderer, also by a call that fails, is in [0, totalPages). *)
Theorem rendered_in_range (fuel : nat) (tr : trace) (r : result Z) :
  main w fuel startPgF endPgF chunkSizeF = Some (tr, r) ->
  (forall n, In n (renderedOf tr) -> 0 <= n < total) /\
  (forall n, r = Abort (Fatal (EvImage n)) -> 0 <= n < total).
Proof.
  intros E. pose proof sp_range as Hsp. pose proof ep_range as Hep.
  destruct (fails w [EvNew]) eqn:Hopen.
  - rewrite main_open_fails in E by assumption. injection E as <- <-.
    split; [intros n [] | intros n [=]].
  - rewrite main_unfold in E by assumption.
    destruct (chunkLoop_spec w chunkSizeF sp ep (ep - sp) HC Htotal Hsp Hep
                fuel _ _ _ _ _ _ _ loopInv_init E)
      as (j & Hst & Hj & Hfatal & _).
    destruct r as [c|[e|]]; cbn [pagesState] in Hst.
    + destruct Hst as (Hr & _). rewrite Hr. split; [|intros n [=]].
      intros n Hn. apply seqZ_In in Hn. lia.
    + assert (Hlt : e <> EvNew -> sp + Z.of_nat j < total)
        by (apply Hfatal; reflexivity).
      destruct e; try contradiction.
      * destruct Hst as (Hr & _). rewrite Hr. split; [|intros n [=]].
        intros n Hn. apply seqZ_In in Hn. lia.
      * destruct Hst as (-> & Hr & _). rewrite Hr.
        specialize (Hlt ltac:(discriminate)). split.
        -- intros m Hm. apply seqZ_In in Hm. lia.
        -- intros m [= <-]. lia.
      * destruct Hst as (-> & _ & Hr & _). rewrite Hr.
        specialize (Hlt ltac:(discriminate)). split; [|intros m [=]].
        intros m Hm. apply seqZ_In in Hm. lia.
      * destruct Hst as (-> & _ & Hr & _). rewrite Hr.
        specialize (Hlt ltac:(discriminate)). split; [|intros m [=]].
        intros m Hm. apply seqZ_In in Hm. lia.
    + destruct Hst as (Hr & _). rewrite Hr. split; [|intros n [=]].
      intros n Hn. apply seqZ_In in Hn. lia.
Qed.

(** C4 (amended): with a positive chunk size the chunk loop ends, for every
    flags and every document: there is one result that [main] reaches with
    any fuel of at least one turn per requested page.  It runs at most one
    chunk per requested page, and every chunk it runs holds at least one
    page, unless the chunk's start plus the chunk size exceeds the largest
    [int]. *)
Theorem chunk_loop_terminates :
  exists (tr : trace) (r : result Z),
    (forall fuel, (Z.to_nat (ep - sp) <= fuel)%nat ->
                  main w fuel startPgF endPgF chunkSizeF = Some (tr, r)) /\
    (List.length (chunksOf tr) <= Z.to_nat (ep - sp))%nat /\
    (forall a b, In (a, b) (chunksOf tr) ->
                 a + chunkSizeF <= GoInt.max_int -> a < b).
Proof.
  pose proof sp_range as Hsp. pose proof ep_range as Hep.
  destruct (fails w [EvNew]) eqn:Hopen.
  - exists [], (Abort (Fatal EvNew)). splits.
    + intros fuel _. apply main_open_fails. assumption.
    + cbn. lia.
    + intros a b [].
  - destruct (chunkLoop_terminates w chunkSizeF sp ep (ep - sp) HC Htotal Hsp
                Hep (Z.to_nat (ep - sp)) _ _ _ _ _ loopInv_init ltac:(lia))
      as ([tr r] & E).
    exists tr, r.
    destruct (chunkLoop_spec w chunkSizeF sp ep (ep - sp) HC Htotal Hsp Hep
                _ _ _ _ _ _ _ _ loopInv_init E)
      as (j & _ & _ & _ & _ & Hin & Hlen).
    splits.
    + intros fuel Hfuel. rewrite main_unfold by assumption.
      replace fuel with (Z.to_nat (ep - sp) + (fuel - Z.to_nat (ep - sp)))%nat
        by lia.
      apply chunkLoop_fuel_mono. assumption.
    + cbn in Hlen. lia.
    + intros a b Hab Hfit. destruct (Hin a b Hab) as [[]|(_ & _ & Hne)].
      specialize (Hne Hfit). lia.
Qed.

End Main.

Lemma empty_range_run_witness :
  exists tr,
    main (calm 3) 0 5 7 3 = Some (tr, Ok 0) /\
    exitStatus (Ok 0) = 0 /\
    chunksOf tr = [] /\ renderedOf tr = [] /\ createdOf tr = [] /\
    encodedOf tr = [] /\ progressOf tr = [].
Proof.
  apply (empty_range_run (calm 3) 5 7 3).
  - int_bounds. lia.
  - cbn. int_bounds. lia.
  - reflexivity.
  - left. vm_compute. discriminate.
Defined.

Lemma rendered_in_range_witness :
  exists tr r,
    main (calm 7) 3 0 (-1) 3 = Some (tr, r) /\
    (forall n, In n (renderedOf tr) -> 0 <= n < 7) /\
    (forall n, r = Abort (Fatal (EvImage n)) -> 0 <= n < 7).
Proof.
  eexists. eexists. split; [vm_compute; reflexivity|].
  apply (rendered_in_range (calm 7) 0 (-1) 3) with (fuel := 3%nat).
  - int_bounds. lia.
  - cbn. int_bounds. lia.
  - int_bounds. lia.
  - vm_compute. reflexivity.
Defined.

Lemma chunk_loop_terminates_witness :
  exists (tr : trace) (r : result Z),
    (forall fuel, (Z.to_nat (endPage (-1) 7 - startPage 0 (-1)) <= fuel)%nat ->
                  main (calm 7) fuel 0 (-1) 3 = Some (tr, r)) /\
    (List.length (chunksOf tr)
     <= Z.to_nat (endPage (-1) 7 - startPage 0 (-1)))%nat /\
    (forall a b, In (a, b) (chunksOf tr) -> a + 3 <= GoInt.max_int -> a < b).
Proof.
  apply (chunk_loop_terminates (calm 7) 0 (-1) 3).
  - int_bounds. lia.
  - cbn. int_bounds. lia.
  - int_bounds. lia.
Defined.

(** ** A failed call ends the run at once *)
















(** *** The files when the run stops *)






















(** C1 fails on the code: with [-e 5 -c 3] on a document of 10 pages the
    resolved range is [0, 5), but the second chunk is [3, 6): page index 5
    is rendered and written as 006.jpg, and the run then panics in
    [logProgress]. *)
Lemma chunk_overshoot :
  exists tr,
    main (calm 10) 2 0 5 3 = Some (tr, Abort Panicked) /\
    startPage 0 5 = 0 /\ endPage 5 10 = 5 /\
    chunksOf tr = [(0, 3); (3, 6)] /\
    renderedOf tr = [0; 1; 2; 3; 4; 5] /\
    createdOf tr = ["001.jpg"; "002.jpg"; "003.jpg"; "004.jpg"; "005.jpg";
                    "006.jpg"]%string.
Proof.
  eexists. split; [vm_compute; reflexivity|]. repeat split.
Qed.

(** C4, as stated, fails: with [-s 4 -e 8 -c 9223372036854775806] on a
    document of 10 pages, five pages remain when the loop starts, but
    [startPage + chunkSize] exceeds the largest [int]: the end of the chunk
    wraps around below its start, the one turn of the loop processes no
    page, and the run ends normally with the counter at 0. *)
Lemma empty_chunk_counterexample :
  exists tr,
    main (calm 10) 1 4 8 9223372036854775806 = Some (tr, Ok 0) /\
    startPage 4 8 = 3 /\ endPage 8 10 = 8 /\
    chunksOf tr = [(3, -9223372036854775807)] /\
    renderedOf tr = [].
Proof.
  eexists. split; [vm_compute; reflexivity|]. repeat split.
Qed.

(** The page loop when the encoder fails on its first page. *)
Lemma pageLoop_encoder_fails (w : World) (tot : Z) (k : nat) (n count : Z)
    (tr : trace) :
  (0 < k)%nat ->
  fails w (tr ++ [EvImage n]) = false ->
  fails w ((tr ++ [EvImage n]) ++ [EvCreate n (fileName n)]) = false ->
  fails w (((tr ++ [EvImage n]) ++ [EvCreate n (fileName n)])
           ++ [EvEncode n (fileName n)]) = true ->
  pageLoop w tot k n count tr
  = ((tr ++ [EvImage n]) ++ [EvCreate n (fileName n)],
     Abort (Fatal (EvEncode n (fileName n)))).
Proof.
  intros Hk H1 H2 H3. destruct k as [|k]; [lia|].
  cbn [pageLoop]. unfold bind, checked. rewrite H1, H2, H3. reflexivity.
Qed.

(** C10, as stated, fails: the chunk size is not validated.  With
    [-c -4611686018427387905] on a document of 10 pages the first chunk is
    [(0, -4611686018427387905)], which holds no page, and the second one
    starts at its end: [doc.Image] is called with the page index
    -4611686018427387905.  (The world is the one in which the encoder fails,
    so that the run ends at this page.) *)
Lemma negative_chunk_counterexample :
  exists tr name,
    main (encoderDown 10) 2 0 (-1) (-4611686018427387905)
    = Some (tr, Abort (Fatal (EvEncode (-4611686018427387905) name))) /\
    chunksOf tr = [(0, -4611686018427387905); (-4611686018427387905, 10)] /\
    renderedOf tr = [-4611686018427387905] /\
    ~ (0 <= -4611686018427387905 < NumPage (encoderDown 10)).
Proof.
  eexists. eexists.
  split.
  - unfold main.
    assert (Hs : setup (encoderDown 10) 0 (-1) (-4611686018427387905) []
                 = ([EvNew; EvClose],
                    Ok (10, 0, -4611686018427387905, 10)))
      by (vm_compute; reflexivity).
    rewrite Hs. cbn [chunkLoop].
    change (10 >? 0) with true. cbv iota.
    match goal with |- context [processChunk ?w ?a ?b ?c ?t ?tr] =>
      let v := eval vm_compute in (processChunk w a b c t tr) in
      change (processChunk w a b c t tr) with v
    end.
    cbv iota beta.
    match goal with |- context [intMinM ?l ?tr] =>
      let v := eval vm_compute in (intMinM l tr) in
      change (intMinM l tr) with v
    end.
    cbv iota beta.
    match goal with |- context [GoInt.sub ?a ?b >? 0] =>
      let v := eval vm_compute in (GoInt.sub a b >? 0) in
      change (GoInt.sub a b >? 0) with v
    end.
    cbv iota.
    unfold processChunk. unfold bind at 1, emit at 1. unfold bind at 1.
    unfold checked at 1.
    match goal with |- context [fails ?w ?t] =>
      change (fails w t) with false
    end.
    cbv iota. unfold deferClose, bind at 1.
    rewrite pageLoop_encoder_fails; [reflexivity | lia | reflexivity ..].
  - repeat split. cbn. lia.
Qed.

(** ** Floating point: the two roundings of [logProgress] *)

Lemma digits2_log2 (p : positive) :
  Z.pos (digits2_pos p) = Z.log2 (Z.pos p) + 1.
Proof.
  assert (H : forall q, digits2_pos q = Pos.size q)
    by (induction q; cbn; congruence).
  rewrite H. destruct p; cbn; lia.
Qed.

Lemma digits2_bounds (p : positive) :
  2 ^ (Z.pos (digits2_pos p) - 1) <= Z.pos p < 2 ^ Z.pos (digits2_pos p).
Proof.
  rewrite digits2_log2.
  replace (Z.log2 (Z.pos p) + 1 - 1) with (Z.log2 (Z.pos p)) by lia.
  apply Z.log2_spec. lia.
Qed.

Lemma digits2_unique (p : positive) (d : Z) :
  2 ^ (d - 1) <= Z.pos p < 2 ^ d -> Z.pos (digits2_pos p) = d.
Proof.
  intros H. rewrite digits2_log2.
  assert (0 < d).
  { destruct (Z.ltb_spec 0 d); [assumption|].
    destruct H as [_ H]. destruct d; try lia.
    rewrite Z.pow_neg_r in H by lia. lia. }
  rewrite (Z.log2_unique (Z.pos p) (d - 1)); try lia.
  replace (Z.succ (d - 1)) with d by lia. assumption.
Qed.

(** [iter_pos] as an iteration over [nat]. *)
Lemma iter_pos_nat {A : Type} (f : A -> A) (p : positive) (x : A) :
  iter_pos f p x = Nat.iter (Pos.to_nat p) f x.
Proof.
  revert x. induction p as [p IH|p IH|]; intros x; cbn [iter_pos].
  - rewrite !IH. rewrite Pos2Nat.inj_xI.
    replace (S (2 * Pos.to_nat p)) with (Pos.to_nat p + (Pos.to_nat p + 1))%nat by lia.
    rewrite !Nat.iter_add. reflexivity.
  - rewrite !IH. rewrite Pos2Nat.inj_xO.
    replace (2 * Pos.to_nat p)%nat with (Pos.to_nat p + Pos.to_nat p)%nat by lia.
    rewrite Nat.iter_add. reflexivity.
  - reflexivity.
Qed.

Lemma new_location_locOf (D r : Z) :
  0 < D -> 0 <= r < D -> new_location D r = locOf r D.
Proof.
  intros HD Hr. unfold new_location, new_location_even, new_location_odd, locOf.
  destruct (Z.even D) eqn:Hev; [reflexivity|].
  destruct (r =? 0); [reflexivity|]. f_equal.
  assert (Hodd : Z.odd D = true) by (rewrite <- Z.negb_even, Hev; reflexivity).
  apply Z.odd_spec in Hodd. destruct Hodd as [k Hk].
  destruct (Z.compare_spec (2 * r + 1) D); destruct (Z.compare_spec (2 * r) D);
    try reflexivity; lia.
Qed.

Lemma locOf_scale (j r D : Z) : 0 < j -> locOf (j * r) (j * D) = locOf r D.
Proof.
  intros Hj. unfold locOf.
  destruct (Z.eqb_spec r 0) as [->|Hr].
  - rewrite Z.mul_0_r. reflexivity.
  - destruct (Z.eqb_spec (j * r) 0) as [H0|_]; [nia|]. f_equal.
    destruct (Z.compare_spec (2 * r) D);
      destruct (Z.compare_spec (2 * (j * r)) (j * D)); try reflexivity; nia.
Qed.

Lemma qrec_scale (j N D : Z) :
  0 < j -> 0 < D -> qrec (j * N) (j * D) = qrec N D.
Proof.
  intros Hj HD. unfold qrec.
  rewrite Z.div_mul_cancel_l by lia.
  rewrite Z.mul_mod_distr_l by lia.
  rewrite locOf_scale by lia. reflexivity.
Qed.

Lemma shr_1_spec (q : Z) (rb sb : bool) :
  0 <= q ->
  shr_1 (Build_shr_record q rb sb) =
  Build_shr_record (q / 2) (q mod 2 =? 1) (rb || sb).
Proof.
  intros Hq. unfold shr_1.
  destruct q as [|p|p]; try lia.
  - reflexivity.
  - destruct p as [p|p|].
    + replace (Z.pos p~1 / 2) with (Z.pos p)
        by (apply (Z.div_unique _ 2 _ 1); lia).
      replace (Z.pos p~1 mod 2) with 1
        by (apply (Z.mod_unique _ 2 (Z.pos p) 1); lia).
      reflexivity.
    + replace (Z.pos p~0 / 2) with (Z.pos p)
        by (apply (Z.div_unique _ 2 _ 0); lia).
      replace (Z.pos p~0 mod 2) with 0
        by (apply (Z.mod_unique _ 2 (Z.pos p) 0); lia).
      reflexivity.
    + reflexivity.
Qed.

Lemma shr_1_qrec (N D : Z) :
  0 <= N -> 0 < D -> shr_1 (qrec N D) = qrec N (D * 2).
Proof.
  intros HN HD. unfold qrec.
  rewrite <- Z.div_div by lia.
  rewrite Z.rem_mul_r by lia.
  set (q := N / D). set (r := N mod D).
  assert (Hq : 0 <= q) by (apply Z.div_pos; lia).
  assert (Hr : 0 <= r < D) by (apply Z.mod_pos_bound; lia).
  assert (Hb : q mod 2 = 0 \/ q mod 2 = 1)
    by (pose proof (Z.mod_pos_bound q 2); lia).
  unfold locOf at 1.
  destruct (Z.eqb_spec r 0) as [Hr0|Hr0].
  - cbn [shr_record_of_loc]. rewrite shr_1_spec by assumption.
    destruct Hb as [Hb|Hb]; rewrite Hb; cbn [Z.eqb orb]; unfold locOf.
    + replace (r + D * 0) with 0 by lia. reflexivity.
    + destruct (Z.eqb_spec (r + D * 1) 0); [lia|].
      replace (2 * (r + D * 1) ?= D * 2) with Eq
        by (symmetry; apply Z.compare_eq_iff; lia).
      reflexivity.
  - assert (Hs : forall c, exists rb sb,
               shr_record_of_loc q (loc_Inexact c) = Build_shr_record q rb sb
               /\ rb || sb = true).
    { intros []; cbn; eauto. }
    destruct (Hs (2 * r ?= D)) as (rb & sb & -> & Hor).
    rewrite shr_1_spec by assumption. rewrite Hor.
    destruct Hb as [Hb|Hb]; rewrite Hb; cbn [Z.eqb]; unfold locOf.
    + replace (r + D * 0) with r by lia.
      destruct (Z.eqb_spec r 0); [lia|].
      replace (2 * r ?= D * 2) with Lt
        by (symmetry; apply Z.compare_lt_iff; lia).
      reflexivity.
    + destruct (Z.eqb_spec (r + D * 1) 0); [lia|].
      replace (2 * (r + D * 1) ?= D * 2) with Gt
        by (symmetry; apply Z.compare_gt_iff; lia).
      reflexivity.
Qed.

Lemma iter_shr_1_qrec (k : nat) (N D : Z) :
  0 <= N -> 0 < D ->
  Nat.iter k shr_1 (qrec N D) = qrec N (D * 2 ^ Z.of_nat k).
Proof.
  intros HN HD. induction k as [|k IH].
  - cbn. rewrite Z.mul_1_r. reflexivity.
  - change (Nat.iter (S k) shr_1 (qrec N D))
      with (shr_1 (Nat.iter k shr_1 (qrec N D))).
    rewrite IH. rewrite shr_1_qrec by lia.
    rewrite Nat2Z.inj_succ, Z.pow_succ_r by lia.
    f_equal. lia.
Qed.

Lemma shr_qrec (N D e n : Z) :
  0 <= N -> 0 < D -> 0 <= n ->
  shr (qrec N D) e n = (qrec N (D * 2 ^ n), e + n).
Proof.
  intros HN HD Hn. unfold shr. destruct n as [|p|p]; try lia.
  - rewrite Z.mul_1_r, Z.add_0_r. reflexivity.
  - rewrite iter_pos_nat, iter_shr_1_qrec by lia.
    rewrite positive_nat_Z. reflexivity.
Qed.

Lemma shr_m_of_loc (m : Z) (l : location) : shr_m (shr_record_of_loc m l) = m.
Proof. destruct l as [|[]]; reflexivity. Qed.

Lemma loc_of_shr_of_loc (m : Z) (l : location) :
  loc_of_shr_record (shr_record_of_loc m l) = l.
Proof. destruct l as [|[]]; reflexivity. Qed.

Lemma Zdigits2_unique (q d : Z) :
  2 ^ (d - 1) <= q < 2 ^ d -> 0 < q -> Zdigits2 q = d.
Proof.
  intros H Hq. destruct q as [|p|p]; try lia.
  cbn [Zdigits2]. apply digits2_unique. assumption.
Qed.

Lemma fexp_normal (x : Z) : -1021 <= x -> fexp Float64.prec Float64.emax x = x - 53.
Proof. intros H. unfold fexp, emin, Float64.prec, Float64.emax. lia. Qed.

Lemma pow2_pos (n : Z) : 0 <= n -> 0 < 2 ^ n.
Proof. intros. apply Z.pow_pos_nonneg; lia. Qed.

Lemma quotient_bounds (N D lo hi : Z) :
  0 < D -> lo * D <= N < hi * D -> lo <= N / D < hi.
Proof.
  intros HD [H1 H2]. split.
  - apply Z.div_le_lower_bound; lia.
  - apply Z.div_lt_upper_bound; lia.
Qed.

(** First stage of [binary_round_aux]: the truncation to 53 bits. *)
Lemma shr_fexp_qrec (N D e n : Z) :
  0 < D -> 0 <= n ->
  2 ^ (52 + n) * D <= N < 2 ^ (53 + n) * D ->
  -1074 <= e + n ->
  shr_fexp Float64.prec Float64.emax (N / D) e (locOf (N mod D) D)
  = (qrec N (D * 2 ^ n), e + n).
Proof.
  intros HD Hn HN He.
  pose proof (pow2_pos (52 + n) ltac:(lia)) as Hp.
  assert (Hq : 2 ^ (52 + n) <= N / D < 2 ^ (53 + n))
    by (apply quotient_bounds; assumption).
  unfold shr_fexp.
  rewrite (Zdigits2_unique (N / D) (53 + n)); try lia.
  2:{ replace (53 + n - 1) with (52 + n) by lia. assumption. }
  rewrite fexp_normal by lia.
  replace (53 + n + e - 53 - e) with n by lia.
  change (shr_record_of_loc (N / D) (locOf (N mod D) D)) with (qrec N D).
  apply shr_qrec; nia.
Qed.

Lemma rne_bounds (N D : Z) :
  0 < D -> 0 <= N ->
  N / D <= rne N D <= N / D + 1 /\
  2 * N - D <= 2 * (rne N D * D) <= 2 * N + D /\
  (N mod D = 0 -> rne N D = N / D).
Proof.
  intros HD HN. unfold rne, locOf.
  pose proof (Z.div_mod N D ltac:(lia)) as Hdm.
  pose proof (Z.mod_pos_bound N D HD) as Hr.
  set (q := N / D) in *. set (r := N mod D) in *.
  destruct (Z.eqb_spec r 0) as [Hr0|Hr0]; cbn [round_nearest_even].
  - split; [lia|]. split; [nia|reflexivity].
  - destruct (Z.compare_spec (2 * r) D).
    + destruct (Z.even q); split; try lia; split; try nia; intros; lia.
    + split; [lia|]. split; [nia|intros; lia].
    + split; [lia|]. split; [nia|intros; lia].
Qed.

(** [binary_round_aux] on a quotient, after the truncation to 53 bits. *)
Lemma roundQ_norm (N D e n : Z) :
  0 < D -> 0 <= n ->
  2 ^ (52 + n) * D <= N < 2 ^ (53 + n) * D ->
  -1074 <= e + n -> e + n + 1 <= 971 ->
  roundQ N D e = rfloat (rne N (D * 2 ^ n)) (e + n).
Proof.
  intros HD Hn HN He1 He2.
  pose proof (pow2_pos n Hn) as Hpn.
  unfold roundQ, binary_round_aux.
  rewrite (shr_fexp_qrec N D e n) by assumption.
  unfold qrec at 1 2. rewrite shr_m_of_loc, loc_of_shr_of_loc.
  fold (rne N (D * 2 ^ n)).
  assert (HN' : 2 ^ 52 * (D * 2 ^ n) <= N < 2 ^ 53 * (D * 2 ^ n)).
  { rewrite !Z.pow_add_r in HN by lia. lia. }
  assert (HD' : 0 < D * 2 ^ n) by nia.
  assert (HN0 : 0 <= N) by nia.
  destruct (rne_bounds N (D * 2 ^ n) HD' HN0) as (Hb & _ & _).
  pose proof (quotient_bounds N (D * 2 ^ n) (2 ^ 52) (2 ^ 53) HD' HN') as Hq.
  set (m := rne N (D * 2 ^ n)) in *.
  set (e' := e + n) in *.
  (* second stage *)
  assert (Hm1 : m = m / 1) by (rewrite Z.div_1_r; reflexivity).
  assert (Hm2 : loc_Exact = locOf (m mod 1) 1)
    by (rewrite Z.mod_1_r; reflexivity).
  rewrite Hm1 at 1. rewrite Hm2.
  unfold rfloat.
  destruct (Z.ltb_spec m (2 ^ 53)) as [Hlt|Hge].
  - rewrite (shr_fexp_qrec m 1 e' 0); try lia.
    unfold qrec. rewrite shr_m_of_loc.
    change (1 * 2 ^ 0) with 1. rewrite Z.div_1_r, Z.add_0_r.
    destruct m as [|p|p]; try lia.
    unfold Float64.emax, Float64.prec.
    destruct (Z.leb_spec e' (1024 - 53)); [reflexivity|lia].
  - assert (Hm : m = 2 ^ 53) by lia.
    rewrite (shr_fexp_qrec m 1 e' 1); try lia.
    unfold qrec. rewrite shr_m_of_loc. rewrite Hm.
    change (2 ^ 53 / (1 * 2 ^ 1)) with (2 ^ 52).
    change (2 ^ 52) with 4503599627370496.
    cbn [Z.to_pos].
    unfold Float64.emax, Float64.prec.
    destruct (Z.leb_spec (e' + 1) (1024 - 53)); [reflexivity|lia].
Qed.

Lemma roundQ_exact (M e : Z) :
  binary_round_aux Float64.prec Float64.emax false M e loc_Exact = roundQ M 1 e.
Proof. unfold roundQ. rewrite Z.div_1_r, Z.mod_1_r. reflexivity. Qed.

Lemma rne_exact (N : Z) : rne N 1 = N.
Proof. unfold rne. rewrite Z.div_1_r, Z.mod_1_r. reflexivity. Qed.

Lemma pos_iter_xO (p k : positive) :
  Z.pos (Pos.iter xO p k) = Z.pos p * 2 ^ Z.pos k.
Proof.
  induction k as [|k IH] using Pos.peano_ind.
  - cbn. lia.
  - rewrite Pos.iter_succ, Pos2Z.inj_xO, IH, Pos2Z.inj_succ, Z.pow_succ_r
      by lia. lia.
Qed.

Lemma shl_align_spec (p : positive) (e e' : Z) :
  e' <= e ->
  exists m', shl_align p e e' = (m', e') /\ Z.pos m' = Z.pos p * 2 ^ (e - e').
Proof.
  intros Hle. unfold shl_align.
  destruct (e' - e) as [|d|d] eqn:Hd; try lia.
  - exists p. assert (e' = e) by lia. subst e'. rewrite Z.sub_diag.
    split; [reflexivity|lia].
  - exists (Pos.iter xO p d). split; [reflexivity|].
    rewrite pos_iter_xO. f_equal. f_equal. lia.
Qed.

(** [float64(n)] is exact below 2^53. *)
Lemma of_int_spec (n k : Z) :
  0 <= k -> 2 ^ 52 <= n * 2 ^ k < 2 ^ 53 ->
  Float64.of_int n = S754_finite false (Z.to_pos (n * 2 ^ k)) (- k).
Proof.
  intros Hk Hn.
  pose proof (pow2_pos k Hk) as Hpk.
  assert (Hn0 : 0 < n) by nia.
  assert (Hk52 : k <= 52).
  { destruct (Z.le_gt_cases k 52); [assumption|].
    assert (2 ^ 53 <= 2 ^ k) by (apply Z.pow_le_mono_r; lia). nia. }
  destruct n as [|p|p]; try lia.
  unfold Float64.of_int, binary_normalize, binary_round.
  assert (Hd : Z.pos (digits2_pos p) = 53 - k).
  { apply digits2_unique.
    assert (E1 : 2 ^ 52 = 2 ^ (53 - k - 1) * 2 ^ k)
      by (rewrite <- Z.pow_add_r by lia; f_equal; lia).
    assert (E2 : 2 ^ 53 = 2 ^ (53 - k) * 2 ^ k)
      by (rewrite <- Z.pow_add_r by lia; f_equal; lia).
    rewrite E1, E2 in Hn. nia. }
  rewrite Hd. rewrite fexp_normal by lia.
  destruct (shl_align_spec p 0 (53 - k + 0 - 53) ltac:(lia))
    as (m' & -> & Hm').
  replace (0 - (53 - k + 0 - 53)) with k in Hm' by lia.
  rewrite roundQ_exact. rewrite Hm'.
  rewrite (roundQ_norm _ 1 _ 0); try lia.
  change (1 * 2 ^ 0) with 1. rewrite rne_exact.
  unfold rfloat. destruct (Z.ltb_spec (Z.pos p * 2 ^ k) (2 ^ 53)); [|lia].
  f_equal. lia.
Qed.

Lemma of_int_zero : Float64.of_int 0 = S754_zero false.
Proof. reflexivity. Qed.

Lemma div_eucl_div_mod (a b : Z) : Z.div_eucl a b = (a / b, a mod b).
Proof. unfold Z.div, Z.modulo. destruct (Z.div_eucl a b). reflexivity. Qed.

(** Division of two floats with 53-bit mantissas. *)
Lemma div_spec (m1 m2 : positive) (e1 e2 : Z) :
  2 ^ 52 <= Z.pos m1 < 2 ^ 53 ->
  2 ^ 52 <= Z.pos m2 < 2 ^ 53 ->
  -1021 <= e1 - e2 ->
  Float64.div (S754_finite false m1 e1) (S754_finite false m2 e2)
  = roundQ (Z.pos m1 * 2 ^ 53) (Z.pos m2) (e1 - e2 - 53).
Proof.
  intros H1 H2 He.
  unfold Float64.div, SFdiv, SFdiv_core_binary.
  rewrite (Zdigits2_unique (Z.pos m1) 53) by (change (53 - 1) with 52; lia).
  rewrite (Zdigits2_unique (Z.pos m2) 53) by (change (53 - 1) with 52; lia).
  replace (53 + e1 - (53 + e2)) with (e1 - e2) by lia.
  rewrite fexp_normal by lia.
  rewrite Z.min_l by lia.
  replace (e1 - e2 - (e1 - e2 - 53)) with 53 by lia.
  rewrite Z.shiftl_mul_pow2 by lia.
  rewrite div_eucl_div_mod.
  rewrite new_location_locOf; [reflexivity | lia |].
  apply Z.mod_pos_bound. lia.
Qed.

Lemma mul_spec (m1 m2 : positive) (e1 e2 : Z) :
  Float64.mul (S754_finite false m1 e1) (S754_finite false m2 e2)
  = roundQ (Z.pos m1 * Z.pos m2) 1 (e1 + e2).
Proof.
  unfold Float64.mul, SFmul. cbn [xorb]. rewrite roundQ_exact.
  reflexivity.
Qed.

(** The rounding does not depend on the fraction that represents the
    value. *)
Lemma roundQ_scale (j N D e : Z) :
  0 < j -> 0 < D -> roundQ (j * N) (j * D) e = roundQ N D e.
Proof.
  intros Hj HD. unfold roundQ.
  rewrite Z.div_mul_cancel_l by lia.
  rewrite Z.mul_mod_distr_l by lia.
  rewrite locOf_scale by lia. reflexivity.
Qed.

Lemma rne_scale (j N D : Z) :
  0 < j -> 0 < D -> rne (j * N) (j * D) = rne N D.
Proof.
  intros Hj HD. unfold rne.
  rewrite Z.div_mul_cancel_l by lia.
  rewrite Z.mul_mod_distr_l by lia.
  rewrite locOf_scale by lia. reflexivity.
Qed.

(** Every positive integer below 2^53 has a shift to 53 bits. *)
Lemma normal_shift (n : Z) :
  0 < n < 2 ^ 53 -> exists k, 0 <= k <= 52 /\ 2 ^ 52 <= n * 2 ^ k < 2 ^ 53.
Proof.
  intros Hn.
  destruct (Z.log2_spec n ltac:(lia)) as [Hl1 Hl2].
  pose proof (Z.log2_nonneg n) as Hl0.
  assert (Hl : Z.log2 n < 53).
  { apply Z.log2_lt_pow2; lia. }
  exists (52 - Z.log2 n). split; [lia|].
  assert (E1 : 2 ^ 52 = 2 ^ Z.log2 n * 2 ^ (52 - Z.log2 n))
    by (rewrite <- Z.pow_add_r by lia; f_equal; lia).
  assert (E2 : 2 ^ 53 = 2 ^ Z.succ (Z.log2 n) * 2 ^ (52 - Z.log2 n))
    by (rewrite <- Z.pow_add_r by lia; f_equal; lia).
  pose proof (pow2_pos (52 - Z.log2 n) ltac:(lia)).
  rewrite E1, E2. nia.
Qed.

Lemma pow2_split (a b : Z) : 0 <= a -> 0 <= b -> 2 ^ (a + b) = 2 ^ a * 2 ^ b.
Proof. intros. apply Z.pow_add_r; assumption. Qed.

(** The quotient of two integers: the correctly rounded value of c/t. *)
Lemma div_of_int (c t : Z) :
  0 < c < 2 ^ 53 -> 0 < t < 2 ^ 53 ->
  exists a, 0 <= a <= 105 /\
            2 ^ 52 * t <= c * 2 ^ a < 2 ^ 53 * t /\
            Float64.div (Float64.of_int c) (Float64.of_int t)
            = rfloat (rne (c * 2 ^ a) t) (- a).
Proof.
  intros Hc Ht.
  destruct (normal_shift c Hc) as (k1 & Hk1 & Hc1).
  destruct (normal_shift t Ht) as (k2 & Hk2 & Ht2).
  rewrite (of_int_spec c k1), (of_int_spec t k2) by lia.
  pose proof (pow2_pos k1 ltac:(lia)) as Hp1.
  pose proof (pow2_pos k2 ltac:(lia)) as Hp2.
  set (m1 := c * 2 ^ k1) in *. set (m2 := t * 2 ^ k2) in *.
  rewrite div_spec; rewrite ?Z2Pos.id; try lia.
  destruct (Z.lt_ge_cases (m1 * 2 ^ 53) (2 ^ 53 * m2)) as [Hlt|Hge].
  - (* the quotient has 53 bits *)
    exists (53 + k1 - k2).
    assert (E : m1 * 2 ^ 53 = 2 ^ k2 * (c * 2 ^ (53 + k1 - k2))).
    { unfold m1. replace (2 ^ 53) with (2 ^ k2 * 2 ^ (53 - k2))
        by (rewrite <- pow2_split by lia; f_equal; lia).
      replace (53 + k1 - k2) with (k1 + (53 - k2)) by lia.
      rewrite (pow2_split k1 (53 - k2)) by lia. ring. }
    split; [lia|]. split.
    + change (2 ^ 53) with 9007199254740992 in *.
      change (2 ^ 52) with 4503599627370496 in *.
      unfold m2 in *. nia.
    + rewrite (roundQ_norm _ _ _ 0); try lia.
      rewrite E. unfold m2. rewrite Z.pow_0_r, Z.mul_1_r.
      rewrite (Z.mul_comm t (2 ^ k2)), rne_scale by lia.
      f_equal. lia.
  - (* the quotient has 54 bits *)
    exists (52 + k1 - k2).
    assert (E : m1 * 2 ^ 53 = 2 ^ (k2 + 1) * (c * 2 ^ (52 + k1 - k2))).
    { unfold m1. replace (2 ^ 53) with (2 ^ (k2 + 1) * 2 ^ (52 - k2))
        by (rewrite <- pow2_split by lia; f_equal; lia).
      replace (52 + k1 - k2) with (k1 + (52 - k2)) by lia.
      rewrite (pow2_split k1 (52 - k2)) by lia. ring. }
    assert (E2 : m2 * 2 ^ 1 = 2 ^ (k2 + 1) * t).
    { unfold m2. rewrite pow2_split by lia. ring. }
    pose proof (pow2_pos (k2 + 1) ltac:(lia)) as Hp3.
    split; [lia|]. split.
    + change (2 ^ 53) with 9007199254740992 in *.
      change (2 ^ 52) with 4503599627370496 in *.
      change (2 ^ 1) with 2 in *.
      nia.
    + rewrite (roundQ_norm _ _ _ 1); try lia.
      rewrite E, E2. rewrite rne_scale by lia.
      f_equal. lia.
Qed.

Lemma rne_exact_div (q D : Z) : 0 < D -> 0 <= q -> rne (q * D) D = q.
Proof.
  intros HD Hq.
  destruct (rne_bounds (q * D) D HD ltac:(nia)) as (_ & _ & H).
  rewrite H by (apply Z.mod_mul; lia). apply Z.div_mul. lia.
Qed.

(** The product of an integer constant and a rounded value. *)
Lemma mul_const (w kw m e : Z) :
  0 <= kw <= 52 -> 2 ^ 52 <= w * 2 ^ kw < 2 ^ 53 ->
  2 ^ 52 <= m <= 2 ^ 53 ->
  -900 <= e <= 900 ->
  exists s, 0 <= s <= 53 /\
            2 ^ (52 + s) <= w * m < 2 ^ (53 + s) /\
            Float64.mul (Float64.of_int w) (rfloat m e)
            = rfloat (rne (w * m) (2 ^ s)) (e + s) /\
            Float64.mul (rfloat m e) (Float64.of_int w)
            = rfloat (rne (w * m) (2 ^ s)) (e + s).
Proof.
  intros Hkw Hw Hm He.
  pose proof (pow2_pos kw ltac:(lia)) as Hpk.
  assert (Hw0 : 0 < w) by nia.
  rewrite (of_int_spec w kw) by lia.
  set (mw := w * 2 ^ kw) in *.
  unfold rfloat at 1 3.
  destruct (Z.ltb_spec m (2 ^ 53)) as [Hlt|Hge].
  - rewrite !mul_spec. rewrite !Z2Pos.id by lia.
    rewrite (Z.mul_comm m mw), (Z.add_comm e (- kw)).
    assert (Hprod : 2 ^ 104 <= mw * m < 2 ^ 106).
    { change (2 ^ 104) with (2 ^ 52 * 2 ^ 52).
      change (2 ^ 106) with (2 ^ 53 * 2 ^ 53). nia. }
    assert (Hn : exists n, (n = 52 \/ n = 53) /\
                           2 ^ (52 + n) <= mw * m < 2 ^ (53 + n)).
    { destruct (Z.lt_ge_cases (mw * m) (2 ^ 105)).
      - exists 52. split; [auto|]. change (52 + 52) with 104.
        change (53 + 52) with 105. lia.
      - exists 53. split; [auto|]. change (52 + 53) with 105.
        change (53 + 53) with 106. lia. }
    destruct Hn as (n & Hn & Hb).
    exists (n - kw).
    assert (E1 : 2 ^ n = 2 ^ kw * 2 ^ (n - kw))
      by (rewrite <- pow2_split by lia; f_equal; lia).
    assert (E2 : mw * m = 2 ^ kw * (w * m)) by (unfold mw; ring).
    pose proof (pow2_pos (n - kw) ltac:(lia)) as Hps.
    assert (R : roundQ (mw * m) 1 (- kw + e)
                = rfloat (rne (w * m) (2 ^ (n - kw))) (e + (n - kw))).
    { rewrite (roundQ_norm _ 1 _ n); try lia.
      rewrite Z.mul_1_l, E1, E2, rne_scale by lia. f_equal. lia. }
    split; [lia|]. split; [|split; exact R].
    replace (52 + (n - kw)) with (52 + n - kw) by lia.
    replace (53 + (n - kw)) with (53 + n - kw) by lia.
    assert (E3 : 2 ^ (52 + n) = 2 ^ kw * 2 ^ (52 + n - kw))
      by (rewrite <- pow2_split by lia; f_equal; lia).
    assert (E4 : 2 ^ (53 + n) = 2 ^ kw * 2 ^ (53 + n - kw))
      by (rewrite <- pow2_split by lia; f_equal; lia).
    rewrite E3, E4, E2 in Hb. nia.
  - assert (Hm53 : m = 2 ^ 53) by lia. subst m.
    rewrite !mul_spec. rewrite !Z2Pos.id by lia.
    rewrite (Z.mul_comm (2 ^ 52) mw), (Z.add_comm (e + 1) (- kw)).
    exists (53 - kw).
    assert (E1 : 2 ^ 53 = 2 ^ kw * 2 ^ (53 - kw))
      by (rewrite <- pow2_split by lia; f_equal; lia).
    pose proof (pow2_pos (53 - kw) ltac:(lia)) as Hps.
    assert (E2 : w * 2 ^ 53 = mw * 2 ^ (53 - kw))
      by (rewrite E1; unfold mw; ring).
    assert (R : roundQ (mw * 2 ^ 52) 1 (- kw + (e + 1))
                = rfloat (rne (w * 2 ^ 53) (2 ^ (53 - kw))) (e + (53 - kw))).
    { rewrite (roundQ_norm _ 1 _ 52); try lia.
      rewrite Z.mul_1_l. rewrite rne_exact_div by lia.
      rewrite E2, rne_exact_div by lia. f_equal. lia. }
    split; [lia|]. split; [|split; exact R].
    replace (52 + (53 - kw)) with (52 + (53 - kw)) by lia.
    rewrite !pow2_split by lia. rewrite E2. nia.
Qed.

Lemma to_int_of_int (z : Z) :
  0 < z < 2 ^ 53 -> Float64.to_int (Float64.of_int z) = z.
Proof.
  intros Hz. destruct (normal_shift z Hz) as (k & Hk & Hb).
  rewrite (of_int_spec z k) by lia.
  pose proof (pow2_pos k ltac:(lia)) as Hpk.
  unfold Float64.to_int. rewrite Z2Pos.id by lia.
  rewrite Z.opp_involutive.
  assert (Hv : (if 0 <=? - k then z * 2 ^ k * 2 ^ (- k)
                else z * 2 ^ k / 2 ^ k) = z).
  { destruct (Z.leb_spec 0 (- k)).
    - assert (k = 0) by lia. subst k. cbn. lia.
    - apply Z.div_mul. lia. }
  rewrite Hv.
  change (2 ^ 53) with 9007199254740992 in Hz.
  rewrite min_int_val, max_int_val.
  destruct (Z.leb_spec (-9223372036854775808) z); [|lia].
  destruct (Z.leb_spec z 9223372036854775807); [|lia].
  reflexivity.
Qed.

Lemma ceilDiv_unique (n d k : Z) :
  0 < d -> (k - 1) * d < n <= k * d -> ceilDiv n d = k.
Proof.
  intros Hd H. unfold ceilDiv.
  assert (E : (- n) / d = - k); [|lia].
  symmetry. apply (Z.div_unique_pos _ _ _ (k * d - n)); lia.
Qed.

Lemma ceilDiv_bounds (n d : Z) :
  0 < d -> (ceilDiv n d - 1) * d < n <= ceilDiv n d * d.
Proof.
  intros Hd. unfold ceilDiv.
  pose proof (Z.div_mod (- n) d ltac:(lia)) as H.
  pose proof (Z.mod_pos_bound (- n) d Hd). nia.
Qed.

(** [int(math.Ceil(x))] of a rounded value below 1 bit of exponent. *)
Lemma to_int_Ceil_rfloat (m e : Z) :
  2 ^ 52 <= m <= 2 ^ 53 -> -900 <= e <= -2 ->
  Float64.to_int (Float64.Ceil (rfloat m e)) = ceilDiv m (2 ^ (- e)).
Proof.
  intros Hm He.
  pose proof (pow2_pos (- e) ltac:(lia)) as Hpe.
  assert (Hbig : 4 <= 2 ^ (- e)).
  { change 4 with (2 ^ 2). apply Z.pow_le_mono_r; lia. }
  pose proof (ceilDiv_bounds m (2 ^ (- e)) Hpe) as Hc.
  assert (Hz : 0 < ceilDiv m (2 ^ (- e)) < 2 ^ 53).
  { change (2 ^ 53) with 9007199254740992 in *.
    change (2 ^ 52) with 4503599627370496 in *. nia. }
  unfold rfloat. destruct (Z.ltb_spec m (2 ^ 53)) as [Hlt|Hge].
  - unfold Float64.Ceil. destruct (Z.leb_spec 0 e); [lia|].
    rewrite Z2Pos.id by lia.
    change (binary_normalize Float64.prec Float64.emax ?z 0 false)
      with (Float64.of_int z).
    apply to_int_of_int. exact Hz.
  - assert (m = 2 ^ 53) by lia. subst m.
    unfold Float64.Ceil. destruct (Z.leb_spec 0 (e + 1)); [lia|].
    rewrite Z2Pos.id by lia.
    change (binary_normalize Float64.prec Float64.emax ?z 0 false)
      with (Float64.of_int z).
    assert (E : - (- 2 ^ 52 / 2 ^ (- (e + 1))) = ceilDiv (2 ^ 53) (2 ^ (- e))).
    { unfold ceilDiv. f_equal.
      replace (- e) with (1 + - (e + 1)) by lia.
      rewrite (pow2_split 1 (- (e + 1))) by lia.
      change (- 2 ^ 53) with (2 ^ 1 * (- 2 ^ 52)).
      rewrite Z.div_mul_cancel_l; lia. }
    rewrite E. apply to_int_of_int. exact Hz.
Qed.

Lemma rne_range (N D : Z) :
  0 < D -> 2 ^ 52 * D <= N < 2 ^ 53 * D -> 2 ^ 52 <= rne N D <= 2 ^ 53.
Proof.
  intros HD HN.
  destruct (rne_bounds N D HD ltac:(nia)) as (Hb & _ & _).
  pose proof (quotient_bounds N D (2 ^ 52) (2 ^ 53) HD HN). lia.
Qed.

Lemma of_int_20 : 2 ^ 52 <= 20 * 2 ^ 48 < 2 ^ 53.
Proof. cbn. lia. Qed.

Lemma of_int_100 : 2 ^ 52 <= 100 * 2 ^ 46 < 2 ^ 53.
Proof. cbn. lia. Qed.

(** The number of filled segments, through the two roundings. *)
Lemma symCnt_chain (c t : Z) :
  0 < c < 2 ^ 31 -> 0 < t < 2 ^ 31 ->
  exists a s m mq,
    22 <= a <= 105 /\ (s = 4 \/ s = 5) /\
    2 ^ 21 * t < 2 ^ a /\
    2 * (c * 2 ^ a) - t <= 2 * (m * t) <= 2 * (c * 2 ^ a) + t /\
    40 * m - 2 ^ s <= 2 * (mq * 2 ^ s) <= 40 * m + 2 ^ s /\
    symCntOf t c = ceilDiv mq (2 ^ (a - s)).
Proof.
  intros Hc Ht.
  change (2 ^ 31) with 2147483648 in *.
  destruct (div_of_int c t) as (a & Ha & Hsand & Hdiv).
  1,2: change (2 ^ 53) with 9007199254740992; lia.
  assert (Ha22 : 22 <= a).
  { destruct (Z.le_gt_cases 22 a); [assumption|].
    assert (2 ^ a <= 2 ^ 21) by (apply Z.pow_le_mono_r; lia).
    change (2 ^ 21) with 2097152 in *.
    change (2 ^ 52) with 4503599627370496 in *. nia. }
  pose proof (pow2_pos a ltac:(lia)) as Hpa.
  assert (HA : 2 ^ 21 * t < 2 ^ a).
  { change (2 ^ 21) with 2097152.
    change (2 ^ 52) with 4503599627370496 in *. nia. }
  set (m := rne (c * 2 ^ a) t) in *.
  assert (Hm : 2 ^ 52 <= m <= 2 ^ 53) by (apply rne_range; lia).
  destruct (rne_bounds (c * 2 ^ a) t ltac:(lia) ltac:(nia)) as (_ & Hr1 & _).
  fold m in Hr1.
  destruct (mul_const 20 48 m (- a) ltac:(lia) of_int_20 Hm ltac:(lia))
    as (s & Hs & Hsand2 & Hmul & _).
  assert (Hs45 : s = 4 \/ s = 5).
  { destruct (Z.le_gt_cases s 3).
    - assert (2 ^ (53 + s) <= 2 ^ 56) by (apply Z.pow_le_mono_r; lia).
      change (2 ^ 56) with 72057594037927936 in *.
      change (2 ^ 52) with 4503599627370496 in *. lia.
    - destruct (Z.le_gt_cases 6 s); [|lia].
      assert (2 ^ 58 <= 2 ^ (52 + s)) by (apply Z.pow_le_mono_r; lia).
      change (2 ^ 58) with 288230376151711744 in *.
      change (2 ^ 53) with 9007199254740992 in *. lia. }
  pose proof (pow2_pos s ltac:(lia)) as Hps.
  set (mq := rne (20 * m) (2 ^ s)) in *.
  assert (Hsand2' : 2 ^ 52 * 2 ^ s <= 20 * m < 2 ^ 53 * 2 ^ s).
  { rewrite <- !pow2_split by lia. exact Hsand2. }
  assert (Hmq : 2 ^ 52 <= mq <= 2 ^ 53) by (apply rne_range; lia).
  destruct (rne_bounds (20 * m) (2 ^ s) ltac:(lia) ltac:(lia))
    as (_ & Hr2 & _).
  fold mq in Hr2.
  exists a, s, m, mq.
  split; [lia|]. split; [assumption|]. split; [assumption|].
  split; [assumption|]. split; [lia|].
  unfold symCntOf. rewrite Hdiv. change SYMBOL_WIDTH with 20. rewrite Hmul.
  rewrite to_int_Ceil_rfloat; try lia.
  f_equal. f_equal. lia.
Qed.

Lemma symCnt_lower (c t K : Z) :
  0 < c < 2 ^ 31 -> 0 < t < 2 ^ 31 ->
  (K - 1) * t < 20 * c -> K <= symCntOf t c.
Proof.
  intros Hc Ht HK.
  destruct (symCnt_chain c t Hc Ht)
    as (a & s & m & mq & Ha & Hs & HA & Hr1 & Hr2 & ->).
  pose proof (pow2_pos (a - s) ltac:(lia)) as HpB.
  pose proof (ceilDiv_bounds mq (2 ^ (a - s)) HpB) as Hceil.
  assert (E : 2 ^ a = 2 ^ (a - s) * 2 ^ s)
    by (rewrite <- pow2_split by lia; f_equal; lia).
  set (A := 2 ^ a) in *. set (B := 2 ^ (a - s)) in *.
  set (z := ceilDiv mq B) in *.
  assert (HS : 2 ^ s = 16 \/ 2 ^ s = 32)
    by (destruct Hs as [-> | ->]; [left|right]; reflexivity).
  set (S := 2 ^ s) in *.
  change (2 ^ 21) with 2097152 in HA.
  (* (K - 1) * B < mq *)
  assert (H1 : 2 * (A * ((K - 1) * t + 1)) <= 40 * (c * A)) by nia.
  assert (H2 : 40 * (c * A) - 20 * t - S * t <= 2 * (mq * S) * t) by nia.
  assert (H3 : 2 * A * (K - 1) * t < 2 * (mq * S) * t) by nia.
  assert (H4 : (K - 1) * B < mq).
  { rewrite E in H3. 
    assert (0 < 2 * S * t) by nia.
    apply (Z.mul_lt_mono_pos_l (2 * S * t)); [assumption|]. nia. }
  destruct (Z.le_gt_cases K z); [assumption|].
  assert (z * B <= (K - 1) * B) by nia. lia.
Qed.

Lemma symCnt_upper (c t K : Z) :
  0 < c < 2 ^ 31 -> 0 < t < 2 ^ 31 ->
  20 * c < K * t -> symCntOf t c <= K.
Proof.
  intros Hc Ht HK.
  destruct (symCnt_chain c t Hc Ht)
    as (a & s & m & mq & Ha & Hs & HA & Hr1 & Hr2 & ->).
  pose proof (pow2_pos (a - s) ltac:(lia)) as HpB.
  pose proof (ceilDiv_bounds mq (2 ^ (a - s)) HpB) as Hceil.
  assert (E : 2 ^ a = 2 ^ (a - s) * 2 ^ s)
    by (rewrite <- pow2_split by lia; f_equal; lia).
  set (A := 2 ^ a) in *. set (B := 2 ^ (a - s)) in *.
  set (z := ceilDiv mq B) in *.
  assert (HS : 2 ^ s = 16 \/ 2 ^ s = 32)
    by (destruct Hs as [-> | ->]; [left|right]; reflexivity).
  set (S := 2 ^ s) in *.
  change (2 ^ 21) with 2097152 in HA.
  assert (H1 : 40 * (c * A) <= 2 * (A * (K * t - 1))) by nia.
  assert (H2 : 2 * (mq * S) * t <= 40 * (c * A) + 20 * t + S * t) by nia.
  assert (H3 : 2 * (mq * S) * t < 2 * A * K * t) by nia.
  assert (H4 : mq < K * B).
  { rewrite E in H3.
    assert (0 < 2 * S * t) by nia.
    apply (Z.mul_lt_mono_pos_l (2 * S * t)); [assumption|]. nia. }
  destruct (Z.le_gt_cases z K); [assumption|].
  assert (K * B <= (z - 1) * B) by nia. lia.
Qed.

(** The rounded quotient depends on the ratio only. *)
Lemma div_of_int_ratio (c t c' t' : Z) :
  0 < c < 2 ^ 53 -> 0 < t < 2 ^ 53 -> 0 < c' < 2 ^ 53 -> 0 < t' < 2 ^ 53 ->
  c * t' = c' * t ->
  Float64.div (Float64.of_int c) (Float64.of_int t)
  = Float64.div (Float64.of_int c') (Float64.of_int t').
Proof.
  intros Hc Ht Hc' Ht' Hratio.
  destruct (div_of_int c t Hc Ht) as (a & Ha & Hs & ->).
  destruct (div_of_int c' t' Hc' Ht') as (a' & Ha' & Hs' & ->).
  assert (Hlt : forall x y n n' : Z,
             0 < x -> 0 < y -> 0 <= n -> n < n' ->
             2 ^ 52 * y <= x * 2 ^ n -> x * 2 ^ n' < 2 ^ 53 * y -> False).
  { intros x y n n' Hx Hy Hn Hnn H1 H2.
    assert (2 ^ (n + 1) <= 2 ^ n') by (apply Z.pow_le_mono_r; lia).
    rewrite Z.pow_add_r in H by lia. change (2 ^ 1) with 2 in H.
    pose proof (pow2_pos n Hn).
    change (2 ^ 53) with (2 * 2 ^ 52) in H2.
    assert (x * (2 ^ n * 2) <= x * 2 ^ n') by (apply Z.mul_le_mono_nonneg_l; lia).
    lia. }
  assert (Hcross : 2 ^ 52 * (t * t') <= (c * t') * 2 ^ a < 2 ^ 53 * (t * t')) by nia.
  assert (Hcross' : 2 ^ 52 * (t * t') <= (c * t') * 2 ^ a' < 2 ^ 53 * (t * t')).
  { rewrite Hratio. nia. }
  assert (Haa : a = a').
  { destruct (Z.lt_trichotomy a a') as [H|[H|H]]; [exfalso|assumption|exfalso].
    - apply (Hlt (c * t') (t * t') a a'); nia.
    - apply (Hlt (c * t') (t * t') a' a); nia. }
  subst a'. f_equal.
  rewrite <- (rne_scale t' (c * 2 ^ a) t) by lia.
  rewrite <- (rne_scale t (c' * 2 ^ a) t') by lia.
  f_equal; [|ring].
  replace (t' * (c * 2 ^ a)) with (c * t' * 2 ^ a) by ring.
  rewrite Hratio. ring.
Qed.

Lemma symCnt_twentieths (K : Z) : 1 <= K <= 20 -> symCntOf 20 K = K.
Proof.
  intros HK.
  assert (H : K = 1 \/ K = 2 \/ K = 3 \/ K = 4 \/ K = 5 \/ K = 6 \/ K = 7 \/
              K = 8 \/ K = 9 \/ K = 10 \/ K = 11 \/ K = 12 \/ K = 13 \/
              K = 14 \/ K = 15 \/ K = 16 \/ K = 17 \/ K = 18 \/ K = 19 \/
              K = 20) by lia.
  repeat (destruct H as [-> | H]; [vm_compute; reflexivity|]).
  subst K. vm_compute. reflexivity.
Qed.

(** The number of filled segments is the exact ceiling of 20 * cur / tot. *)
Lemma symCnt_exact (tot cur : Z) :
  0 <= cur <= tot -> 0 < tot < 2 ^ 31 ->
  symCntOf tot cur = ceilDiv (20 * cur) tot.
Proof.
  intros Hc Ht.
  assert (Ht53 : 0 < tot < 2 ^ 53).
  { change (2 ^ 31) with 2147483648 in Ht.
    change (2 ^ 53) with 9007199254740992. lia. }
  destruct (Z.eq_dec cur 0) as [->|Hc0].
  - destruct (normal_shift tot Ht53) as (k & Hk & Hb).
    unfold symCntOf. rewrite (of_int_spec tot k) by lia.
    rewrite Z.mul_0_r. unfold ceilDiv. cbn [Z.opp].
    rewrite Z.div_0_l by lia. reflexivity.
  - pose proof (ceilDiv_bounds (20 * cur) tot ltac:(lia)) as Hb.
    set (K := ceilDiv (20 * cur) tot) in *.
    destruct (Z.eq_dec (20 * cur) (K * tot)) as [Heq|Hne].
    + (* 20 * cur / tot is an integer *)
      assert (HK : 1 <= K <= 20) by nia.
      assert (R : Float64.div (Float64.of_int cur) (Float64.of_int tot)
                  = Float64.div (Float64.of_int K) (Float64.of_int 20)).
      { change (2 ^ 31) with 2147483648 in Ht.
        apply div_of_int_ratio; change (2 ^ 53) with 9007199254740992; lia. }
      unfold symCntOf. rewrite R. apply symCnt_twentieths. assumption.
    + apply Z.le_antisymm.
      * apply symCnt_upper; lia.
      * apply symCnt_lower; lia.
Qed.

Lemma symCnt_over (tot cur : Z) :
  0 < tot -> tot < cur -> cur < 2 ^ 31 ->
  21 <= symCntOf tot cur <= 20 * 2 ^ 31.
Proof.
  intros Ht Hc Hc31. split.
  - apply symCnt_lower; lia.
  - apply symCnt_upper; lia.
Qed.

Lemma tenths_rne (m : positive) (e : Z) :
  e < 0 -> Float64.tenths m e = rne (10 * Z.pos m) (2 ^ (- e)).
Proof.
  intros He. unfold Float64.tenths, rne, locOf.
  rewrite Z.max_r, Z.max_l by lia. rewrite Z.pow_0_r, Z.mul_1_r.
  pose proof (pow2_pos (- e) ltac:(lia)) as Hp.
  set (N := 10 * Z.pos m). set (D := 2 ^ (- e)) in *.
  destruct (Z.eqb_spec (N mod D) 0) as [H0|H0].
  - rewrite H0. cbn [round_nearest_even].
    destruct (Z.compare_spec (2 * 0) D); lia.
  - cbn [round_nearest_even]. destruct (2 * (N mod D) ?= D); reflexivity.
Qed.

Lemma fmt_1f_rfloat (m e : Z) :
  2 ^ 52 <= m <= 2 ^ 53 -> -900 <= e <= -2 ->
  Float64.fmt_1f (rfloat m e)
  = (Fmt.d (rne (10 * m) (2 ^ (- e)) / 10) ++ "." ++
     Fmt.d (rne (10 * m) (2 ^ (- e)) mod 10))%string.
Proof.
  intros Hm He. unfold rfloat.
  destruct (Z.ltb_spec m (2 ^ 53)) as [Hlt|Hge].
  - unfold Float64.fmt_1f. rewrite tenths_rne by lia.
    rewrite Z2Pos.id by lia. reflexivity.
  - assert (m = 2 ^ 53) by lia. subst m.
    unfold Float64.fmt_1f. rewrite tenths_rne by lia.
    rewrite Z2Pos.id by lia.
    replace (rne (10 * 2 ^ 53) (2 ^ (- e)))
      with (rne (10 * 2 ^ 52) (2 ^ (- (e + 1)))); [reflexivity|].
    replace (- e) with (1 + - (e + 1)) by lia.
    rewrite (pow2_split 1 (- (e + 1))) by lia.
    change (10 * 2 ^ 53) with (2 ^ 1 * (10 * 2 ^ 52)).
    rewrite rne_scale; lia.
Qed.

(** The percentage printed: 100 * cur / tot to the nearest tenth. *)
Lemma percent_spec (tot cur : Z) :
  0 <= cur < 2 ^ 31 -> 0 < tot < 2 ^ 31 ->
  exists T,
    0 <= T /\ Z.abs (2 * (T * tot) - 2000 * cur) <= tot /\
    Float64.fmt_1f
      (Float64.mul (Float64.div (Float64.of_int cur) (Float64.of_int tot))
         (Float64.of_int 100))
    = (Fmt.d (T / 10) ++ "." ++ Fmt.d (T mod 10))%string.
Proof.
  intros Hc Ht.
  change (2 ^ 31) with 2147483648 in *.
  assert (Ht53 : 0 < tot < 2 ^ 53)
    by (change (2 ^ 53) with 9007199254740992; lia).
  destruct (Z.eq_dec cur 0) as [->|Hc0].
  - exists 0. split; [lia|]. split; [rewrite Z.mul_0_l, Z.mul_0_r; cbn; lia|].
    destruct (normal_shift tot Ht53) as (k & Hk & Hb).
    rewrite (of_int_spec tot k) by lia. reflexivity.
  - assert (Hc53 : 0 < cur < 2 ^ 53)
      by (change (2 ^ 53) with 9007199254740992; lia).
    destruct (div_of_int cur tot Hc53 Ht53) as (a & Ha & Hsand & ->).
    assert (Ha22 : 22 <= a).
    { destruct (Z.le_gt_cases 22 a); [assumption|].
      assert (2 ^ a <= 2 ^ 21) by (apply Z.pow_le_mono_r; lia).
      change (2 ^ 21) with 2097152 in *.
      change (2 ^ 52) with 4503599627370496 in *. nia. }
    pose proof (pow2_pos a ltac:(lia)) as Hpa.
    assert (HA : 2097152 * tot < 2 ^ a).
    { change (2 ^ 52) with 4503599627370496 in *. nia. }
    set (m := rne (cur * 2 ^ a) tot) in *.
    assert (Hm : 2 ^ 52 <= m <= 2 ^ 53) by (apply rne_range; lia).
    destruct (rne_bounds (cur * 2 ^ a) tot ltac:(lia) ltac:(nia))
      as (_ & Hr1 & _).
    fold m in Hr1.
    destruct (mul_const 100 46 m (- a) ltac:(lia) of_int_100 Hm ltac:(lia))
      as (s & Hs & Hsand2 & _ & ->).
    assert (Hs7 : s <= 7).
    { destruct (Z.le_gt_cases s 7); [assumption|].
      assert (2 ^ 60 <= 2 ^ (52 + s)) by (apply Z.pow_le_mono_r; lia).
      change (2 ^ 60) with 1152921504606846976 in *.
      change (2 ^ 53) with 9007199254740992 in *. lia. }
    pose proof (pow2_pos s ltac:(lia)) as Hps.
    assert (HS : 2 ^ s <= 128).
    { change 128 with (2 ^ 7). apply Z.pow_le_mono_r; lia. }
    set (mp := rne (100 * m) (2 ^ s)) in *.
    assert (Hsand2' : 2 ^ 52 * 2 ^ s <= 100 * m < 2 ^ 53 * 2 ^ s).
    { rewrite <- !pow2_split by lia. exact Hsand2. }
    assert (Hmp : 2 ^ 52 <= mp <= 2 ^ 53) by (apply rne_range; lia).
    destruct (rne_bounds (100 * m) (2 ^ s) ltac:(lia) ltac:(lia))
      as (_ & Hr2 & _).
    fold mp in Hr2.
    rewrite fmt_1f_rfloat by lia.
    replace (- (- a + s)) with (a - s) by lia.
    pose proof (pow2_pos (a - s) ltac:(lia)) as HpB.
    destruct (rne_bounds (10 * mp) (2 ^ (a - s)) ltac:(lia) ltac:(lia))
      as (Hq3 & Hr3 & _).
    set (T := rne (10 * mp) (2 ^ (a - s))) in *.
    exists T.
    assert (E : 2 ^ a = 2 ^ (a - s) * 2 ^ s)
      by (rewrite <- pow2_split by lia; f_equal; lia).
    set (A := 2 ^ a) in *. set (B := 2 ^ (a - s)) in *. set (S := 2 ^ s) in *.
    assert (HT0 : 0 <= T).
    { assert (0 <= 10 * mp / B) by (apply Z.div_pos; lia). lia. }
    split; [assumption|]. split; [|reflexivity].
    (* the three roundings, scaled by A * tot *)
    assert (HSt : S * tot <= 128 * tot)
      by (apply Z.mul_le_mono_nonneg_r; lia).
    assert (HY : 0 <= S * tot) by nia.
    destruct Hr3 as [Hr3a Hr3b]. destruct Hr2 as [Hr2a Hr2b].
    apply (Z.mul_le_mono_nonneg_r _ _ (S * tot) HY) in Hr3a, Hr3b.
    apply (Z.mul_le_mono_nonneg_r _ _ (10 * tot) ltac:(lia)) in Hr2a, Hr2b.
    assert (Hlt : (2 * (T * tot) - 2000 * cur) * A < (tot + 1) * A)
      by (rewrite E in *; lia).
    assert (Hgt : (- (tot + 1)) * A < (2 * (T * tot) - 2000 * cur) * A)
      by (rewrite E in *; lia).
    apply Z.mul_lt_mono_pos_r in Hlt, Hgt; try lia.
Qed.

(** ** [logProgress] *)

Lemma string_length_app (a b : string) :
  String.length (a ++ b) = (String.length a + String.length b)%nat.
Proof. induction a as [|c a IH]; cbn; [reflexivity | now rewrite IH]. Qed.

Lemma string_app_assoc (a b c : string) :
  ((a ++ b) ++ c = a ++ b ++ c)%string.
Proof. induction a as [|x a IH]; cbn; [reflexivity | now rewrite IH]. Qed.

Lemma repeat_string_length (c : ascii) (n : nat) :
  String.length (repeat_string (String c EmptyString) n) = n.
Proof. induction n as [|n IH]; cbn; [reflexivity | now rewrite IH]. Qed.

Lemma logProgress_symCnt (tot cur : Z) :
  logProgress tot cur =
  match Repeat SYMBOL (symCntOf tot cur) with
  | None => None
  | Some filled =>
      match Repeat " " (GoInt.sub SYMBOL_WIDTH (symCntOf tot cur)) with
      | None => None
      | Some blank =>
          Some ((CR ++ "through pg: " ++ Fmt.d cur ++ TAB ++ "[") ++ filled
                ++ blank ++ "]" ++ " "
                ++ Float64.fmt_1f
                     (Float64.mul
                        (Float64.div (Float64.of_int cur) (Float64.of_int tot))
                        (Float64.of_int 100))
                ++ "%")%string
      end
  end.
Proof. reflexivity. Qed.

Lemma logProgress_line (tot cur : Z) :
  0 <= cur <= tot -> 0 < tot < 2 ^ 31 ->
  exists (T : Z) (filled blank : string),
    0 <= ceilDiv (20 * cur) tot <= 20 /\
    filled = repeat_string SYMBOL (Z.to_nat (ceilDiv (20 * cur) tot)) /\
    blank = repeat_string " " (Z.to_nat (20 - ceilDiv (20 * cur) tot)) /\
    String.length (filled ++ blank) = 20%nat /\
    0 <= T /\ Z.abs (2 * (T * tot) - 2000 * cur) <= tot /\
    logProgress tot cur =
    Some ((CR ++ "through pg: " ++ Fmt.d cur ++ TAB ++ "[") ++ filled
          ++ blank ++ "]" ++ " " ++ Fmt.d (T / 10) ++ "." ++ Fmt.d (T mod 10)
          ++ "%")%string.
Proof.
  intros Hc Ht.
  assert (Hc31 : 0 <= cur < 2 ^ 31) by lia.
  destruct (percent_spec tot cur Hc31 Ht) as (T & HT0 & HT & Hfmt).
  pose proof (ceilDiv_bounds (20 * cur) tot ltac:(lia)) as Hb.
  set (K := ceilDiv (20 * cur) tot) in *.
  assert (HK : 0 <= K <= 20) by nia.
  exists T, (repeat_string SYMBOL (Z.to_nat K)),
    (repeat_string " " (Z.to_nat (20 - K))).
  split; [assumption|]. split; [reflexivity|]. split; [reflexivity|].
  split.
  { rewrite string_length_app. unfold SYMBOL.
    rewrite !repeat_string_length. lia. }
  split; [assumption|]. split; [assumption|].
  rewrite logProgress_symCnt, symCnt_exact by assumption. fold K.
  unfold Repeat. destruct (Z.ltb_spec K 0); [lia|].
  change SYMBOL_WIDTH with 20.
  rewrite sub_small by (int_bounds; lia).
  destruct (Z.ltb_spec (20 - K) 0); [lia|].
  rewrite Hfmt.
  rewrite (string_app_assoc (Fmt.d (T / 10)) ("." ++ Fmt.d (T mod 10)) "%").
  rewrite (string_app_assoc "." (Fmt.d (T mod 10)) "%").
  reflexivity.
Qed.

(** When [0 <= cur <= tot] and [0 < tot < 2^31], [logProgress(tot, cur)]
    prints a bar of exactly 20 characters, of which the exact ceiling of
    [20 * cur / tot] are filled, followed by [100 * cur / tot] to the
    nearest tenth: the two float64 roundings never show. *)
Theorem progress_bar (tot cur : Z) :
  0 <= cur <= tot -> 0 < tot < 2 ^ 31 ->
  exists (T : Z) (filled blank : string),
    0 <= ceilDiv (20 * cur) tot <= 20 /\
    filled = repeat_string SYMBOL (Z.to_nat (ceilDiv (20 * cur) tot)) /\
    blank = repeat_string " " (Z.to_nat (20 - ceilDiv (20 * cur) tot)) /\
    String.length (filled ++ blank) = 20%nat /\
    0 <= T /\ Z.abs (2 * (T * tot) - 2000 * cur) <= tot /\
    logProgress tot cur =
    Some ((CR ++ "through pg: " ++ Fmt.d cur ++ TAB ++ "[") ++ filled
          ++ blank ++ "]" ++ " " ++ Fmt.d (T / 10) ++ "." ++ Fmt.d (T mod 10)
          ++ "%")%string.
Proof. apply logProgress_line. Qed.

Lemma progress_bar_witness :
  exists (T : Z) (filled blank : string),
    0 <= ceilDiv (20 * 5) 10 <= 20 /\
    filled = repeat_string SYMBOL (Z.to_nat (ceilDiv (20 * 5) 10)) /\
    blank = repeat_string " " (Z.to_nat (20 - ceilDiv (20 * 5) 10)) /\
    String.length (filled ++ blank) = 20%nat /\
    0 <= T /\ Z.abs (2 * (T * 10) - 2000 * 5) <= 10 /\
    logProgress 10 5 =
    Some ((CR ++ "through pg: " ++ Fmt.d 5 ++ TAB ++ "[") ++ filled
          ++ blank ++ "]" ++ " " ++ Fmt.d (T / 10) ++ "." ++ Fmt.d (T mod 10)
          ++ "%")%string.
Proof. apply (progress_bar 10 5); cbn; lia. Defined.

Lemma logProgress_over (tot cur : Z) :
  0 < tot -> tot < cur -> cur < 2 ^ 31 -> logProgress tot cur = None.
Proof.
  intros Ht Hc Hc31.
  destruct (symCnt_over tot cur Ht Hc Hc31) as [Hlo Hhi].
  rewrite logProgress_symCnt. unfold Repeat.
  destruct (Z.ltb_spec (symCntOf tot cur) 0); [reflexivity|].
  change SYMBOL_WIDTH with 20. change (2 ^ 31) with 2147483648 in *.
  rewrite sub_small by (int_bounds; lia).
  destruct (Z.ltb_spec (20 - symCntOf tot cur) 0); [reflexivity|lia].
Qed.

(** When more pages are reported than the total ([0 < tot < cur < 2^31]),
    [logProgress(tot, cur)] does not return: the filled part is longer than
    the bar and [strings.Repeat] panics on the negative rest. *)
Theorem progress_overrun_panics (tot cur : Z) :
  0 < tot -> tot < cur -> cur < 2 ^ 31 -> logProgress tot cur = None.
Proof. apply logProgress_over. Qed.

Lemma progress_overrun_panics_witness : logProgress 5 6 = None.
Proof. apply (progress_overrun_panics 5 6); cbn; lia. Defined.

Lemma logProgress_returns (tot cur : Z) :
  0 <= cur <= tot -> 0 < tot < 2 ^ 31 ->
  exists line, logProgress tot cur = Some line.
Proof.
  intros Hc Ht.
  destruct (logProgress_line tot cur Hc Ht)
    as (T & filled & blank & _ & _ & _ & _ & _ & _ & ->).
  eauto.
Qed.

(** ** Runs that end normally *)

Lemma run_ok_exact (w : World) (startPgF endPgF chunkSizeF : Z)
    (fuel : nat) (tr : trace) (c : Z) :
  GoInt.in_range startPgF ->
  0 <= NumPage w < 2 ^ 31 ->
  0 < chunkSizeF ->
  NumPage w + chunkSizeF <= GoInt.max_int ->
  main w fuel startPgF endPgF chunkSizeF = Some (tr, Ok c) ->
  c = Z.max 0 (endPage endPgF (NumPage w) - startPage startPgF endPgF) /\
  renderedOf tr = seqZ (startPage startPgF endPgF) (Z.to_nat c) /\
  createdOf tr = map fileName (seqZ (startPage startPgF endPgF) (Z.to_nat c)) /\
  encodedOf tr = map fileName (seqZ (startPage startPgF endPgF) (Z.to_nat c)).
Proof.
  intros Hs Htotal HC Hfit E.
  change (2 ^ 31) with 2147483648 in Htotal.
  assert (Htotal' : 0 <= NumPage w <= GoInt.max_int) by (int_bounds; lia).
  assert (HC' : 0 < chunkSizeF <= GoInt.max_int) by lia.
  pose proof (sp_range w startPgF endPgF Hs Htotal') as Hsp.
  pose proof (ep_range w endPgF Htotal') as Hep.
  set (sp := startPage startPgF endPgF) in *.
  set (ep := endPage endPgF (NumPage w)) in *.
  destruct (fails w [EvNew]) eqn:Hopen.
  { rewrite main_open_fails in E by assumption. discriminate E. }
  rewrite main_unfold in E by assumption. fold sp ep in E.
  destruct (Z.le_gt_cases (ep - sp) 0) as [Hempty|Hpos].
  - rewrite chunkLoop_exit in E by assumption. injection E as <- <-.
    rewrite Z.max_l by lia. repeat split.
  - destruct (chunkLoop_spec w chunkSizeF sp ep (ep - sp) HC' Htotal' Hsp Hep
                fuel _ _ _ _ _ _ _
                (loopInv_init w startPgF endPgF chunkSizeF Hs Htotal' HC') E)
      as (j & Hst & Hj & _ & Hok & _).
    destruct (Hok c eq_refl) as (Hcj & Hge & Hlog).
    specialize (Hge Hfit).
    destruct Hlog as [(Hle & _)|Hlog]; [lia|].
    assert (Hc : c = ep - sp).
    { destruct (Z.le_gt_cases c (ep - sp)); [lia|].
      exfalso. apply Hlog. apply logProgress_over; lia. }
    rewrite Z.max_r by lia. split; [assumption|].
    cbn [pagesState] in Hst. rewrite Hcj, Nat2Z.id. exact Hst.
Qed.

(** A run that returns normally has processed exactly the pages of the
    resolved range: the counter is [endPage - startPage] (0 for an empty or
    inverted range), and the pages rendered, the files created and the files
    encoded are those of [startPage .. endPage - 1], each once and in order.
    A run whose last chunk went past [endPage] never returns normally.
    (For documents under 2^31 pages and chunk sizes that do not overflow.) *)
Theorem successful_run_exact (w : World) (startPgF endPgF chunkSizeF : Z)
    (fuel : nat) (tr : trace) (c : Z) :
  GoInt.in_range startPgF ->
  0 <= NumPage w < 2 ^ 31 ->
  0 < chunkSizeF ->
  NumPage w + chunkSizeF <= GoInt.max_int ->
  main w fuel startPgF endPgF chunkSizeF = Some (tr, Ok c) ->
  c = Z.max 0 (endPage endPgF (NumPage w) - startPage startPgF endPgF) /\
  renderedOf tr = seqZ (startPage startPgF endPgF) (Z.to_nat c) /\
  createdOf tr = map fileName (seqZ (startPage startPgF endPgF) (Z.to_nat c)) /\
  encodedOf tr = map fileName (seqZ (startPage startPgF endPgF) (Z.to_nat c)).
Proof. apply run_ok_exact. Qed.

Lemma successful_run_exact_witness :
  exists tr c,
    main (calm 7) 3 0 (-1) 3 = Some (tr, Ok c) /\
    c = Z.max 0 (endPage (-1) 7 - startPage 0 (-1)) /\
    renderedOf tr = seqZ (startPage 0 (-1)) (Z.to_nat c) /\
    createdOf tr = map fileName (seqZ (startPage 0 (-1)) (Z.to_nat c)) /\
    encodedOf tr = map fileName (seqZ (startPage 0 (-1)) (Z.to_nat c)).
Proof.
  eexists. eexists. split; [vm_compute; reflexivity|].
  apply (successful_run_exact (calm 7) 0 (-1) 3 3%nat).
  - int_bounds. lia.
  - cbn. lia.
  - lia.
  - cbn. int_bounds. lia.
  - vm_compute. reflexivity.
Defined.

(** ** File names *)

Lemma zeros_length (n : nat) : String.length (Fmt.zeros n) = n.
Proof. induction n as [|n IH]; cbn; [reflexivity | now rewrite IH]. Qed.

Lemma decimalValue_zeros (n : nat) (s : string) :
  decimalValue (Fmt.zeros n ++ s) = decimalValue s.
Proof.
  induction n as [|n IH]; [reflexivity|].
  rewrite <- IH. unfold decimalValue. cbn.
  destruct (NilEmpty.uint_of_string (Fmt.zeros n ++ s)); reflexivity.
Qed.

(** Printing with [%d] and reading the digits back gives the number. *)
Lemma decimalValue_d (z : Z) : 0 <= z -> decimalValue (Fmt.d z) = Some z.
Proof.
  intros Hz. unfold decimalValue, Fmt.d.
  destruct z as [|p|p]; try lia; [reflexivity|].
  cbn [Z.to_int NilZero.string_of_int].
  pose proof (DecimalPos.Unsigned.to_uint_nonnil p) as Hnil.
  unfold NilZero.string_of_uint.
  destruct (Pos.to_uint p) eqn:E; try contradiction;
    rewrite <- E, NilEmpty.usu; cbn [option_map]; unfold Z.of_uint;
    rewrite DecimalPos.Unsigned.of_to; reflexivity.
Qed.

Lemma d03_spec (z : Z) :
  0 <= z ->
  (3 <= String.length (Fmt.d03 z))%nat /\ decimalValue (Fmt.d03 z) = Some z.
Proof.
  intros Hz. unfold Fmt.d03. destruct (Z.ltb_spec z 0); [lia|].
  unfold Fmt.pad0. split.
  - rewrite string_length_app, zeros_length. lia.
  - rewrite decimalValue_zeros. apply decimalValue_d. assumption.
Qed.


Lemma fileName_digits (n : Z) :
  0 <= n < GoInt.max_int ->
  exists num : string,
    fileName n = (num ++ ".jpg")%string /\
    (3 <= String.length num)%nat /\
    decimalValue num = Some (n + 1).
Proof.
  intros Hn. exists (Fmt.d03 (n + 1)). unfold fileName.
  rewrite add_small by (int_bounds; lia).
  split; [reflexivity|]. apply d03_spec. lia.
Qed.

(** The file of page index [n] is named by the 1-based page number [n + 1]
    in decimal, padded with zeros to at least three digits, followed by
    [.jpg]. *)
Theorem fileName_spec (n : Z) :
  0 <= n < GoInt.max_int ->
  exists num : string,
    fileName n = (num ++ ".jpg")%string /\
    (3 <= String.length num)%nat /\
    decimalValue num = Some (n + 1).
Proof. apply fileName_digits. Qed.

Lemma fileName_spec_witness :
  exists num : string,
    fileName 6 = (num ++ ".jpg")%string /\
    (3 <= String.length num)%nat /\
    decimalValue num = Some (6 + 1).
Proof. apply (fileName_spec 6). int_bounds. lia. Defined.



(** ** [intMin] *)

Lemma fold_min_spec (rest : list Z) :
  forall v : Z,
    let m := fold_left (fun best val => if val <? best then val else best)
               rest v in
    In m (v :: rest) /\ forall x, In x (v :: rest) -> m <= x.
Proof.
  induction rest as [|y rest IH]; intros v; cbn [fold_left].
  - split; [left; reflexivity|]. intros x [<-|[]]. lia.
  - destruct (IH (if y <? v then y else v)) as [Hin Hle].
    split.
    + destruct Hin as [Hin|Hin]; [|right; right; assumption].
      rewrite <- Hin. destruct (y <? v); [right; left|left]; reflexivity.
    + intros x Hx.
      assert (Hb : (if y <? v then y else v) <= v /\
                   (if y <? v then y else v) <= y)
        by (destruct (Z.ltb_spec y v); lia).
      pose proof (Hle _ (or_introl eq_refl)) as H0.
      destruct Hx as [<-|[<-|Hx]]; try lia.
      apply Hle. right. assumption.
Qed.

(** [intMin] panics exactly on an empty argument list; otherwise it returns
    one of its arguments, and none of them is smaller. *)
Theorem intMin_spec (vals : list Z) :
  (intMin vals = None <-> vals = []) /\
  (forall m, intMin vals = Some m ->
             In m vals /\ forall x, In x vals -> m <= x).
Proof.
  destruct vals as [|v [|y rest]].
  - split; [split; reflexivity|]. intros m [=].
  - split; [split; discriminate|].
    intros m [= <-]. split; [left; reflexivity|]. intros x [<-|[]]. lia.
  - split; [split; discriminate|].
    intros m [= <-]. apply (fold_min_spec (y :: rest) v).
Qed.

(** ** The chunk schedule *)

Lemma last_cons_default (l : list Z) :
  forall x d1 d2 : Z, List.last (x :: l) d1 = List.last (x :: l) d2.
Proof.
  induction l as [|z l IHl]; intros x d1 d2; [reflexivity|].
  change (List.last (x :: z :: l) ?d) with (List.last (z :: l) d).
  apply IHl.
Qed.

Lemma lastEnd_cons (from a b : Z) (cs : list (Z * Z)) :
  lastEnd from ((a, b) :: cs) = lastEnd b cs.
Proof.
  unfold lastEnd. cbn [map snd].
  destruct cs as [|[u v] cs']; [reflexivity|]. cbn [map snd].
  change (List.last (b :: v :: ?l) from) with (List.last (v :: l) from).
  apply last_cons_default.
Qed.

Section ChunkChain.

Variable w : World.
Variables C sp ep tot : Z.

Local Abbreviation total := (NumPage w).

Hypothesis HC : 0 < C <= GoInt.max_int.
Hypothesis Htotal : 0 <= total <= GoInt.max_int.
Hypothesis Hfit : total + C <= GoInt.max_int.
Hypothesis Hsp : 0 <= sp <= GoInt.max_int.
Hypothesis Hep : 0 <= ep <= total.

(** The chunks that the loop runs from a state on follow the schedule, and
    when the loop returns, the counter is the distance from the start page
    to the end of the last chunk. *)
Lemma chunkLoop_chain (fuel : nat) :
  forall (first : bool) (tr tr' : trace)
         (remPages curStart curEnd count : Z) (r : result Z),
    loopInv C total sp ep tr remPages curStart curEnd count ->
    chainInv C total sp ep first remPages curStart curEnd count ->
    chunkLoop w C total tot fuel remPages curStart curEnd count tr
    = Some (tr', r) ->
    exists cs,
      chunksOf tr' = chunksOf tr ++ cs /\
      chunkChain C total ep first curStart cs /\
      (forall c, r = Ok c -> sp + c = lastEnd curStart cs /\
                             ep <= lastEnd curStart cs).
Proof.
  induction fuel as [|fuel IH];
    intros first tr tr' remPages curStart curEnd count r Hinv Hch E.
  - cbn [chunkLoop] in E. destruct (Z.gtb_spec remPages 0); [discriminate|].
    injection E as <- <-. exists []. rewrite app_nil_r.
    destruct Hch as (Hrem & Hcount & _).
    split; [reflexivity|]. split; [exact I|].
    intros c [= <-]. unfold lastEnd. cbn. lia.
  - destruct (Z.le_gt_cases remPages 0) as [Hle|Hpos].
    + rewrite chunkLoop_exit in E by assumption. injection E as <- <-.
      exists []. rewrite app_nil_r.
      destruct Hch as (Hrem & Hcount & _).
      split; [reflexivity|]. split; [exact I|].
      intros c [= <-]. unfold lastEnd. cbn. lia.
    + rewrite chunkLoop_unfold in E by lia.
      destruct (processChunk w curStart curEnd count tot tr)
        as [tr1 r1] eqn:EP.
      destruct (loop_iteration w C sp ep tot HC Htotal Hsp Hep
                  _ _ _ _ _ _ _ Hinv ltac:(lia) EP)
        as (Hchunks & Hcs & Hce & Hne & _ & Hnext).
      destruct Hch as (Hrem & Hcount & Hspc & HcurEnd).
      specialize (HcurEnd ltac:(lia)).
      assert (Hlt : curStart < ep) by lia.
      specialize (Hne ltac:(int_bounds; lia)).
      destruct r1 as [count'|why].
      * destruct (Hnext count' eq_refl) as (Hinv' & _ & _).
        apply processChunk_spec in EP; try (int_bounds; lia).
        destruct EP as (d & j & _ & _ & _ & _ & Hok & _).
        destruct (Hok count' eq_refl) as (-> & -> & _).
        assert (Hch' : chainInv C total sp ep false
                         (GoInt.sub remPages (GoInt.sub curEnd curStart))
                         curEnd (Z.min (GoInt.add curEnd C) total)
                         (count + Z.of_nat (Z.to_nat (curEnd - curStart)))).
        { rewrite (sub_small curEnd curStart) by (int_bounds; lia).
          rewrite sub_small by (int_bounds; lia).
          rewrite add_small by (int_bounds; lia).
          unfold chainInv. splits; lia. }
        destruct (IH false _ _ _ _ _ _ _ Hinv' Hch' E)
          as (cs & Hcs' & Hchain & Hfin).
        exists ((curStart, curEnd) :: cs).
        split; [rewrite Hcs', Hchunks, <- app_assoc; reflexivity|].
        split.
        -- cbn [chunkChain]. splits; try assumption; try reflexivity.
        -- intros c Hc. specialize (Hfin c Hc).
           rewrite lastEnd_cons. lia.
      * injection E as <- <-. exists [(curStart, curEnd)].
        split; [assumption|]. split.
        -- cbn [chunkChain]. splits; try assumption; try reflexivity;
             try exact I.
        -- intros c [=].
Qed.

End ChunkChain.

(** A chain of chunks is contiguous, every chunk holds at least one page
    and at most [C], and every chunk but the last holds exactly [C]. *)
Lemma chunkChain_sizes (C total ep : Z) (cs : list (Z * Z)) :
  forall (first : bool) (from : Z),
    0 < C -> ep <= total ->
    chunkChain C total ep first from cs ->
    forall (before after : list (Z * Z)) (a b : Z),
      cs = before ++ (a, b) :: after ->
      a = lastEnd from before /\ from <= a < ep /\ 0 < b - a <= C /\
      (after <> [] -> b - a = C).
Proof.
  induction cs as [|[x y] rest IH];
    intros first from HC Hep Hc before after a b Hsplit.
  - destruct before; discriminate Hsplit.
  - destruct Hc as (-> & Hlt & -> & Hrest).
    destruct before as [|[u v] before'].
    + cbn [app] in Hsplit. injection Hsplit as <- <- <-.
      unfold lastEnd. cbn [map List.last].
      splits; try lia.
      * destruct first; lia.
      * destruct first; lia.
      * intros Hne. destruct rest as [|[u v] rest']; [contradiction|].
        destruct Hrest as (_ & Hlt' & _). destruct first; lia.
    + cbn [app] in Hsplit. injection Hsplit as <- <- Hrest'.
      destruct (IH false _ HC Hep Hrest before' after a b Hrest')
        as (Ha & Hb & Hc' & Hd).
      splits; try assumption; try lia.
      * rewrite Ha. symmetry. apply lastEnd_cons.
      * destruct first; lia.
Qed.

Lemma main_chain (w : World) (startPgF endPgF chunkSizeF : Z)
    (fuel : nat) (tr : trace) (r : result Z) :
  GoInt.in_range startPgF ->
  0 <= NumPage w < 2 ^ 31 ->
  0 < chunkSizeF ->
  NumPage w + chunkSizeF <= GoInt.max_int ->
  main w fuel startPgF endPgF chunkSizeF = Some (tr, r) ->
  chunkChain chunkSizeF (NumPage w) (endPage endPgF (NumPage w)) true
    (startPage startPgF endPgF) (chunksOf tr) /\
  (forall c, r = Ok c ->
             lastEnd (startPage startPgF endPgF) (chunksOf tr)
             = Z.max (startPage startPgF endPgF)
                 (endPage endPgF (NumPage w))).
Proof.
  intros Hs Htotal HC Hfit E.
  assert (Htotal' : 0 <= NumPage w <= GoInt.max_int)
    by (change (2 ^ 31) with 2147483648 in Htotal; int_bounds; lia).
  assert (HC' : 0 < chunkSizeF <= GoInt.max_int) by lia.
  pose proof (sp_range w startPgF endPgF Hs Htotal') as Hsp.
  pose proof (ep_range w endPgF Htotal') as Hep.
  assert (Hok : forall c, r = Ok c ->
                          c = Z.max 0 (endPage endPgF (NumPage w)
                                       - startPage startPgF endPgF)).
  { intros c ->.
    apply (run_ok_exact w startPgF endPgF chunkSizeF fuel tr c); assumption. }
  set (sp := startPage startPgF endPgF) in *.
  set (ep := endPage endPgF (NumPage w)) in *.
  destruct (fails w [EvNew]) eqn:Hopen.
  { rewrite main_open_fails in E by assumption. injection E as <- <-.
    split; [exact I|]. intros c [=]. }
  rewrite main_unfold in E by assumption. fold sp ep in E.
  assert (Hch : chainInv chunkSizeF (NumPage w) sp ep true (ep - sp) sp
                  (firstEnd chunkSizeF (NumPage w) sp ep) 0).
  { unfold chainInv, firstEnd. splits; try lia. intros Hpos.
    rewrite !add_small by (int_bounds; lia). lia. }
  destruct (chunkLoop_chain w chunkSizeF sp ep (ep - sp) HC' Htotal' Hfit
              Hsp Hep fuel true _ _ _ _ _ _ _
              (loopInv_init w startPgF endPgF chunkSizeF Hs Htotal' HC')
              Hch E)
    as (cs & Hcs & Hchain & Hfin).
  cbn [chunksOf app] in Hcs. rewrite Hcs.
  split; [assumption|].
  intros c Hc. destruct (Hfin c Hc) as [Hlast _].
  specialize (Hok c Hc). unfold sp, ep in *. lia.
Qed.

(** For a document of fewer than 2^31 pages and a chunk size [C > 0] with
    [totalPages + C] at most the largest [int] (no end of a chunk wraps
    around): the chunks that a run hands to [processChunk] follow the
    schedule of the loop: each starts where the one before ended, the first
    at [startPage], and below [endPage]; the first ends at
    [min(endPage, start + C)], a later one at [min(start + C, totalPages)].
    When the run returns normally, the last chunk ends exactly at
    [endPage]: the chunks then cover [startPage, endPage) and nothing
    else. *)
Theorem chunk_schedule (w : World) (startPgF endPgF chunkSizeF : Z)
    (fuel : nat) (tr : trace) (r : result Z) :
  GoInt.in_range startPgF ->
  0 <= NumPage w < 2 ^ 31 ->
  0 < chunkSizeF ->
  NumPage w + chunkSizeF <= GoInt.max_int ->
  main w fuel startPgF endPgF chunkSizeF = Some (tr, r) ->
  chunkChain chunkSizeF (NumPage w) (endPage endPgF (NumPage w)) true
    (startPage startPgF endPgF) (chunksOf tr) /\
  (forall c, r = Ok c ->
             lastEnd (startPage startPgF endPgF) (chunksOf tr)
             = Z.max (startPage startPgF endPgF)
                 (endPage endPgF (NumPage w))).
Proof. apply main_chain. Qed.

Lemma chunk_schedule_witness :
  exists tr r,
    main (calm 7) 3 0 (-1) 3 = Some (tr, r) /\
    chunkChain 3 7 (endPage (-1) 7) true (startPage 0 (-1)) (chunksOf tr) /\
    (forall c, r = Ok c ->
               lastEnd (startPage 0 (-1)) (chunksOf tr)
               = Z.max (startPage 0 (-1)) (endPage (-1) 7)).
Proof.
  eexists. eexists. split; [vm_compute; reflexivity|].
  apply (chunk_schedule (calm 7) 0 (-1) 3 3%nat).
  - int_bounds. lia.
  - cbn. lia.
  - lia.
  - cbn. int_bounds. lia.
  - vm_compute. reflexivity.
Defined.

(** For a document of fewer than 2^31 pages and a chunk size [C > 0] with
    [totalPages + C] at most the largest [int]: in every such run the
    chunks are contiguous from [startPage], every chunk starts below
    [endPage] and holds at least one page and at most [C], and every chunk
    but the last holds exactly [C] pages. *)
Theorem chunk_sizes (w : World) (startPgF endPgF chunkSizeF : Z)
    (fuel : nat) (tr : trace) (r : result Z)
    (before after : list (Z * Z)) (a b : Z) :
  GoInt.in_range startPgF ->
  0 <= NumPage w < 2 ^ 31 ->
  0 < chunkSizeF ->
  NumPage w + chunkSizeF <= GoInt.max_int ->
  main w fuel startPgF endPgF chunkSizeF = Some (tr, r) ->
  chunksOf tr = before ++ (a, b) :: after ->
  a = lastEnd (startPage startPgF endPgF) before /\
  startPage startPgF endPgF <= a < endPage endPgF (NumPage w) /\
  0 < b - a <= chunkSizeF /\
  (after <> [] -> b - a = chunkSizeF).
Proof.
  intros Hs Htotal HC Hfit E Hsplit.
  destruct (main_chain w startPgF endPgF chunkSizeF fuel tr r
              Hs Htotal HC Hfit E) as [Hchain _].
  assert (Hep : endPage endPgF (NumPage w) <= NumPage w).
  { apply endPage_bounds. lia. }
  exact (chunkChain_sizes _ _ _ _ true _ HC Hep Hchain before after a b
           Hsplit).
Qed.

Lemma chunk_sizes_witness :
  0 = lastEnd (startPage 0 (-1)) [] /\
  startPage 0 (-1) <= 0 < endPage (-1) 7 /\
  0 < 3 - 0 <= 3 /\
  ([(3, 6); (6, 7)] <> [] -> 3 - 0 = 3).
Proof.
  eapply (chunk_sizes (calm 7) 0 (-1) 3 3%nat _ _ [] [(3, 6); (6, 7)] 0 3).
  - int_bounds. lia.
  - cbn. lia.
  - lia.
  - cbn. int_bounds. lia.
  - vm_compute. reflexivity.
  - reflexivity.
Defined.

(** ** The renderer handle *)

Lemma emitsOnly_ret {A : Type} (P : event -> bool) (a : A) :
  emitsOnly P (ret a).
Proof.
  intros tr tr' r [= <- <-]. exists []. rewrite app_nil_r. auto.
Qed.

Lemma emitsOnly_panic {A : Type} (P : event -> bool) :
  emitsOnly P (@panic A).
Proof.
  intros tr tr' r [= <- <-]. exists []. rewrite app_nil_r. auto.
Qed.

Lemma emitsOnly_emit (P : event -> bool) (e : event) :
  P e = true -> emitsOnly P (emit e).
Proof.
  intros He tr tr' r [= <- <-]. exists [e]. cbn. rewrite He. auto.
Qed.

Lemma emitsOnly_checked (P : event -> bool) (w : World) (e : event) :
  P e = true -> emitsOnly P (checked w e).
Proof.
  intros He tr tr' r E. unfold checked in E.
  destruct (fails w (tr ++ [e])); injection E as <- <-.
  - exists []. rewrite app_nil_r. auto.
  - exists [e]. cbn. rewrite He. auto.
Qed.

Lemma emitsOnly_bind {A B : Type} (P : event -> bool) (m : M A)
    (f : A -> M B) :
  emitsOnly P m -> (forall a, emitsOnly P (f a)) -> emitsOnly P (bind m f).
Proof.
  intros Hm Hf tr tr' r E. unfold bind in E.
  destruct (m tr) as [tr1 [a|why]] eqn:Em.
  - destruct (Hm _ _ _ Em) as (d1 & -> & H1).
    destruct (Hf a _ _ _ E) as (d2 & -> & H2).
    exists (d1 ++ d2). rewrite app_assoc, forallb_app, H1, H2. auto.
  - injection E as <- <-. exact (Hm _ _ _ Em).
Qed.

Lemma emitsOnly_logProgressM (tot cur : Z) :
  emitsOnly pageEvent (logProgressM tot cur).
Proof.
  unfold logProgressM. destruct (logProgress tot cur).
  - apply emitsOnly_emit. reflexivity.
  - apply emitsOnly_panic.
Qed.

Lemma emitsOnly_pageLoop (w : World) (tot : Z) (k : nat) :
  forall n count, emitsOnly pageEvent (pageLoop w tot k n count).
Proof.
  induction k as [|k IH]; intros n count; cbn [pageLoop].
  - apply emitsOnly_ret.
  - repeat (apply emitsOnly_bind; [|intros _]);
      try (apply emitsOnly_checked; reflexivity).
    + destruct (GoInt.rem count pollFreq =? 0).
      * apply emitsOnly_logProgressM.
      * apply emitsOnly_ret.
    + apply emitsOnly_emit. reflexivity.
    + apply IH.
Qed.

Lemma protocol_app (a b : trace) :
  forall live,
    protocol live (a ++ b) =
    match protocol live a with
    | Some live' => protocol live' b
    | None => None
    end.
Proof.
  induction a as [|e a IH]; intros live; [reflexivity|].
  destruct e; cbn [app protocol]; destruct live; auto.
Qed.

(** Page events keep an open handle open. *)
Lemma protocol_pageEvents (d : trace) :
  forallb pageEvent d = true -> protocol true d = Some true.
Proof.
  induction d as [|e d IH]; intros H; [reflexivity|].
  cbn [forallb] in H. apply andb_true_iff in H. destruct H as [He Hd].
  destruct e; try discriminate He; cbn [protocol]; auto.
Qed.

Lemma pageLoop_not_new (w : World) (tot : Z) (k : nat) :
  forall (n count : Z) (tr tr' : trace) (e : event),
    pageLoop w tot k n count tr = (tr', Abort (Fatal e)) -> e <> EvNew.
Proof.
  induction k as [|k IH]; intros n count tr tr' e E.
  - discriminate E.
  - destruct (pageLoop_step w tot k n count tr _ E)
      as [(mid & E' & _) | (mid & a & j & E' & _ & _ & Hne & _)].
    + symmetry in E'. eapply IH. exact E'.
    + injection E' as _ <-. intros ->. apply Hne. reflexivity.
Qed.

Lemma processChunk_protocol (w : World) (tot start end_ cnt : Z)
    (tr tr' : trace) (r : result Z) :
  processChunk w start end_ cnt tot tr = (tr', r) ->
  exists d, tr' = tr ++ d /\ protocol false d = Some (leftOpen r).
Proof.
  intros E. unfold processChunk in E.
  unfold bind at 1, emit at 1 in E. unfold bind at 1 in E.
  destruct (checked_cases w EvNew (tr ++ [EvChunk start end_]))
    as [H|[_ H]]; rewrite H in E; clear H.
  2:{ injection E as <- <-. exists [EvChunk start end_]. auto. }
  unfold deferClose, bind at 1 in E.
  destruct (pageLoop w tot (Z.to_nat (end_ - start)) start cnt
              ((tr ++ [EvChunk start end_]) ++ [EvNew]))
    as [tr1 r1] eqn:EL.
  destruct (emitsOnly_pageLoop w tot _ _ _ _ _ _ EL) as (d & -> & Hd).
  apply protocol_pageEvents in Hd.
  destruct r1 as [count|[e|]].
  - unfold bind at 1 in E.
    match type of E with context [logProgressM tot ?c ?t] =>
      destruct (logProgressM_cases tot c t) as [(line & _ & H)|[_ H]];
      rewrite H in E; clear H
    end.
    + unfold ret in E. injection E as <- <-.
      exists ([EvChunk start end_; EvNew] ++ d ++ [EvProgress line; EvClose]).
      split; [rewrite <- !app_assoc; reflexivity|].
      cbn [app protocol]. rewrite protocol_app, Hd. reflexivity.
    + injection E as <- <-.
      exists ([EvChunk start end_; EvNew] ++ d ++ [EvClose]).
      split; [rewrite <- !app_assoc; reflexivity|].
      cbn [app protocol]. rewrite protocol_app, Hd. reflexivity.
  - injection E as <- <-.
    exists ([EvChunk start end_; EvNew] ++ d).
    split; [rewrite <- !app_assoc; reflexivity|].
    cbn [app protocol]. rewrite Hd. f_equal.
    pose proof (pageLoop_not_new w tot _ _ _ _ _ _ EL) as Hne.
    destruct e; try reflexivity. contradiction.
  - injection E as <- <-.
    exists ([EvChunk start end_; EvNew] ++ d ++ [EvClose]).
    split; [rewrite <- !app_assoc; reflexivity|].
    cbn [app protocol]. rewrite protocol_app, Hd. reflexivity.
Qed.

Lemma chunkLoop_protocol (w : World) (C total tot : Z) (fuel : nat) :
  forall (remPages curStart curEnd count : Z) (tr tr' : trace)
         (r : result Z),
    protocol false tr = Some false ->
    chunkLoop w C total tot fuel remPages curStart curEnd count tr
    = Some (tr', r) ->
    protocol false tr' = Some (leftOpen r).
Proof.
  induction fuel as [|fuel IH];
    intros remPages curStart curEnd count tr tr' r Hp E;
    cbn [chunkLoop] in E; destruct (remPages >? 0); try discriminate E;
    try (injection E as <- <-; exact Hp).
  destruct (processChunk w curStart curEnd count tot tr)
    as [tr1 r1] eqn:EP.
  destruct (processChunk_protocol _ _ _ _ _ _ _ _ EP) as (d & -> & Hd).
  assert (Hp1 : protocol false (tr ++ d) = Some (leftOpen r1))
    by (rewrite protocol_app, Hp; exact Hd).
  destruct r1 as [count'|why].
  - unfold intMinM in E. rewrite intMin_2 in E. unfold ret in E.
    eapply IH; [exact Hp1 | exact E].
  - injection E as <- <-. exact Hp1.
Qed.

(** The document handle is used with discipline in every run: a document
    is opened only when none is open, pages are rendered only on an open
    document, and the document of a chunk is closed before the next is
    opened, also when [logProgress] panics.  At the end of the process no
    handle is open, except when [log.Fatal] ends it inside a chunk: the
    deferred [doc.Close()] does not run then. *)
Theorem handle_protocol (w : World) (startPgF endPgF chunkSizeF : Z)
    (fuel : nat) (tr : trace) (r : result Z) :
  main w fuel startPgF endPgF chunkSizeF = Some (tr, r) ->
  protocol false tr = Some (leftOpen r).
Proof.
  intros E. unfold main in E.
  destruct (setup w startPgF endPgF chunkSizeF []) as [tr0 r0] eqn:ES.
  unfold setup in ES. unfold bind at 1 in ES.
  destruct (checked_cases w EvNew []) as [H|[_ H]]; rewrite H in ES; clear H.
  - unfold bind at 1, emit at 1 in ES. cbn [app] in ES.
    unfold intMinM in ES. rewrite intMin_3 in ES.
    unfold bind, ret in ES. injection ES as <- <-.
    eapply chunkLoop_protocol; [|exact E]. reflexivity.
  - injection ES as <- <-. injection E as <- <-. reflexivity.
Qed.

Lemma handle_protocol_witness :
  exists tr r,
    main (encoderDown 4) 2 0 (-1) 3 = Some (tr, r) /\
    protocol false tr = Some (leftOpen r).
Proof.
  eexists. eexists. split; [vm_compute; reflexivity|].
  apply (handle_protocol (encoderDown 4) 0 (-1) 3 2%nat).
  vm_compute. reflexivity.
Defined.

(** ** The output directory *)

Lemma removeEntry_head (name : string) (rest : list string) :
  ~ In name rest -> removeEntry name (name :: rest) = rest.
Proof.
  intros Hnot. unfold removeEntry. cbn [filter].
  rewrite String.eqb_refl. cbn [negb].
  induction rest as [|x rest IH]; [reflexivity|].
  cbn [filter]. destruct (String.eqb_spec x name) as [->|Hne].
  - exfalso. apply Hnot. left. reflexivity.
  - cbn [negb]. f_equal. apply IH. intros Hin. apply Hnot. right. assumption.
Qed.

Lemma removeLoop_spec (d : Disk) (names : list string) :
  NoDup names ->
  forall dir' res,
    removeLoop d names names = (dir', res) ->
    match res with
    | None => dir' = [] /\ forall x, In x names -> removeErr d x = false
    | Some (ErrRemoveAll n) =>
        exists done rest,
          names = done ++ n :: rest /\ dir' = n :: rest /\
          removeErr d n = true /\
          forall x, In x done -> removeErr d x = false
    | Some _ => False
    end.
Proof.
  induction names as [|name rest IH]; intros Hnd dir' res E.
  - injection E as <- <-. split; [reflexivity|]. intros x [].
  - inversion Hnd as [|? ? Hnot Hnd']; subst.
    cbn [removeLoop] in E. destruct (removeErr d name) eqn:Herr.
    + injection E as <- <-. exists [], rest. repeat split; auto.
      intros x [].
    + rewrite removeEntry_head in E by assumption.
      specialize (IH Hnd' _ _ E).
      destruct res as [[| | |n]|]; try contradiction.
      * destruct IH as (done & rest' & -> & -> & Hn & Hdone).
        exists (name :: done), rest'. repeat split; auto.
        intros x [<-|Hx]; auto.
      * destruct IH as [-> Hall]. split; [reflexivity|].
        intros x [<-|Hx]; auto.
Qed.

(** [removeAllFiles] on a directory: when it returns no error the directory
    is empty; when a removal fails it returns that error at once, the
    entries listed before the failing one are gone and the others are all
    still there; when the directory cannot be opened or listed nothing is
    removed. *)
Theorem removeAllFiles_spec (d : Disk) (dir dir' : list string)
    (res : option fsError) :
  NoDup dir ->
  removeAllFiles d dir = (dir', res) ->
  match res with
  | None => dir' = [] /\ forall x, In x dir -> removeErr d x = false
  | Some (ErrRemoveAll n) =>
      exists done rest,
        dir = done ++ n :: rest /\ dir' = n :: rest /\
        removeErr d n = true /\
        forall x, In x done -> removeErr d x = false
  | Some ErrOpen => openErr d = true /\ dir' = dir
  | Some ErrReaddirnames => readErr d = true /\ dir' = dir
  | Some ErrMkdirAll => False
  end.
Proof.
  intros Hnd E. unfold removeAllFiles in E.
  destruct (openErr d) eqn:Ho; [injection E as <- <-; auto|].
  destruct (readErr d) eqn:Hr; [injection E as <- <-; auto|].
  pose proof (removeLoop_spec d dir Hnd _ _ E) as H.
  destruct res as [[| | |n]|]; try contradiction; exact H.
Qed.

Lemma removeAllFiles_spec_witness :
  exists done rest,
    ["a"; "b"; "c"]%string = done ++ "b"%string :: rest /\
    ["b"; "c"]%string = "b"%string :: rest /\
    removeErr (mkDisk false false false (String.eqb "b")) "b" = true /\
    forall x, In x done ->
              removeErr (mkDisk false false false (String.eqb "b")) x = false.
Proof.
  apply (removeAllFiles_spec (mkDisk false false false (String.eqb "b"))
           ["a"; "b"; "c"]%string ["b"; "c"]%string
           (Some (ErrRemoveAll "b"))).
  - repeat constructor; cbn; intuition discriminate.
  - reflexivity.
Defined.

(** The start of [main]: when it ends without an error the output directory
    exists; with [-a] it holds exactly the entries it had before (none when
    it was just made), and without [-a] it is empty, whatever it held
    before. *)
Theorem prepareOutput_spec (d : Disk) (appendF : bool)
    (dir dir' : option (list string)) :
  prepareOutput d appendF dir = (dir', None) ->
  dir' = Some (if appendF
               then match dir with Some entries => entries | None => [] end
               else []).
Proof.
  unfold prepareOutput. destruct (mkdirErr d); [discriminate|].
  destruct appendF; cbn [negb].
  - intros [= <-]. reflexivity.
  - unfold removeAllFiles.
    destruct (openErr d); [discriminate|].
    destruct (readErr d); [discriminate|].
    set (made := match dir with Some entries => entries | None => [] end).
    assert (H : forall names cur kept,
               removeLoop d names cur = (kept, None) ->
               kept = fold_left (fun acc n => removeEntry n acc) names cur).
    { induction names as [|n names IH]; intros cur kept E.
      - injection E as <-. reflexivity.
      - cbn [removeLoop] in E. destruct (removeErr d n); [discriminate|].
        cbn [fold_left]. apply IH. assumption. }
    destruct (removeLoop d made made) as [kept err] eqn:E.
    intros [= <- ->]. f_equal. apply H in E. rewrite E.
    assert (Hempty : forall names cur,
               (forall x, In x cur -> In x names) ->
               fold_left (fun acc n => removeEntry n acc) names cur = []).
    { induction names as [|n names IHn]; intros cur Hsub.
      - destruct cur as [|x cur]; [reflexivity|].
        exfalso. apply (Hsub x). left. reflexivity.
      - cbn [fold_left]. apply IHn. intros x Hx.
        unfold removeEntry in Hx. apply filter_In in Hx.
        destruct Hx as [Hx Hne]. destruct (Hsub x Hx) as [->|Hin];
          [|assumption].
        rewrite String.eqb_refl in Hne. discriminate Hne. }
    apply Hempty. auto.
Qed.

Lemma prepareOutput_spec_witness :
  Some [] = Some (if false
                  then match Some ["x"; "y"]%string with
                       | Some entries => entries
                       | None => []
                       end
                  else []).
Proof.
  apply (prepareOutput_spec (mkDisk false false false (fun _ => false))
           false (Some ["x"; "y"]%string) (Some [])).
  reflexivity.
Defined.

(** ** When a run panics *)

Lemma noPanic_ret {A : Type} (a : A) : noPanic (ret a).
Proof. intros tr tr' r [= <- <-]. discriminate. Qed.

Lemma noPanic_emit (e : event) : noPanic (emit e).
Proof. intros tr tr' r [= <- <-]. discriminate. Qed.

Lemma noPanic_checked (w : World) (e : event) : noPanic (checked w e).
Proof.
  intros tr tr' r E. unfold checked in E.
  destruct (fails w (tr ++ [e])); injection E as <- <-; discriminate.
Qed.

Lemma noPanic_bind {A B : Type} (m : M A) (f : A -> M B) :
  noPanic m -> (forall a, noPanic (f a)) -> noPanic (bind m f).
Proof.
  intros Hm Hf tr tr' r E. unfold bind in E.
  destruct (m tr) as [tr1 [a|why]] eqn:Em.
  - exact (Hf a _ _ _ E).
  - injection E as <- <-. pose proof (Hm _ _ _ Em) as H.
    intros [= ->]. apply H. reflexivity.
Qed.

Lemma noPanic_logProgressM (tot cur : Z) :
  0 <= cur <= tot -> 0 < tot < 2 ^ 31 -> noPanic (logProgressM tot cur).
Proof.
  intros Hc Ht. unfold logProgressM.
  destruct (logProgress_returns tot cur Hc Ht) as (line & ->).
  apply noPanic_emit.
Qed.

Lemma noPanic_pageLoop (w : World) (tot : Z) (k : nat) :
  0 < tot < 2 ^ 31 ->
  forall n count,
    GoInt.in_range n -> n + Z.of_nat k <= GoInt.max_int ->
    0 <= count -> count + Z.of_nat k <= tot ->
    noPanic (pageLoop w tot k n count).
Proof.
  intros Ht. induction k as [|k IH]; intros n count Hn1 Hn2 Hc1 Hc2;
    cbn [pageLoop].
  - apply noPanic_ret.
  - assert (Ht' : 0 < tot < 2147483648) by exact Ht.
    repeat (apply noPanic_bind; [|intros _]);
      try apply noPanic_checked.
    + destruct (GoInt.rem count pollFreq =? 0).
      * apply noPanic_logProgressM; [lia|assumption].
      * apply noPanic_ret.
    + apply noPanic_emit.
    + rewrite !add_small by (int_bounds; lia).
      apply IH; int_bounds; lia.
Qed.

(** A chunk that ends within the requested range does not panic. *)
Lemma processChunk_no_panic (w : World) (tot start end_ cnt : Z)
    (tr tr' : trace) (r : result Z) :
  0 < tot < 2 ^ 31 ->
  GoInt.in_range start -> end_ <= GoInt.max_int ->
  0 <= cnt -> cnt + Z.of_nat (Z.to_nat (end_ - start)) <= tot ->
  processChunk w start end_ cnt tot tr = (tr', r) ->
  r <> Abort Panicked.
Proof.
  intros Ht Hs He Hc1 Hc2 E.
  assert (Ht' : 0 < tot < 2147483648) by exact Ht.
  unfold processChunk in E.
  unfold bind at 1, emit at 1 in E. unfold bind at 1 in E.
  destruct (checked_cases w EvNew (tr ++ [EvChunk start end_]))
    as [H|[_ H]]; rewrite H in E; clear H.
  2:{ injection E as <- <-. discriminate. }
  unfold deferClose, bind at 1 in E.
  destruct (pageLoop w tot (Z.to_nat (end_ - start)) start cnt
              ((tr ++ [EvChunk start end_]) ++ [EvNew]))
    as [tr1 r1] eqn:EL.
  pose proof (noPanic_pageLoop w tot (Z.to_nat (end_ - start)) Ht start cnt
                Hs ltac:(int_bounds; lia) Hc1 Hc2 _ _ _ EL) as Hnp.
  apply pageLoop_spec in EL; try (int_bounds; lia).
  destruct EL as (d & j & _ & _ & _ & _ & Hok & _).
  destruct r1 as [count|[e|]]; [| |contradiction].
  - destruct (Hok count eq_refl) as [_ ->].
    unfold bind at 1 in E. unfold logProgressM in E.
    destruct (logProgress_returns tot
                (cnt + Z.of_nat (Z.to_nat (end_ - start)))
                ltac:(lia) Ht) as (line & Hl).
    rewrite Hl in E. unfold emit, ret in E. injection E as <- <-.
    discriminate.
  - injection E as <- <-. discriminate.
Qed.

Lemma endsAt_step (C total ep from : Z) :
  0 < C -> ep <= total -> from < ep ->
  endsAt C total ep from ->
  Z.min (from + C) total <= ep /\
  (Z.min (from + C) total < ep ->
   endsAt C total ep (Z.min (from + C) total)).
Proof.
  intros HC Hep Hlt [Heq|Hmod].
  - split; [lia|]. intros _. left. assumption.
  - assert (Hge : C <= ep - from).
    { pose proof (Z.div_mod (ep - from) C ltac:(lia)) as Hd.
      rewrite Hmod in Hd.
      assert (0 < (ep - from) / C) by nia. nia. }
    split; [lia|]. intros Hlt'. right.
    rewrite Z.min_l by lia.
    replace (ep - (from + C)) with (ep - from + (-1) * C) by lia.
    rewrite Z.mod_add by lia. assumption.
Qed.

Section NoPanic.

Variable w : World.
Variables C sp ep : Z.

Local Abbreviation total := (NumPage w).

Hypothesis HC : 0 < C <= GoInt.max_int.
Hypothesis Htotal : 0 <= total < 2 ^ 31.
Hypothesis Hfit : total + C <= GoInt.max_int.
Hypothesis Hsp : 0 <= sp <= GoInt.max_int.
Hypothesis Hep : 0 <= ep <= total.

(** When the schedule from a state on ends at [ep], the loop does not
    panic. *)
Lemma chunkLoop_no_panic (fuel : nat) :
  forall (first : bool) (tr tr' : trace)
         (remPages curStart curEnd count : Z) (r : result Z),
    loopInv C total sp ep tr remPages curStart curEnd count ->
    chainInv C total sp ep first remPages curStart curEnd count ->
    (0 < remPages ->
     (first = true /\ ep <= curStart + C) \/ endsAt C total ep curStart) ->
    chunkLoop w C total (ep - sp) fuel remPages curStart curEnd count tr
    = Some (tr', r) ->
    r <> Abort Panicked.
Proof.
  assert (Htotal' : 0 <= total <= GoInt.max_int)
    by (change (2 ^ 31) with 2147483648 in Htotal; int_bounds; lia).
  assert (Ht31 : 0 <= total < 2147483648) by exact Htotal.
  induction fuel as [|fuel IH];
    intros first tr tr' remPages curStart curEnd count r Hinv Hch Hends E.
  - cbn [chunkLoop] in E. destruct (Z.gtb_spec remPages 0); [discriminate|].
    injection E as <- <-. discriminate.
  - destruct (Z.le_gt_cases remPages 0) as [Hle|Hpos].
    + rewrite chunkLoop_exit in E by assumption. injection E as <- <-.
      discriminate.
    + rewrite chunkLoop_unfold in E by lia.
      destruct (processChunk w curStart curEnd count (ep - sp) tr)
        as [tr1 r1] eqn:EP.
      destruct (loop_iteration w C sp ep (ep - sp) HC Htotal' Hsp Hep
                  _ _ _ _ _ _ _ Hinv ltac:(lia) EP)
        as (_ & Hcs & Hce & Hne & _ & Hnext).
      destruct Hch as (Hrem & Hcount & Hspc & HcurEnd).
      specialize (HcurEnd ltac:(lia)). specialize (Hends ltac:(lia)).
      assert (Hlt : curStart < ep) by lia.
      specialize (Hne ltac:(int_bounds; lia)).
      (* the chunk ends at or before [ep] *)
      assert (Hle : curEnd <= ep /\
                    (curEnd < ep -> endsAt C total ep curEnd)).
      { destruct first.
        - subst curEnd. split; [lia|]. intros Hlt'.
          destruct Hends as [[_ H]|H]; [lia|].
          rewrite Z.min_r in * by lia.
          destruct (endsAt_step C total ep curStart ltac:(lia) ltac:(lia)
                      Hlt H) as [_ Hn].
          rewrite Z.min_l in Hn by lia. apply Hn. lia.
        - subst curEnd. destruct Hends as [[H _]|H]; [discriminate|].
          apply endsAt_step; try lia. assumption. }
      destruct Hle as [Hle Hnextends].
      pose proof (processChunk_no_panic w (ep - sp) curStart curEnd count
                    _ _ _ ltac:(lia) ltac:(int_bounds; lia)
                    ltac:(int_bounds; lia) ltac:(lia) ltac:(lia) EP) as Hnp.
      destruct r1 as [count'|why].
      * destruct (Hnext count' eq_refl) as (Hinv' & _ & _).
        apply processChunk_spec in EP; try (int_bounds; lia).
        destruct EP as (d & j & _ & _ & _ & _ & Hok & _).
        destruct (Hok count' eq_refl) as (-> & -> & _).
        assert (Hch' : chainInv C total sp ep false
                         (GoInt.sub remPages (GoInt.sub curEnd curStart))
                         curEnd (Z.min (GoInt.add curEnd C) total)
                         (count + Z.of_nat (Z.to_nat (curEnd - curStart)))).
        { rewrite (sub_small curEnd curStart) by (int_bounds; lia).
          rewrite sub_small by (int_bounds; lia).
          rewrite add_small by (int_bounds; lia).
          unfold chainInv. splits; lia. }
        eapply (IH false); [exact Hinv' | exact Hch' | | exact E].
        rewrite (sub_small curEnd curStart) by (int_bounds; lia).
        rewrite sub_small by (int_bounds; lia).
        intros Hpos'. right. apply Hnextends. lia.
      * injection E as <- <-. assumption.
Qed.

End NoPanic.

(** In a chain of chunks whose last one ends at [ep], the first chunk is the
    only one, or the schedule from the start ends at [ep]. *)
Lemma chunkChain_ends (C total ep : Z) (cs : list (Z * Z)) :
  0 < C -> ep <= total ->
  forall (first : bool) (from : Z),
    chunkChain C total ep first from cs ->
    cs <> [] -> lastEnd from cs = ep ->
    (first = true /\ ep <= from + C) \/ endsAt C total ep from.
Proof.
  intros HC Hep. induction cs as [|[a b] rest IH];
    intros first from Hc Hne Hlast; [contradiction|].
  destruct Hc as (-> & Hlt & -> & Hrest).
  rewrite lastEnd_cons in Hlast.
  destruct rest as [|[u v] rest'].
  - unfold lastEnd in Hlast. cbn in Hlast. destruct first.
    + left. split; [reflexivity|lia].
    + right. unfold endsAt.
      destruct (Z.eq_dec ep total); [left; assumption|right].
      assert (Hepv : ep = from + C) by lia. rewrite Hepv.
      replace (from + C - from) with (0 + 1 * C) by lia.
      rewrite Z.mod_add by lia. reflexivity.
  - pose proof Hrest as (Hu & Hlt' & _).
    assert (Hb : (if first then Z.min ep (from + C)
                  else Z.min (from + C) total) = from + C)
      by (destruct first; lia).
    rewrite Hb in *.
    destruct (IH false (from + C) Hrest ltac:(discriminate) Hlast)
      as [[H _]|[H|H]]; [discriminate| |].
    + right. left. assumption.
    + right. right.
      replace (ep - from) with (ep - (from + C) + 1 * C) by lia.
      rewrite Z.mod_add by lia. assumption.
Qed.

Lemma calm_outcome (w : World) (startPgF endPgF chunkSizeF : Z)
    (fuel : nat) (tr : trace) (r : result Z) :
  (forall t, fails w t = false) ->
  GoInt.in_range startPgF ->
  0 <= NumPage w < 2 ^ 31 ->
  0 < chunkSizeF ->
  NumPage w + chunkSizeF <= GoInt.max_int ->
  main w fuel startPgF endPgF chunkSizeF = Some (tr, r) ->
  let sp := startPage startPgF endPgF in
  let ep := endPage endPgF (NumPage w) in
  (r = Abort Panicked <->
   sp + chunkSizeF < ep /\ ep < NumPage w /\ (ep - sp) mod chunkSizeF <> 0) /\
  (r <> Abort Panicked -> r = Ok (Z.max 0 (ep - sp))).
Proof.
  intros Hcalm Hs Htotal HC Hfit E sp ep.
  assert (Htotal' : 0 <= NumPage w <= GoInt.max_int)
    by (change (2 ^ 31) with 2147483648 in Htotal; int_bounds; lia).
  assert (HC' : 0 < chunkSizeF <= GoInt.max_int) by lia.
  pose proof (sp_range w startPgF endPgF Hs Htotal') as Hsp.
  pose proof (ep_range w endPgF Htotal') as Hep.
  fold sp in Hsp. fold ep in Hep.
  (* no call fails *)
  assert (Hnofatal : forall e, r <> Abort (Fatal e)).
  { intros e ->. unfold main in E.
    destruct (setup w startPgF endPgF chunkSizeF []) as [tr0 r0] eqn:ES.
    destruct (setup_cases w startPgF endPgF chunkSizeF Hs Htotal')
      as [[Hf _]|[_ Hset]]; [rewrite Hcalm in Hf; discriminate|].
    rewrite Hset in ES. injection ES as <- <-.
    apply chunkLoop_fatal in E. rewrite Hcalm in E. discriminate. }
  assert (Hokval : forall c, r = Ok c -> c = Z.max 0 (ep - sp)).
  { intros c ->.
    apply (run_ok_exact w startPgF endPgF chunkSizeF fuel tr c); assumption. }
  destruct (main_chain w startPgF endPgF chunkSizeF fuel tr r
              Hs Htotal HC Hfit E) as [Hchain Hlast].
  fold sp ep in Hchain, Hlast.
  assert (Hiff : r = Abort Panicked <->
                 sp + chunkSizeF < ep /\ ep < NumPage w /\
                 (ep - sp) mod chunkSizeF <> 0).
  { split.
    - (* a panic: the schedule does not end at [ep] *)
      intros ->.
      destruct (Z.le_gt_cases ep (sp + chunkSizeF)) as [H1|H1].
      { exfalso. revert E. rewrite main_unfold by (auto using Hcalm).
        fold sp ep. intros E.
        refine (chunkLoop_no_panic w chunkSizeF sp ep HC' Htotal Hfit Hsp Hep
                  fuel true _ _ _ _ _ _ _
                  (loopInv_init w startPgF endPgF chunkSizeF Hs Htotal' HC')
                  _ _ E eq_refl).
        - unfold chainInv, firstEnd. splits; try lia. intros Hpos.
          rewrite !add_small by (int_bounds; lia). lia.
        - intros _. left. split; [reflexivity|assumption]. }
      destruct (Z.eq_dec ep (NumPage w)) as [H2|H2].
      { exfalso. revert E. rewrite main_unfold by (auto using Hcalm).
        fold sp ep. intros E.
        refine (chunkLoop_no_panic w chunkSizeF sp ep HC' Htotal Hfit Hsp Hep
                  fuel true _ _ _ _ _ _ _
                  (loopInv_init w startPgF endPgF chunkSizeF Hs Htotal' HC')
                  _ _ E eq_refl).
        - unfold chainInv, firstEnd. splits; try lia. intros Hpos.
          rewrite !add_small by (int_bounds; lia). lia.
        - intros _. right. left. assumption. }
      destruct (Z.eq_dec ((ep - sp) mod chunkSizeF) 0) as [H3|H3].
      { exfalso. revert E. rewrite main_unfold by (auto using Hcalm).
        fold sp ep. intros E.
        refine (chunkLoop_no_panic w chunkSizeF sp ep HC' Htotal Hfit Hsp Hep
                  fuel true _ _ _ _ _ _ _
                  (loopInv_init w startPgF endPgF chunkSizeF Hs Htotal' HC')
                  _ _ E eq_refl).
        - unfold chainInv, firstEnd. splits; try lia. intros Hpos.
          rewrite !add_small by (int_bounds; lia). lia.
        - intros _. right. right. assumption. }
      splits; lia.
    - (* the schedule does not end at [ep]: the run cannot return *)
      intros (H1 & H2 & H3).
      destruct r as [c|[e|]]; [exfalso | exfalso | reflexivity].
      + specialize (Hlast c eq_refl).
        rewrite Z.max_r in Hlast by lia.
        assert (Hne : chunksOf tr <> []).
        { intros Hnil. rewrite Hnil in Hlast. unfold lastEnd in Hlast.
          cbn in Hlast. lia. }
        destruct (chunkChain_ends chunkSizeF (NumPage w) ep (chunksOf tr)
                    HC ltac:(lia) true sp Hchain Hne Hlast)
          as [[_ H]|[H|H]]; lia.
      + exact (Hnofatal e eq_refl). }
  split; [exact Hiff|].
  intros Hnp. destruct r as [c|[e|]].
  - f_equal. apply Hokval. reflexivity.
  - exfalso. exact (Hnofatal e eq_refl).
  - contradiction.
Qed.

(** For a document of fewer than 2^31 pages and a chunk size [C > 0] with
    [totalPages + C] at most the largest [int]: when no call of the
    renderer, the file system or the encoder fails, a run panics exactly
    when the requested range needs more than one chunk,
    ends before the end of the document, and its length is not a multiple
    of the chunk size: then the last chunk runs past [endPage] and
    [logProgress] panics.  In every other case the run returns normally,
    with the counter at the length of the range. *)
Theorem calm_run_outcome (w : World) (startPgF endPgF chunkSizeF : Z)
    (fuel : nat) (tr : trace) (r : result Z) :
  (forall t, fails w t = false) ->
  GoInt.in_range startPgF ->
  0 <= NumPage w < 2 ^ 31 ->
  0 < chunkSizeF ->
  NumPage w + chunkSizeF <= GoInt.max_int ->
  main w fuel startPgF endPgF chunkSizeF = Some (tr, r) ->
  let sp := startPage startPgF endPgF in
  let ep := endPage endPgF (NumPage w) in
  (r = Abort Panicked <->
   sp + chunkSizeF < ep /\ ep < NumPage w /\ (ep - sp) mod chunkSizeF <> 0) /\
  (r <> Abort Panicked -> r = Ok (Z.max 0 (ep - sp))).
Proof. apply calm_outcome. Qed.

Lemma calm_run_outcome_witness :
  exists tr r,
    main (calm 10) 2 0 5 3 = Some (tr, r) /\
    let sp := startPage 0 5 in
    let ep := endPage 5 10 in
    (r = Abort Panicked <->
     sp + 3 < ep /\ ep < 10 /\ (ep - sp) mod 3 <> 0) /\
    (r <> Abort Panicked -> r = Ok (Z.max 0 (ep - sp))).
Proof.
  eexists. eexists. split; [vm_compute; reflexivity|].
  eapply (calm_run_outcome (calm 10) 0 5 3 2%nat).
  - reflexivity.
  - int_bounds. lia.
  - cbn. lia.
  - lia.
  - cbn. int_bounds. lia.
  - vm_compute. reflexivity.
Defined.

(** ** The last line of a run *)

Lemma logProgress_full (tot : Z) :
  0 < tot < 2 ^ 31 ->
  logProgress tot tot =
  Some ((CR ++ "through pg: " ++ Fmt.d tot ++ TAB ++ "[")
        ++ "####################] 100.0%")%string.
Proof.
  intros Ht.
  destruct (logProgress_line tot tot ltac:(lia) Ht)
    as (T & filled & blank & _ & -> & -> & _ & HT0 & HT & ->).
  rewrite (ceilDiv_unique (20 * tot) tot 20) by lia.
  assert (HT' : T = 1000).
  { destruct (Z.lt_trichotomy T 1000) as [Hlt|[Heq|Hgt]]; [|assumption|].
    - assert (T * tot <= 999 * tot)
        by (apply Z.mul_le_mono_nonneg_r; lia). lia.
    - assert (1001 * tot <= T * tot)
        by (apply Z.mul_le_mono_nonneg_r; lia). lia. }
  subst T. reflexivity.
Qed.

(** A chunk that returns has printed the progress of its counter last,
    before it closed the document. *)
Lemma processChunk_last_line (w : World) (tot start end_ cnt : Z)
    (tr tr' : trace) (c : Z) :
  processChunk w start end_ cnt tot tr = (tr', Ok c) ->
  exists pre line,
    tr' = pre ++ [EvProgress line; EvClose] /\ logProgress tot c = Some line.
Proof.
  unfold processChunk. unfold bind at 1, emit at 1. unfold bind at 1.
  destruct (checked_cases w EvNew (tr ++ [EvChunk start end_])) as [H|[_ H]];
    rewrite H; clear H; [|discriminate].
  unfold deferClose, bind at 1.
  destruct (pageLoop w tot (Z.to_nat (end_ - start)) start cnt
              ((tr ++ [EvChunk start end_]) ++ [EvNew]))
    as [tr1 [count|[e|]]]; try discriminate.
  unfold bind at 1.
  destruct (logProgressM_cases tot count tr1) as [(line & Hl & H)|[_ H]];
    rewrite H; clear H; [|discriminate].
  unfold ret. intros [= <- <-]. exists tr1, line.
  split; [|assumption]. rewrite <- app_assoc. reflexivity.
Qed.

Lemma chunkLoop_last_line (w : World) (C tot : Z) (fuel : nat) :
  forall (remPages curStart curEnd count : Z) (tr tr' : trace) (c : Z),
    0 < remPages ->
    chunkLoop w C (NumPage w) tot fuel remPages curStart curEnd count tr
    = Some (tr', Ok c) ->
    exists pre line,
      tr' = pre ++ [EvProgress line; EvClose] /\
      logProgress tot c = Some line.
Proof.
  induction fuel as [|fuel IH];
    intros remPages curStart curEnd count tr tr' c Hpos E.
  - cbn [chunkLoop] in E. destruct (Z.gtb_spec remPages 0);
      [discriminate | lia].
  - rewrite chunkLoop_unfold in E by assumption.
    destruct (processChunk w curStart curEnd count tot tr)
      as [tr1 [count'|why]] eqn:EP; [|discriminate].
    destruct (Z.le_gt_cases
                (GoInt.sub remPages (GoInt.sub curEnd curStart)) 0)
      as [Hle|Hgt].
    + rewrite chunkLoop_exit in E by assumption. injection E as <- <-.
      exact (processChunk_last_line _ _ _ _ _ _ _ _ EP).
    + eapply IH; [|exact E]. lia.
Qed.

(** For a document of fewer than 2^31 pages and a chunk size [C > 0] with
    [totalPages + C] at most the largest [int]: a run on a range that is
    not empty, when it returns, has printed the full bar last: the line of [logProgress] with the number of pages of
    the range, twenty filled segments and [100.0%]; the closing of the
    document is the only call after it. *)
Theorem full_bar_at_end (w : World) (startPgF endPgF chunkSizeF : Z)
    (fuel : nat) (tr : trace) (c : Z) :
  GoInt.in_range startPgF ->
  0 <= NumPage w < 2 ^ 31 ->
  0 < chunkSizeF ->
  NumPage w + chunkSizeF <= GoInt.max_int ->
  startPage startPgF endPgF < endPage endPgF (NumPage w) ->
  main w fuel startPgF endPgF chunkSizeF = Some (tr, Ok c) ->
  exists pre,
    tr = pre ++ [EvProgress
                   ((CR ++ "through pg: " ++ Fmt.d c ++ TAB ++ "[")
                    ++ "####################] 100.0%")%string;
                 EvClose] /\
    c = endPage endPgF (NumPage w) - startPage startPgF endPgF.
Proof.
  intros Hs Htotal HC Hfit Hlt E.
  destruct (run_ok_exact w startPgF endPgF chunkSizeF fuel tr c
              Hs Htotal HC Hfit E) as (Hc & _).
  change (2 ^ 31) with 2147483648 in Htotal.
  assert (Htotal' : 0 <= NumPage w <= GoInt.max_int) by (int_bounds; lia).
  pose proof (ep_range w endPgF Htotal') as Hep.
  pose proof (sp_range w startPgF endPgF Hs Htotal') as Hsp.
  destruct (fails w [EvNew]) eqn:Hopen.
  { rewrite main_open_fails in E by assumption. discriminate E. }
  rewrite main_unfold in E by assumption.
  apply chunkLoop_last_line in E; [|lia].
  destruct E as (pre & line & -> & Hline).
  assert (Hc' : c = endPage endPgF (NumPage w) - startPage startPgF endPgF)
    by lia.
  rewrite <- Hc' in Hline.
  rewrite logProgress_full in Hline
    by (change (2 ^ 31) with 2147483648; lia).
  injection Hline as <-. exists pre. split; [reflexivity | assumption].
Qed.

Lemma full_bar_at_end_witness :
  exists tr,
    main (calm 7) 3 0 (-1) 3 = Some (tr, Ok 7) /\
    exists pre,
      tr = pre ++ [EvProgress
                     ((CR ++ "through pg: " ++ Fmt.d 7 ++ TAB ++ "[")
                      ++ "####################] 100.0%")%string;
                   EvClose] /\
      7 = endPage (-1) 7 - startPage 0 (-1).
Proof.
  eexists. split; [vm_compute; reflexivity|].
  apply (full_bar_at_end (calm 7) 0 (-1) 3 3%nat).
  - int_bounds. lia.
  - cbn. lia.
  - lia.
  - cbn. int_bounds. lia.
  - vm_compute. reflexivity.
  - vm_compute. reflexivity.
Defined.

(** ** The progress lines of a run *)

Lemma pollCounts_cons (from : Z) (k : nat) :
  pollCounts from (S k)
  = if GoInt.rem from pollFreq =? 0 then from :: pollCounts (from + 1) k
    else pollCounts (from + 1) k.
Proof. unfold pollCounts. rewrite seqZ_cons. reflexivity. Qed.

(** The page loop, when it returns, has printed the lines of the polled
    counts. *)
Lemma pageLoop_progress (w : World) (tot : Z) (k : nat) :
  forall (n count : Z) (tr tr' : trace) (c : Z),
    GoInt.min_int <= count -> count + Z.of_nat k <= GoInt.max_int ->
    pageLoop w tot k n count tr = (tr', Ok c) ->
    exists d,
      tr' = tr ++ d /\
      map Some (progressOf d) = map (logProgress tot) (pollCounts count k).
Proof.
  induction k as [|k IH]; intros n count tr tr' c Hc1 Hc2 E.
  - cbn in E. injection E as <- _. exists []. rewrite app_nil_r.
    split; reflexivity.
  - cbn [pageLoop] in E. unfold bind at 1 in E.
    destruct (checked_cases w (EvImage n) tr) as [H|[_ H]];
      rewrite H in E; clear H; [|discriminate E].
    unfold bind at 1 in E.
    destruct (checked_cases w (EvCreate n (fileName n)) (tr ++ [EvImage n]))
      as [H|[_ H]]; rewrite H in E; clear H; [|discriminate E].
    unfold bind at 1 in E.
    destruct (checked_cases w (EvEncode n (fileName n))
                ((tr ++ [EvImage n]) ++ [EvCreate n (fileName n)]))
      as [H|[_ H]]; rewrite H in E; clear H; [|discriminate E].
    unfold bind at 1 in E. rewrite <- !app_assoc in E. cbn [app] in E.
    rewrite pollCounts_cons.
    rewrite (add_small count 1) in E by (int_bounds; lia).
    destruct (GoInt.rem count pollFreq =? 0).
    + match type of E with context [logProgressM tot count ?t] =>
        destruct (logProgressM_cases tot count t) as [(line & Hl & H)|[_ H]];
        rewrite H in E; clear H; [|discriminate E]
      end.
      unfold bind at 1, emit at 1 in E.
      apply IH in E; try lia. destruct E as (d & -> & Hd).
      exists ([EvImage n; EvCreate n (fileName n); EvEncode n (fileName n);
               EvProgress line; EvFileClose n] ++ d).
      split; [rewrite <- !app_assoc; reflexivity|].
      rewrite progressOf_app. cbn [progressOf app map].
      rewrite Hd, Hl. reflexivity.
    + unfold ret at 1, bind at 1, emit at 1 in E.
      apply IH in E; try lia. destruct E as (d & -> & Hd).
      exists ([EvImage n; EvCreate n (fileName n); EvEncode n (fileName n);
               EvFileClose n] ++ d).
      split; [rewrite <- !app_assoc; reflexivity|].
      rewrite progressOf_app. cbn [progressOf app map]. assumption.
Qed.

(** A chunk that returns has printed the polled counts of its pages and,
    last, the count at its end. *)
Lemma processChunk_progress (w : World) (tot start end_ cnt : Z)
    (tr tr' : trace) (c : Z) :
  GoInt.min_int <= cnt ->
  cnt + Z.of_nat (Z.to_nat (end_ - start)) <= GoInt.max_int ->
  processChunk w start end_ cnt tot tr = (tr', Ok c) ->
  map Some (progressOf tr')
  = map Some (progressOf tr)
    ++ map (logProgress tot)
         (pollCounts cnt (Z.to_nat (end_ - start)) ++ [c]).
Proof.
  intros Hc1 Hc2.
  unfold processChunk. unfold bind at 1, emit at 1. unfold bind at 1.
  destruct (checked_cases w EvNew (tr ++ [EvChunk start end_])) as [H|[_ H]];
    rewrite H; clear H; [|discriminate].
  unfold deferClose, bind at 1.
  destruct (pageLoop w tot (Z.to_nat (end_ - start)) start cnt
              ((tr ++ [EvChunk start end_]) ++ [EvNew]))
    as [tr1 [count|[e|]]] eqn:EL; try discriminate.
  apply pageLoop_progress in EL; try assumption.
  destruct EL as (d & -> & Hd).
  unfold bind at 1.
  match goal with |- context [logProgressM tot count ?t] =>
    destruct (logProgressM_cases tot count t) as [(line & Hl & H)|[_ H]];
    rewrite H; clear H; [|discriminate]
  end.
  unfold ret. intros [= <- <-].
  rewrite !progressOf_app. cbn [progressOf]. rewrite !app_nil_r.
  rewrite !map_app. cbn [map]. rewrite Hd, Hl, <- !app_assoc. reflexivity.
Qed.

Section Progress.

Variable w : World.
Variables C sp ep tot : Z.

Local Abbreviation total := (NumPage w).

Hypothesis HC : 0 < C <= GoInt.max_int.
Hypothesis Htotal : 0 <= total <= GoInt.max_int.
Hypothesis Hfit : total + C <= GoInt.max_int.
Hypothesis Hsp : 0 <= sp <= GoInt.max_int.
Hypothesis Hep : 0 <= ep <= total.

Lemma chunkLoop_progress (fuel : nat) :
  forall (first : bool) (tr tr' : trace)
         (remPages curStart curEnd count c : Z),
    loopInv C total sp ep tr remPages curStart curEnd count ->
    chainInv C total sp ep first remPages curStart curEnd count ->
    chunkLoop w C total tot fuel remPages curStart curEnd count tr
    = Some (tr', Ok c) ->
    exists cs,
      chunksOf tr' = chunksOf tr ++ cs /\
      map Some (progressOf tr')
      = map Some (progressOf tr) ++ map (logProgress tot) (reported sp cs).
Proof.
  induction fuel as [|fuel IH];
    intros first tr tr' remPages curStart curEnd count c Hinv Hch E.
  - cbn [chunkLoop] in E. destruct (Z.gtb_spec remPages 0); [discriminate|].
    injection E as <- _. exists []. rewrite !app_nil_r. split; reflexivity.
  - destruct (Z.le_gt_cases remPages 0) as [Hle|Hpos].
    + rewrite chunkLoop_exit in E by assumption. injection E as <- _.
      exists []. rewrite !app_nil_r. split; reflexivity.
    + rewrite chunkLoop_unfold in E by lia.
      destruct (processChunk w curStart curEnd count tot tr)
        as [tr1 [count'|why]] eqn:EP; [|discriminate E].
      destruct (loop_iteration w C sp ep tot HC Htotal Hsp Hep
                  _ _ _ _ _ _ _ Hinv ltac:(lia) EP)
        as (Hchunks & Hcs & Hce & Hne & _ & Hnext).
      destruct Hch as (Hrem & Hcount & Hspc & HcurEnd).
      specialize (HcurEnd ltac:(lia)).
      specialize (Hne ltac:(int_bounds; lia)).
      destruct (Hnext count' eq_refl) as (Hinv' & _ & _).
      pose proof EP as EP'.
      apply processChunk_spec in EP'; try (int_bounds; lia).
      destruct EP' as (d & j & _ & _ & _ & _ & Hok & _).
      destruct (Hok count' eq_refl) as (Hj & Hc' & _). subst j.
      apply processChunk_progress in EP; try (int_bounds; lia).
      assert (Hch' : chainInv C total sp ep false
                       (GoInt.sub remPages (GoInt.sub curEnd curStart))
                       curEnd (Z.min (GoInt.add curEnd C) total) count').
      { rewrite (sub_small curEnd curStart) by (int_bounds; lia).
        rewrite sub_small by (int_bounds; lia).
        rewrite add_small by (int_bounds; lia).
        unfold chainInv. splits; lia. }
      destruct (IH false _ _ _ _ _ _ _ Hinv' Hch' E) as (cs & Hcs' & Hpr).
      exists ((curStart, curEnd) :: cs).
      split; [rewrite Hcs', Hchunks, <- app_assoc; reflexivity|].
      assert (Hend : count' = curEnd - sp) by lia.
      rewrite Hpr, EP, Hend, Hcount. unfold reported.
      cbn [flat_map fst snd].
      rewrite <- app_assoc, (map_app (logProgress tot) (_ ++ _)).
      reflexivity.
Qed.

End Progress.

(** For a document of fewer than 2^31 pages and a chunk size [C > 0] with
    [totalPages + C] at most the largest [int], the output of a run that
    returns: the progress lines printed are
    exactly those of the reported counts of its chunks, in order: inside a
    chunk, after the encoding of a page, the count of the pages done before
    that page when [pollFreq] divides that count; at the end of each chunk
    the count of all pages done. *)
Theorem progress_lines (w : World) (startPgF endPgF chunkSizeF : Z)
    (fuel : nat) (tr : trace) (c : Z) :
  GoInt.in_range startPgF ->
  0 <= NumPage w < 2 ^ 31 ->
  0 < chunkSizeF ->
  NumPage w + chunkSizeF <= GoInt.max_int ->
  main w fuel startPgF endPgF chunkSizeF = Some (tr, Ok c) ->
  map Some (progressOf tr)
  = map (logProgress (endPage endPgF (NumPage w) - startPage startPgF endPgF))
      (reported (startPage startPgF endPgF) (chunksOf tr)).
Proof.
  intros Hs Htotal HC Hfit E.
  change (2 ^ 31) with 2147483648 in Htotal.
  assert (Htotal' : 0 <= NumPage w <= GoInt.max_int) by (int_bounds; lia).
  assert (HC' : 0 < chunkSizeF <= GoInt.max_int) by lia.
  pose proof (sp_range w startPgF endPgF Hs Htotal') as Hsp.
  pose proof (ep_range w endPgF Htotal') as Hep.
  set (sp := startPage startPgF endPgF) in *.
  set (ep := endPage endPgF (NumPage w)) in *.
  destruct (fails w [EvNew]) eqn:Hopen.
  { rewrite main_open_fails in E by assumption. discriminate E. }
  rewrite main_unfold in E by assumption. fold sp ep in E.
  assert (Hch : chainInv chunkSizeF (NumPage w) sp ep true (ep - sp) sp
                  (firstEnd chunkSizeF (NumPage w) sp ep) 0).
  { unfold chainInv, firstEnd. splits; try lia. intros Hpos.
    rewrite !add_small by (int_bounds; lia). lia. }
  destruct (chunkLoop_progress w chunkSizeF sp ep (ep - sp) HC' Htotal' Hfit
              Hsp Hep fuel true _ _ _ _ _ _ _
              (loopInv_init w startPgF endPgF chunkSizeF Hs Htotal' HC')
              Hch E)
    as (cs & Hcs & Hpr).
  cbn [chunksOf progressOf app map] in Hcs, Hpr. rewrite Hcs. exact Hpr.
Qed.

Lemma progress_lines_witness :
  exists tr,
    main (calm 7) 3 0 (-1) 3 = Some (tr, Ok 7) /\
    map Some (progressOf tr)
    = map (logProgress (endPage (-1) 7 - startPage 0 (-1)))
        (reported (startPage 0 (-1)) (chunksOf tr)).
Proof.
  eexists. split; [vm_compute; reflexivity|].
  apply (progress_lines (calm 7) 0 (-1) 3 3%nat _ 7).
  - int_bounds. lia.
  - cbn. lia.
  - lia.
  - cbn. int_bounds. lia.
  - vm_compute. reflexivity.
Defined.

(** * The first revision *)

Section FirstRevisionFacts.

Import FirstRevision.

Lemma libOf_app (a b : history) : libOf (a ++ b) = libOf a ++ libOf b.
Proof.
  induction a as [|[e|name args] a IH]; cbn; rewrite ?IH; reflexivity.
Qed.

Lemma commandsOf_app (a b : history) :
  commandsOf (a ++ b) = commandsOf a ++ commandsOf b.
Proof.
  induction a as [|[e|name args] a IH]; cbn; rewrite ?IH; reflexivity.
Qed.

Lemma first_intMin (a b : Z) : intMin a b = Z.min a b.
Proof. unfold intMin. destruct (Z.ltb_spec a b); lia. Qed.

(** *** Commands and pages *)

Lemma cleared_app (h : Host) (b1 b2 : Z) (d1 d2 : history) :
  cleared h b1 d1 -> cleared h b2 d2 -> cleared h (b1 + b2) (d1 ++ d2).
Proof.
  intros [H1 N1] [H2 N2]. split.
  - intros Hos. specialize (H1 Hos). specialize (H2 Hos).
    rewrite libOf_app, renderedOf_app, commandsOf_app, !length_app. lia.
  - intros Hno. rewrite commandsOf_app, N1, N2 by assumption. reflexivity.
Qed.

Lemma cleared_weaken (h : Host) (b b' : Z) (d : history) :
  b <= b' -> cleared h b d -> cleared h b' d.
Proof.
  intros Hb [H1 N1]. split; [|assumption].
  intros Hos. specialize (H1 Hos). lia.
Qed.

Lemma cleared_silent (h : Host) (d : history) :
  renderedOf (libOf d) = [] -> commandsOf d = [] -> cleared h 0 d.
Proof.
  intros Hr Hc. split.
  - intros _. rewrite Hr, Hc. cbn. lia.
  - intros _. assumption.
Qed.

(** *** The steps *)

Lemma call_checked_cases (h : Host) (c : call) (hist : history) :
  (fails h (hist ++ [c]) = false /\
   checked h c hist = (hist ++ [c], Returned tt)) \/
  (fails h (hist ++ [c]) = true /\ checked h c hist = (hist, Exited c)).
Proof. unfold checked. destruct (fails h (hist ++ [c])); auto. Qed.

Lemma attempt_cases (h : Host) (c : call) (hist : history) :
  (fails h (hist ++ [c]) = false /\
   attempt h c hist = (hist ++ [c], Returned tt)) \/
  (fails h (hist ++ [c]) = true /\ attempt h c hist = (hist, Returned tt)).
Proof. unfold attempt. destruct (fails h (hist ++ [c])); auto. Qed.

(** [clearTerminal] runs one command, or none; it ends the process only on
    linux. *)
Lemma clearTerminal_cases (h : Host) (hist : history) :
  (exists name args,
      clearTerminal h hist = (hist ++ [Run name args], Returned tt) /\
      fails h (hist ++ [Run name args]) = false) \/
  (clearTerminal h hist = (hist, Returned tt) /\
   GOOS h <> "linux"%string) \/
  (clearTerminal h hist = (hist, Exited (Run "clear" [])) /\
   GOOS h = "linux"%string /\
   fails h (hist ++ [Run "clear" []]) = true).
Proof.
  unfold clearTerminal.
  destruct (String.eqb_spec (GOOS h) "linux") as [Hos|Hos].
  { destruct (call_checked_cases h (Run "clear" []) hist) as [[Hf H]|[Hf H]];
      rewrite H.
    - left. exists "clear"%string, []. split; [reflexivity | assumption].
    - right. right. splits; [reflexivity | assumption | assumption]. }
  destruct (String.eqb_spec (GOOS h) "darwin") as [Hd|Hd].
  { destruct (attempt_cases h (Run "clear" []) hist) as [[Hf H]|[Hf H]];
      rewrite H.
    - left. exists "clear"%string, []. split; [reflexivity | assumption].
    - right. left. split; [reflexivity | assumption]. }
  destruct (String.eqb_spec (GOOS h) "windows") as [Hw|Hw].
  { destruct (attempt_cases h (Run "cmd" ["/c"; "cls"]%string) hist)
      as [[Hf H]|[Hf H]]; rewrite H.
    - left. exists "cmd"%string, ["/c"; "cls"]%string.
      split; [reflexivity | assumption].
    - right. left. split; [reflexivity | assumption]. }
  right. left. split; [reflexivity | assumption].
Qed.

(** [logProgress] prints its line after at most one command; on linux, once
    more than five pages are counted, after exactly one. *)
Lemma logProgress_cases (h : Host) (n c : Z) (hist : history) :
  (exists cl line,
      logProgress h n c hist
      = (hist ++ cl ++ [Lib (EvProgress line)], Returned tt) /\
      libOf cl = [] /\
      (GOOS h = "linux"%string -> 5 < c ->
       List.length (commandsOf cl) = 1%nat) /\
      (noCommands h -> commandsOf cl = [])) \/
  (logProgress h n c hist = (hist, Exited (Run "clear" [])) /\
   GOOS h = "linux"%string /\ 5 < c).
Proof.
  unfold logProgress, bind. destruct (Z.gtb_spec c 5) as [Hc|Hc].
  - destruct (clearTerminal_cases h hist)
      as [(name & args & H & Hf)|[[H Hos]|(H & Hos & Hf)]]; rewrite H.
    + left. exists [Run name args]. eexists. unfold emit.
      rewrite <- app_assoc. splits; [reflexivity | reflexivity | | ].
      * reflexivity.
      * intros Hno. rewrite Hno in Hf. discriminate.
    + left. exists []. eexists. unfold emit. cbn [app].
      splits; [reflexivity | reflexivity | | reflexivity].
      intros Hl. contradiction.
    + right. splits; [reflexivity | assumption | lia].
  - left. exists []. eexists. unfold ret, emit. cbn [app].
    splits; [reflexivity | reflexivity | | reflexivity].
    intros _ Hl. lia.
Qed.

(** The commands of one turn of the page loop pay for its page. *)
Lemma cleared_turn (h : Host) (count : Z) (cl rest : history) :
  libOf cl = [] ->
  (GOOS h = "linux"%string -> 5 < count ->
   List.length (commandsOf cl) = 1%nat) ->
  (noCommands h -> commandsOf cl = []) ->
  commandsOf rest = [] ->
  (List.length (renderedOf (libOf rest)) <= 1)%nat ->
  cleared h (if 5 <? count then 0 else 1) (cl ++ rest).
Proof.
  intros Hlib Hlin Hno Hrest Hren. split.
  - intros Hos. rewrite libOf_app, Hlib, commandsOf_app, Hrest, app_nil_r.
    cbn [app]. destruct (Z.ltb_spec 5 count) as [Hc|Hc].
    + rewrite (Hlin Hos Hc). lia.
    + lia.
  - intros Hn. rewrite commandsOf_app, Hrest, (Hno Hn). reflexivity.
Qed.

(** [state] adds up like [pagesState]. *)
Lemma state_shift {A : Type} (h : Host) (from cnt : Z) (i j : nat)
    (a b : history) (r : outcome A) :
  donePages from i (libOf a) ->
  state h (from + Z.of_nat i) (cnt + Z.of_nat i) j b r ->
  state h from cnt (i + j) (a ++ b) r.
Proof.
  intros Ha Hb. destruct r as [c|[e|name args]]; cbn [state] in *;
    rewrite libOf_app.
  - apply donePages_app; assumption.
  - apply pagesState_shift; assumption.
  - destruct Hb as (Hd & Hos & Hn & Hargs & Hc).
    splits; try assumption; [apply donePages_app; assumption | lia].
Qed.

(** [state] looks at a history only through its page events. *)
Lemma state_proj {A : Type} (h : Host) (from cnt : Z) (j : nat)
    (d d' : history) (r : outcome A) :
  renderedOf (libOf d') = renderedOf (libOf d) ->
  createdOf (libOf d') = createdOf (libOf d) ->
  encodedOf (libOf d') = encodedOf (libOf d) ->
  state h from cnt j d r -> state h from cnt j d' r.
Proof.
  intros H1 H2 H3. destruct r as [c|[e|name args]]; cbn [state].
  - unfold donePages. rewrite H1, H2, H3. auto.
  - apply pagesState_proj; assumption.
  - unfold donePages. rewrite H1, H2, H3. auto.
Qed.

(** One turn of the page loop, up to the recursive call. *)
Lemma first_pageLoop_step (h : Host) (k : nat) (n count : Z)
    (hist : history) (res : history * outcome Z) :
  pageLoop h (S k) n count hist = res ->
  (exists mid,
      res = pageLoop h k (GoInt.add n 1) (GoInt.add count 1) (hist ++ mid)
      /\ donePages n 1 (libOf mid) /\ chunksOf (libOf mid) = []
      /\ cleared h (if 5 <? count then 0 else 1) mid) \/
  (exists mid f,
      res = (hist ++ mid, Exited f) /\
      state h n count 0 mid (@Exited Z f) /\
      chunksOf (libOf mid) = [] /\
      f <> Lib EvNew /\
      cleared h (if 5 <? count then 0 else 1) mid).
Proof.
  intros E. cbn [pageLoop] in E. unfold bind at 1 in E.
  destruct (logProgress_cases h n count hist)
    as [(cl & line & H & Hlib & Hlin & Hno)|(H & Hos & Hc)];
    rewrite H in E; clear H.
  2:{ right. exists [], (Run "clear" []). rewrite app_nil_r.
      split; [now symmetry|]. split.
      { cbn [state]. splits; try reflexivity; try assumption; try lia.
        apply donePages_nil. }
      splits; try reflexivity; try discriminate.
      apply cleared_weaken with 0; [destruct (5 <? count); lia|].
      apply cleared_silent; reflexivity. }
  set (pre := cl ++ [Lib (EvProgress line)]) in *.
  assert (Hpre : libOf pre = [EvProgress line])
    by (unfold pre; rewrite libOf_app, Hlib; reflexivity).
  assert (Hcl : forall rest,
             commandsOf rest = [] ->
             (List.length (renderedOf (libOf rest)) <= 1)%nat ->
             cleared h (if 5 <? count then 0 else 1)
               (cl ++ Lib (EvProgress line) :: rest)).
  { intros rest Hr Hl.
    apply (cleared_turn h count cl (Lib (EvProgress line) :: rest));
      assumption. }
  unfold bind at 1 in E.
  destruct (call_checked_cases h (Lib (EvImage n)) (hist ++ pre))
    as [[_ H]|[Hf H]]; rewrite H in E; clear H.
  2:{ right. exists pre, (Lib (EvImage n)).
      splits; try (now symmetry); try discriminate.
      - cbn [state]. rewrite Hpre. cbn. split; [lia | apply donePages_nil].
      - rewrite Hpre. reflexivity.
      - apply (Hcl []); [reflexivity | cbn; lia]. }
  unfold bind at 1 in E.
  destruct (call_checked_cases h (Lib (EvCreate n (fileName n)))
              ((hist ++ pre) ++ [Lib (EvImage n)]))
    as [[_ H]|[Hf H]]; rewrite H in E; clear H.
  2:{ right. exists (pre ++ [Lib (EvImage n)]), (Lib (EvCreate n (fileName n))).
      rewrite app_assoc.
      splits; try (now symmetry); try discriminate.
      - cbn [state]. rewrite libOf_app, Hpre. cbn.
        rewrite Z.add_0_r. splits; reflexivity.
      - rewrite libOf_app, Hpre. reflexivity.
      - unfold pre. rewrite <- app_assoc. cbn [app].
        apply (Hcl [Lib (EvImage n)]); [reflexivity | cbn; lia]. }
  unfold bind at 1 in E.
  destruct (call_checked_cases h (Lib (EvEncode n (fileName n)))
              (((hist ++ pre) ++ [Lib (EvImage n)])
               ++ [Lib (EvCreate n (fileName n))]))
    as [[_ H]|[Hf H]]; rewrite H in E; clear H.
  2:{ right.
      exists (pre ++ [Lib (EvImage n); Lib (EvCreate n (fileName n))]),
        (Lib (EvEncode n (fileName n))).
      rewrite <- !app_assoc in E. cbn [app] in E.
      splits; try (now symmetry); try discriminate.
      - cbn [state]. rewrite libOf_app, Hpre. cbn.
        rewrite Z.add_0_r. splits; reflexivity.
      - rewrite libOf_app, Hpre. reflexivity.
      - unfold pre. rewrite <- app_assoc. cbn [app].
        apply (Hcl [Lib (EvImage n); Lib (EvCreate n (fileName n))]);
          [reflexivity | cbn; lia]. }
  unfold bind at 1, emit at 1 in E. rewrite <- !app_assoc in E.
  cbn [app] in E.
  left.
  exists (pre ++ [Lib (EvImage n); Lib (EvCreate n (fileName n));
                  Lib (EvEncode n (fileName n)); Lib (EvFileClose n)]).
  splits.
  - now symmetry.
  - rewrite libOf_app, Hpre. unfold donePages. cbn.
    rewrite Z.add_0_r. splits; reflexivity.
  - rewrite libOf_app, Hpre. reflexivity.
  - unfold pre. rewrite <- app_assoc. cbn [app].
    apply (Hcl [Lib (EvImage n); Lib (EvCreate n (fileName n));
                Lib (EvEncode n (fileName n)); Lib (EvFileClose n)]);
      [reflexivity | cbn; lia].
Qed.

(** The page loop of the first revision: it extends the history by the
    complete processing of the pages [n ..], all [k] of them when it
    returns. *)
Lemma first_pageLoop_spec (h : Host) (k : nat) :
  forall (n count : Z) (hist hist' : history) (r : outcome Z),
    GoInt.min_int <= n -> n + Z.of_nat k <= GoInt.max_int ->
    GoInt.min_int <= count -> count + Z.of_nat k <= GoInt.max_int ->
    pageLoop h k n count hist = (hist', r) ->
    exists (d : history) (j : nat),
      hist' = hist ++ d /\ chunksOf (libOf d) = [] /\ (j <= k)%nat /\
      state h n count j d r /\
      (forall c, r = Returned c -> j = k /\ c = count + Z.of_nat k) /\
      (forall f, r = Exited f -> f <> Lib EvNew /\ (j < k)%nat) /\
      cleared h (Z.max 0 (6 - count)) d.
Proof.
  induction k as [|k IH]; intros n count hist hist' r Hn1 Hn2 Hc1 Hc2 E.
  - cbn in E. injection E as <- <-. exists [], 0%nat.
    rewrite app_nil_r. splits; try reflexivity; try lia.
    + apply donePages_nil.
    + intros c [= <-]. lia.
    + intros f [=].
    + apply cleared_weaken with 0; [lia|].
      apply cleared_silent; reflexivity.
  - destruct (first_pageLoop_step h k n count hist _ E)
      as [(mid & E' & Hmid & Hch & Hcl)
         | (mid & f & E' & Hst & Hch & Hne & Hcl)].
    + rewrite !add_small in E' by (int_bounds; lia).
      symmetry in E'.
      apply IH in E'; try lia.
      destruct E' as (d & j & -> & Hd & Hjk & Hst & Hok & Hne & Hcl').
      exists (mid ++ d), (1 + j)%nat.
      rewrite app_assoc, libOf_app, chunksOf_app, Hch, Hd.
      splits; try reflexivity; try lia.
      * apply state_shift; [assumption|].
        replace (n + Z.of_nat 1) with (n + 1) by lia.
        replace (count + Z.of_nat 1) with (count + 1) by lia. assumption.
      * intros c Hc. destruct (Hok c Hc). lia.
      * intros f Hf. destruct (Hne f Hf). split; [assumption | lia].
      * apply cleared_weaken
          with ((if 5 <? count then 0 else 1) + Z.max 0 (6 - (count + 1))).
        { destruct (Z.ltb_spec 5 count); lia. }
        apply cleared_app; assumption.
    + injection E' as -> ->. exists mid, 0%nat.
      splits; try reflexivity; try lia; try assumption.
      * intros c [=].
      * intros f' [= ->]. split; [assumption | lia].
      * apply cleared_weaken with (if 5 <? count then 0 else 1);
          [|assumption].
        destruct (Z.ltb_spec 5 count); lia.
Qed.

Lemma first_processChunk_spec (h : Host) (start end_ cnt : Z)
    (hist hist' : history) (r : outcome Z) :
  GoInt.in_range start -> end_ <= GoInt.max_int ->
  GoInt.min_int <= cnt ->
  cnt + Z.of_nat (Z.to_nat (end_ - start)) <= GoInt.max_int ->
  processChunk h start end_ cnt hist = (hist', r) ->
  exists (d : history) (j : nat),
    hist' = hist ++ d /\ chunksOf (libOf d) = [(start, end_)] /\
    (j <= Z.to_nat (end_ - start))%nat /\
    state h start cnt j d r /\
    (forall c, r = Returned c ->
               j = Z.to_nat (end_ - start) /\ c = cnt + Z.of_nat j) /\
    (forall f, r = Exited f -> f <> Lib EvNew ->
               (j < Z.to_nat (end_ - start))%nat) /\
    cleared h (Z.max 0 (6 - cnt)) d.
Proof.
  intros Hs He Hc1 Hc2 E.
  unfold processChunk in E. unfold bind at 1, emit at 1 in E.
  unfold bind at 1 in E.
  destruct (call_checked_cases h (Lib EvNew)
              (hist ++ [Lib (EvChunk start end_)])) as [[_ H]|[_ H]];
    rewrite H in E; clear H.
  2:{ injection E as <- <-. exists [Lib (EvChunk start end_)], 0%nat.
      splits; try reflexivity; try lia.
      - apply donePages_nil.
      - intros c [=].
      - intros f [= <-] Hx. now contradiction Hx.
      - apply cleared_weaken with 0; [lia|].
        apply cleared_silent; reflexivity. }
  unfold deferClose in E.
  destruct (pageLoop h (Z.to_nat (end_ - start)) start cnt
              ((hist ++ [Lib (EvChunk start end_)]) ++ [Lib EvNew]))
    as [hist1 r1] eqn:EL.
  apply first_pageLoop_spec in EL; try (unfold GoInt.in_range in Hs; lia).
  destruct EL as (d & j & -> & Hch & Hj & Hst & Hok & Hne & Hcl).
  assert (Hfront : cleared h 0 [Lib (EvChunk start end_); Lib EvNew])
    by (apply cleared_silent; reflexivity).
  destruct r1 as [count|f].
  - destruct (Hok count eq_refl) as [-> ->].
    injection E as <- <-.
    exists ([Lib (EvChunk start end_); Lib EvNew] ++ d ++ [Lib EvClose]).
    exists (Z.to_nat (end_ - start)).
    splits.
    + rewrite <- !app_assoc. reflexivity.
    + rewrite !libOf_app, !chunksOf_app, Hch. reflexivity.
    + lia.
    + eapply state_proj; [ | | | exact Hst];
        rewrite !libOf_app;
        [rewrite !renderedOf_app | rewrite !createdOf_app
         | rewrite !encodedOf_app]; cbn; rewrite app_nil_r; reflexivity.
    + intros c [= <-]. split; reflexivity.
    + intros f [=].
    + apply cleared_weaken with (0 + (Z.max 0 (6 - cnt) + 0)); [lia|].
      apply cleared_app; [assumption|].
      apply cleared_app; [assumption|].
      apply cleared_silent; reflexivity.
  - injection E as <- <-.
    exists ([Lib (EvChunk start end_); Lib EvNew] ++ d), j.
    splits.
    + rewrite <- !app_assoc. reflexivity.
    + rewrite !libOf_app, !chunksOf_app, Hch. reflexivity.
    + lia.
    + eapply state_proj; [ | | | exact Hst]; reflexivity.
    + intros c [=].
    + intros f' [= <-] _. apply (Hne f eq_refl).
    + apply cleared_weaken with (0 + Z.max 0 (6 - cnt)); [lia|].
      apply cleared_app; assumption.
Qed.

(** *** The chunk loop *)

Lemma first_chunkLoop_exit (h : Host) (C total : Z) (fuel : nat)
    (remPages curStart curEnd count : Z) (hist : history) :
  remPages <= 0 ->
  chunkLoop h C total fuel remPages curStart curEnd count hist
  = Some (hist, Returned count).
Proof.
  intros H. destruct fuel; cbn [chunkLoop];
    destruct (Z.gtb_spec remPages 0); (lia || reflexivity).
Qed.

Lemma first_chunkLoop_unfold (h : Host) (C total : Z) (fuel : nat)
    (remPages curStart curEnd count : Z) (hist : history) :
  0 < remPages ->
  chunkLoop h C total (S fuel) remPages curStart curEnd count hist
  = match processChunk h curStart curEnd count hist with
    | (hist1, Returned count') =>
        chunkLoop h C total fuel
          (GoInt.sub remPages (GoInt.sub curEnd curStart))
          curEnd (intMin (GoInt.add curEnd C) total) count' hist1
    | (hist1, Exited c) => Some (hist1, Exited c)
    end.
Proof.
  intros H. cbn [chunkLoop]. destruct (Z.gtb_spec remPages 0);
    [reflexivity | lia].
Qed.

Section FirstLoop.

Variable h : Host.
Variables C sp ep : Z.

Local Abbreviation pages := (NumPage h).

Hypothesis HC : 0 < C.
Hypothesis Htotal : 0 <= pages.
Hypothesis Hfit : pages + C <= GoInt.max_int.
Hypothesis Hsp : 0 <= sp <= GoInt.max_int.
Hypothesis Hep : 0 <= ep <= pages.

(** One turn of the chunk loop. *)
Lemma first_iteration (hist hist1 : history)
    (remPages curStart curEnd count : Z) (r1 : outcome Z) :
  loopInv h C pages sp ep hist remPages curStart curEnd count ->
  0 < remPages ->
  processChunk h curStart curEnd count hist = (hist1, r1) ->
  chunksOf (libOf hist1) = chunksOf (libOf hist) ++ [(curStart, curEnd)] /\
  curStart < ep /\ curEnd = Z.min (curStart + C) pages /\
  cleared h 6 hist1 /\
  (exists j' : nat,
      state h sp 0 j' hist1 r1 /\ sp + Z.of_nat j' <= pages /\
      (forall f, r1 = Exited f -> f <> Lib EvNew ->
                 sp + Z.of_nat j' < pages)) /\
  (forall c', r1 = Returned c' ->
      c' = curEnd - sp /\
      curStart < curEnd /\
      GoInt.sub remPages (GoInt.sub curEnd curStart)
      = remPages - (curEnd - curStart) /\
      loopInv h C pages sp ep hist1
        (GoInt.sub remPages (GoInt.sub curEnd curStart))
        curEnd (intMin (GoInt.add curEnd C) pages) c').
Proof.
  intros (j & Hdone & -> & Hin & -> & -> & HcE & Hcl) Hrem EP.
  specialize (HcE Hrem).
  assert (Hlen : List.length (renderedOf (libOf hist)) = j).
  { destruct Hdone as (-> & _). apply seqZ_length. }
  apply first_processChunk_spec in EP; try (int_bounds; lia).
  destruct EP as (d & j2 & -> & Hch & Hj2 & Hst & Hok & Hne & Hcl').
  assert (Hcl1 : cleared h 6 (hist ++ d)).
  { destruct Hcl as [L1 N1]. destruct Hcl' as [L2 N2]. split.
    - intros Hos. specialize (L1 Hos). specialize (L2 Hos).
      rewrite libOf_app, renderedOf_app, commandsOf_app, !length_app.
      rewrite Hlen in *. lia.
    - intros Hno. rewrite commandsOf_app, N1, N2 by assumption.
      reflexivity. }
  assert (Hst1 : state h sp 0 (j + j2) (hist ++ d) r1).
  { apply state_shift; [assumption|].
    replace (0 + Z.of_nat j) with (Z.of_nat j) by lia. assumption. }
  splits.
  - rewrite libOf_app, chunksOf_app, Hch. reflexivity.
  - lia.
  - assumption.
  - assumption.
  - exists (j + j2)%nat. splits; [assumption | lia |].
    intros f Hf Hnew. specialize (Hne f Hf Hnew). lia.
  - intros c' ->. destruct (Hok c' eq_refl) as [-> ->].
    rewrite (sub_small curEnd) by (int_bounds; lia).
    rewrite sub_small by (int_bounds; lia).
    rewrite add_small by (int_bounds; lia).
    rewrite first_intMin.
    splits; try lia.
    exists (j + Z.to_nat (curEnd - (sp + Z.of_nat j)))%nat.
    splits; try lia; try assumption.
Qed.

(** The loop from a state on: the chunks follow the schedule in which every
    chunk ends at [min(start + C, pages)]; the pages from [sp] on are
    processed in order; when the loop returns, the counter is the distance
    from [sp] to the end of the last chunk, which is at or after [ep]. *)
Lemma first_chunkLoop_spec (fuel : nat) :
  forall (hist hist' : history) (remPages curStart curEnd count : Z)
         (r : outcome Z),
    loopInv h C pages sp ep hist remPages curStart curEnd count ->
    chunkLoop h C pages fuel remPages curStart curEnd count hist
    = Some (hist', r) ->
    exists (cs : list (Z * Z)) (j : nat),
      chunksOf (libOf hist') = chunksOf (libOf hist) ++ cs /\
      chunkChain C pages ep false curStart cs /\
      state h sp 0 j hist' r /\
      (j = 0%nat \/ sp + Z.of_nat j <= pages) /\
      (forall f, r = Exited f -> f <> Lib EvNew ->
                 sp + Z.of_nat j < pages) /\
      (forall c, r = Returned c ->
                 c = Z.of_nat j /\ sp + c = lastEnd curStart cs /\
                 ep <= lastEnd curStart cs) /\
      cleared h 6 hist'.
Proof.
  induction fuel as [|fuel IH];
    intros hist hist' remPages curStart curEnd count r Hinv E.
  - cbn [chunkLoop] in E. destruct (Z.gtb_spec remPages 0); [discriminate|].
    injection E as <- <-.
    destruct Hinv as (j & Hdone & -> & Hin & -> & -> & HcE & Hcl).
    exists [], j. rewrite app_nil_r.
    splits; try reflexivity; try assumption; try exact I.
    + intros f [=].
    + intros c [= <-]. unfold lastEnd. cbn. lia.
  - destruct (Z.le_gt_cases remPages 0) as [Hle|Hpos].
    + rewrite first_chunkLoop_exit in E by assumption.
      injection E as <- <-.
      destruct Hinv as (j & Hdone & -> & Hin & -> & -> & HcE & Hcl).
      exists [], j. rewrite app_nil_r.
      splits; try reflexivity; try assumption; try exact I.
      * intros f [=].
      * intros c [= <-]. unfold lastEnd. cbn. lia.
    + rewrite first_chunkLoop_unfold in E by lia.
      destruct (processChunk h curStart curEnd count hist)
        as [hist1 r1] eqn:EP.
      destruct (first_iteration _ _ _ _ _ _ _ Hinv ltac:(lia) EP)
        as (Hchunks & Hlt & HcurEnd & Hcl1 & (j' & Hst & Hj' & Hne) & Hnext).
      destruct r1 as [count'|f].
      * destruct (Hnext count' eq_refl) as (Hc' & Hpos' & _ & Hinv').
        destruct (IH _ _ _ _ _ _ _ Hinv' E)
          as (cs & j & Hcs & Hchain & Hst' & Hj & Hne' & Hok & Hcl').
        exists ((curStart, curEnd) :: cs), j.
        splits; try assumption.
        -- rewrite Hcs, Hchunks, <- app_assoc. reflexivity.
        -- cbn [chunkChain]. splits; try assumption; reflexivity.
        -- intros c Hc. specialize (Hok c Hc).
           rewrite lastEnd_cons. assumption.
      * injection E as <- <-. exists [(curStart, curEnd)], j'.
        splits; try assumption.
        -- cbn [chunkChain]. splits; try assumption; try reflexivity;
             exact I.
        -- right. assumption.
        -- intros c [=].
Qed.

(** The loop ends: every turn takes at least one page off what remains. *)
Lemma first_chunkLoop_terminates (fuel : nat) :
  forall (hist : history) (remPages curStart curEnd count : Z),
    loopInv h C pages sp ep hist remPages curStart curEnd count ->
    (Z.to_nat remPages <= fuel)%nat ->
    chunkLoop h C pages fuel remPages curStart curEnd count hist <> None.
Proof.
  induction fuel as [|fuel IH];
    intros hist remPages curStart curEnd count Hinv Hfuel.
  - rewrite first_chunkLoop_exit by lia. discriminate.
  - destruct (Z.le_gt_cases remPages 0) as [Hle|Hpos].
    + rewrite first_chunkLoop_exit by assumption. discriminate.
    + rewrite first_chunkLoop_unfold by lia.
      destruct (processChunk h curStart curEnd count hist)
        as [hist1 r1] eqn:EP.
      destruct (first_iteration _ _ _ _ _ _ _ Hinv ltac:(lia) EP)
        as (_ & _ & _ & _ & _ & Hnext).
      destruct r1 as [count'|f]; [|discriminate].
      destruct (Hnext count' eq_refl) as (_ & Hlt & Hrem & Hinv').
      apply IH; [assumption|]. rewrite Hrem. lia.
Qed.

End FirstLoop.

(** *** The end of the last chunk *)

Lemma ceilDiv_pos (n d : Z) : 0 < d -> 0 < n -> 1 <= ceilDiv n d.
Proof.
  intros Hd Hn. pose proof (ceilDiv_bounds n d Hd) as [_ Hb].
  destruct (Z.le_gt_cases 1 (ceilDiv n d)) as [|Hk]; [assumption|].
  assert (ceilDiv n d * d <= 0) by (apply Z.mul_nonpos_nonneg; lia). lia.
Qed.

Lemma ceilDiv_nonpos (n d : Z) : 0 < d -> n <= 0 -> ceilDiv n d <= 0.
Proof.
  intros Hd Hn. pose proof (ceilDiv_bounds n d Hd) as [Hb _].
  destruct (Z.le_gt_cases (ceilDiv n d) 0) as [|Hk]; [assumption|].
  assert (0 <= (ceilDiv n d - 1) * d) by (apply Z.mul_nonneg_nonneg; lia).
  lia.
Qed.

Lemma ceilDiv_step (n d : Z) : 0 < d -> ceilDiv (n - d) d = ceilDiv n d - 1.
Proof.
  intros Hd. pose proof (ceilDiv_bounds n d Hd) as Hb.
  apply ceilDiv_unique; [assumption|]. lia.
Qed.

(** Chunks that all end at [min(start + C, total)] and reach [ep] end at
    the range rounded up to whole chunks, cut at the end of the document. *)
Lemma chunkChain_lastEnd (C total ep : Z) (cs : list (Z * Z)) :
  forall from : Z,
    0 < C -> ep <= total -> cs <> [] ->
    chunkChain C total ep false from cs ->
    ep <= lastEnd from cs ->
    lastEnd from cs = Z.min (from + ceilDiv (ep - from) C * C) total.
Proof.
  induction cs as [|[a b] rest IH]; intros from HC Hep Hne Hchain Hlast;
    [contradiction|].
  destruct Hchain as (-> & Hlt & -> & Hrest).
  rewrite lastEnd_cons in *.
  destruct rest as [|[a' b'] rest'].
  - unfold lastEnd in *. cbn [map List.last] in *.
    destruct (Z.le_gt_cases (from + C) total) as [Hin|Hout].
    + rewrite (ceilDiv_unique (ep - from) C 1) by lia. lia.
    + pose proof (ceilDiv_pos (ep - from) C HC ltac:(lia)) as Hk.
      assert (C <= ceilDiv (ep - from) C * C).
      { rewrite <- (Z.mul_1_l C) at 1. apply Z.mul_le_mono_nonneg_r; lia. }
      lia.
  - assert (Hb : Z.min (from + C) total < ep)
      by (destruct Hrest as (_ & H & _); assumption).
    rewrite (IH _ HC Hep ltac:(discriminate) Hrest Hlast).
    replace (Z.min (from + C) total) with (from + C) by lia.
    replace (ep - (from + C)) with (ep - from - C) by lia.
    rewrite ceilDiv_step by assumption. f_equal. lia.
Qed.

(** *** [main] *)

Section FirstMain.

Variable h : Host.
Variables startPgF endPgF chunkSizeF : Z.

Local Abbreviation total := (NumPage h).
Local Abbreviation sp := (startPage startPgF endPgF).
Local Abbreviation ep := (endPage endPgF total).

Hypothesis Hs : GoInt.in_range startPgF.
Hypothesis Htotal : 0 <= total.
Hypothesis HC : 0 < chunkSizeF.
Hypothesis Hfit : total + chunkSizeF <= GoInt.max_int.

Lemma first_sp_range : 0 <= sp <= GoInt.max_int.
Proof.
  destruct (startPage_cases startPgF endPgF Hs) as [(? & ? & ->)|[_ ->]];
    int_bounds; lia.
Qed.

Lemma first_ep_range : 0 <= ep <= total.
Proof. apply endPage_bounds. assumption. Qed.

Lemma first_main_open_fails (fuel : nat) :
  fails h [Lib EvNew] = true ->
  main h fuel startPgF endPgF chunkSizeF = Some ([], Exited (Lib EvNew)).
Proof.
  intros Hf. unfold main, bind, checked. cbn [app]. rewrite Hf. reflexivity.
Qed.

Lemma first_main_unfold (fuel : nat) :
  fails h [Lib EvNew] = false ->
  main h fuel startPgF endPgF chunkSizeF =
  chunkLoop h chunkSizeF total fuel (ep - sp) sp
    (intMin (GoInt.add sp chunkSizeF) total) 0 [Lib EvNew; Lib EvClose].
Proof.
  intros Hok. pose proof first_sp_range. pose proof first_ep_range.
  unfold main, bind, checked, emit. cbn [app]. rewrite Hok. cbn [app].
  rewrite sub_small by (int_bounds; lia). reflexivity.
Qed.

Lemma first_loopInv_init :
  loopInv h chunkSizeF total sp ep [Lib EvNew; Lib EvClose] (ep - sp) sp
    (intMin (GoInt.add sp chunkSizeF) total) 0.
Proof.
  pose proof first_sp_range as Hsp. pose proof first_ep_range as Hep.
  exists 0%nat. splits; try lia.
  - repeat split.
  - intros Hpos. rewrite first_intMin, add_small by (int_bounds; lia). lia.
  - apply cleared_weaken with 0; [lia|].
    apply cleared_silent; reflexivity.
Qed.

(** What every run of the first revision satisfies. *)
Lemma first_main_spec (fuel : nat) (hist : history) (r : outcome Z) :
  main h fuel startPgF endPgF chunkSizeF = Some (hist, r) ->
  exists j : nat,
    chunkChain chunkSizeF total ep false sp (chunksOf (libOf hist)) /\
    state h sp 0 j hist r /\
    (j = 0%nat \/ sp + Z.of_nat j <= total) /\
    (forall f, r = Exited f -> f <> Lib EvNew -> sp + Z.of_nat j < total) /\
    (forall c, r = Returned c ->
               c = Z.of_nat j /\
               sp + c = lastEnd sp (chunksOf (libOf hist)) /\
               ep <= lastEnd sp (chunksOf (libOf hist))) /\
    cleared h 6 hist.
Proof.
  intros E. destruct (fails h [Lib EvNew]) eqn:Hopen.
  { rewrite first_main_open_fails in E by assumption. injection E as <- <-.
    exists 0%nat. splits; try exact I.
    - apply donePages_nil.
    - left. reflexivity.
    - intros f [= <-] Hx. now contradiction Hx.
    - intros c [=].
    - apply cleared_weaken with 0; [lia|].
      apply cleared_silent; reflexivity. }
  rewrite first_main_unfold in E by assumption.
  destruct (first_chunkLoop_spec h chunkSizeF sp ep HC Htotal Hfit
              first_sp_range first_ep_range fuel _ _ _ _ _ _ _
              first_loopInv_init E)
    as (cs & j & Hcs & Hchain & Hst & Hj & Hne & Hok & Hcl).
  cbn [libOf chunksOf app] in Hcs. rewrite Hcs.
  exists j. splits; assumption.
Qed.

Lemma first_main_terminates (fuel : nat) :
  (Z.to_nat (ep - sp) <= fuel)%nat ->
  main h fuel startPgF endPgF chunkSizeF <> None.
Proof.
  intros Hfuel. destruct (fails h [Lib EvNew]) eqn:Hopen.
  { rewrite first_main_open_fails by assumption. discriminate. }
  rewrite first_main_unfold by assumption.
  apply (first_chunkLoop_terminates h chunkSizeF sp ep HC Htotal Hfit
           first_sp_range first_ep_range);
    [apply first_loopInv_init | assumption].
Qed.

End FirstMain.

(** For [totalPages >= 0] and a chunk size [C > 0] with [totalPages + C] at
    most the largest [int]: a run of the first revision that returns has
    processed whole chunks: exactly the pages from [startPage] up to the
    requested range rounded up to a multiple of the chunk size, cut at the
    end of the document, each page once and in order.  The counter is their number: at least the
    length of the requested range, and less than a chunk more.  The pages
    after [endPage] are written and the run reports no error. *)
Theorem first_revision_whole_chunks (h : Host) (startPgF endPgF chunkSizeF : Z)
    (fuel : nat) (hist : history) (c : Z) :
  GoInt.in_range startPgF ->
  0 <= NumPage h ->
  0 < chunkSizeF ->
  NumPage h + chunkSizeF <= GoInt.max_int ->
  main h fuel startPgF endPgF chunkSizeF = Some (hist, Returned c) ->
  c = Z.max 0
        (Z.min (startPage startPgF endPgF
                + ceilDiv (endPage endPgF (NumPage h)
                           - startPage startPgF endPgF) chunkSizeF
                  * chunkSizeF)
               (NumPage h)
         - startPage startPgF endPgF) /\
  donePages (startPage startPgF endPgF) (Z.to_nat c) (libOf hist) /\
  (startPage startPgF endPgF < endPage endPgF (NumPage h) ->
   endPage endPgF (NumPage h) - startPage startPgF endPgF <= c
   < endPage endPgF (NumPage h) - startPage startPgF endPgF + chunkSizeF).
Proof.
  intros Hs Htotal HC Hfit E.
  destruct (first_main_spec h _ _ _ Hs Htotal HC Hfit fuel hist _ E)
    as (j & Hchain & Hst & _ & _ & Hok & _).
  destruct (Hok c eq_refl) as (-> & Hlast & Hge).
  cbn [state] in Hst. rewrite Nat2Z.id.
  pose proof (endPage_bounds endPgF (NumPage h) Htotal) as Hep.
  set (sp := startPage startPgF endPgF) in *.
  set (ep := endPage endPgF (NumPage h)) in *.
  pose proof (ceilDiv_bounds (ep - sp) chunkSizeF HC) as Hb.
  destruct (chunksOf (libOf hist)) as [|[a b] rest] eqn:Ecs.
  - unfold lastEnd in Hlast, Hge. cbn [map List.last] in Hlast, Hge.
    pose proof (ceilDiv_nonpos (ep - sp) chunkSizeF HC ltac:(lia)) as Hk.
    assert (ceilDiv (ep - sp) chunkSizeF * chunkSizeF <= 0)
      by (apply Z.mul_nonpos_nonneg; lia).
    splits; [lia | assumption | lia].
  - assert (Hlt : sp < ep) by (destruct Hchain as (_ & H & _); assumption).
    assert (Hne : (a, b) :: rest <> []) by discriminate.
    pose proof (chunkChain_lastEnd chunkSizeF (NumPage h) ep _ sp HC
                  (proj2 Hep) Hne Hchain Hge) as Hend.
    splits; [lia | assumption | lia].
Qed.


(** For [totalPages >= 0] and a chunk size [C > 0] with [totalPages + C] at
    most the largest [int]: in every such run of the first revision the
    chunks handed to [processChunk] start where the one before ended, the
    first at [startPage], and below [endPage]; every chunk, the first too, ends at
    [intMin(start + chunkSize, totalPages)], whatever [endPage] is.  When
    the run returns, the last chunk ends at or after [endPage]. *)
Theorem first_revision_schedule (h : Host) (startPgF endPgF chunkSizeF : Z)
    (fuel : nat) (hist : history) (r : outcome Z) :
  GoInt.in_range startPgF ->
  0 <= NumPage h ->
  0 < chunkSizeF ->
  NumPage h + chunkSizeF <= GoInt.max_int ->
  main h fuel startPgF endPgF chunkSizeF = Some (hist, r) ->
  chunkChain chunkSizeF (NumPage h) (endPage endPgF (NumPage h)) false
    (startPage startPgF endPgF) (chunksOf (libOf hist)) /\
  (forall c, r = Returned c ->
             endPage endPgF (NumPage h)
             <= lastEnd (startPage startPgF endPgF) (chunksOf (libOf hist))).
Proof.
  intros Hs Htotal HC Hfit E.
  destruct (first_main_spec h _ _ _ Hs Htotal HC Hfit fuel hist _ E)
    as (j & Hchain & _ & _ & _ & Hok & _).
  split; [assumption|]. intros c Hc. apply (Hok c Hc).
Qed.

(** For [totalPages >= 0] and a chunk size [C > 0] with [totalPages + C] at
    most the largest [int]: a command of [clearTerminal] ends a run of the
    first revision only on linux: the command is [clear], and at least six
    pages were completely processed before it.  On every other system a command that fails is
    never the end of the run. *)
Theorem clear_failure_exit (h : Host) (startPgF endPgF chunkSizeF : Z)
    (fuel : nat) (hist : history) (name : string) (args : list string) :
  GoInt.in_range startPgF ->
  0 <= NumPage h ->
  0 < chunkSizeF ->
  NumPage h + chunkSizeF <= GoInt.max_int ->
  main h fuel startPgF endPgF chunkSizeF
  = Some (hist, Exited (Run name args)) ->
  GOOS h = "linux"%string /\ name = "clear"%string /\ args = [] /\
  exists j : nat,
    (6 <= j)%nat /\ donePages (startPage startPgF endPgF) j (libOf hist).
Proof.
  intros Hs Htotal HC Hfit E.
  destruct (first_main_spec h _ _ _ Hs Htotal HC Hfit fuel hist _ E)
    as (j & _ & Hst & _).
  cbn [state] in Hst. destruct Hst as (Hd & Hos & Hn & Ha & Hj).
  splits; try assumption. exists j. split; [lia | assumption].
Qed.

(** For [totalPages >= 0] and a chunk size [C > 0] with [totalPages + C] at
    most the largest [int]: on a linux host on which no command can be
    run, no run of the first revision renders more than six pages, and a
    request for more than six pages ends with [log.Fatal]. *)
Theorem no_commands_six_pages (h : Host) (startPgF endPgF chunkSizeF : Z)
    (fuel : nat) (hist : history) (r : outcome Z) :
  GoInt.in_range startPgF ->
  0 <= NumPage h ->
  0 < chunkSizeF ->
  NumPage h + chunkSizeF <= GoInt.max_int ->
  GOOS h = "linux"%string ->
  noCommands h ->
  main h fuel startPgF endPgF chunkSizeF = Some (hist, r) ->
  (List.length (renderedOf (libOf hist)) <= 6)%nat /\
  (6 < endPage endPgF (NumPage h) - startPage startPgF endPgF ->
   exists f, r = Exited f).
Proof.
  intros Hs Htotal HC Hfit Hos Hno E.
  destruct (first_main_spec h _ _ _ Hs Htotal HC Hfit fuel hist _ E)
    as (j & Hchain & Hst & _ & _ & Hok & [Hlin Hnone]).
  specialize (Hlin Hos). rewrite (Hnone Hno) in Hlin. cbn [List.length] in Hlin.
  split; [lia|]. intros Hmany.
  destruct r as [c|f]; [|exists f; reflexivity].
  destruct (Hok c eq_refl) as (-> & Hlast & Hge).
  cbn [state] in Hst. destruct Hst as (Hr & _).
  rewrite Hr, seqZ_length in Hlin. lia.
Qed.

(** For [totalPages >= 0] and a chunk size [C > 0] with [totalPages + C] at
    most the largest [int]: every such run of the first revision ends:
    with fuel for one turn of the chunk loop per page of the requested
    range, [main] gives a result. *)
Theorem first_revision_terminates (h : Host)
    (startPgF endPgF chunkSizeF : Z) (fuel : nat) :
  GoInt.in_range startPgF ->
  0 <= NumPage h ->
  0 < chunkSizeF ->
  NumPage h + chunkSizeF <= GoInt.max_int ->
  (Z.to_nat (endPage endPgF (NumPage h) - startPage startPgF endPgF)
   <= fuel)%nat ->
  exists hist r, main h fuel startPgF endPgF chunkSizeF = Some (hist, r).
Proof.
  intros Hs Htotal HC Hfit Hfuel.
  pose proof (first_main_terminates h _ _ _ Hs Htotal HC Hfit fuel Hfuel)
    as Hne.
  destruct (main h fuel startPgF endPgF chunkSizeF) as [[hist r]|];
    [exists hist, r; reflexivity | contradiction].
Qed.

Lemma bare_noCommands (os : string) (pages : Z) : noCommands (bare os pages).
Proof.
  intros hist name args. cbn [fails bare]. rewrite last_last. reflexivity.
Qed.

Lemma first_revision_whole_chunks_witness :
  exists hist,
    main (quiet "linux" 10) 2 0 5 3 = Some (hist, Returned 6) /\
    6 = Z.max 0 (Z.min (startPage 0 5
                        + ceilDiv (endPage 5 10 - startPage 0 5) 3 * 3) 10
                 - startPage 0 5) /\
    donePages (startPage 0 5) (Z.to_nat 6) (libOf hist) /\
    (startPage 0 5 < endPage 5 10 ->
     endPage 5 10 - startPage 0 5 <= 6 < endPage 5 10 - startPage 0 5 + 3).
Proof.
  eexists. split; [vm_compute; reflexivity|].
  apply (first_revision_whole_chunks (quiet "linux" 10) 0 5 3 2%nat).
  - int_bounds. lia.
  - cbn. lia.
  - lia.
  - cbn. int_bounds. lia.
  - vm_compute. reflexivity.
Defined.


Lemma first_revision_schedule_witness :
  exists hist r,
    main (quiet "windows" 10) 2 0 5 3 = Some (hist, r) /\
    chunkChain 3 10 (endPage 5 10) false (startPage 0 5)
      (chunksOf (libOf hist)) /\
    (forall c, r = Returned c ->
               endPage 5 10 <= lastEnd (startPage 0 5)
                                 (chunksOf (libOf hist))).
Proof.
  eexists. eexists. split; [vm_compute; reflexivity|].
  apply (first_revision_schedule (quiet "windows" 10) 0 5 3 2%nat).
  - int_bounds. lia.
  - cbn. lia.
  - lia.
  - cbn. int_bounds. lia.
  - vm_compute. reflexivity.
Defined.

Lemma first_revision_terminates_witness :
  exists hist r, main (bare "linux" 20) 20 0 (-1) 4 = Some (hist, r).
Proof.
  apply (first_revision_terminates (bare "linux" 20) 0 (-1) 4 20%nat).
  - int_bounds. lia.
  - cbn. lia.
  - lia.
  - cbn. int_bounds. lia.
  - vm_compute. lia.
Defined.

Lemma clear_failure_exit_witness :
  exists hist,
    main (bare "linux" 20) 5 0 (-1) 4
    = Some (hist, Exited (Run "clear" [])) /\
    "linux"%string = "linux"%string /\ "clear"%string = "clear"%string /\
    @nil string = [] /\
    exists j : nat,
      (6 <= j)%nat /\ donePages (startPage 0 (-1)) j (libOf hist).
Proof.
  eexists. split; [vm_compute; reflexivity|].
  apply (clear_failure_exit (bare "linux" 20) 0 (-1) 4 5%nat).
  - int_bounds. lia.
  - cbn. lia.
  - lia.
  - cbn. int_bounds. lia.
  - vm_compute. reflexivity.
Defined.

Lemma no_commands_six_pages_witness :
  exists hist r,
    main (bare "linux" 20) 5 0 (-1) 4 = Some (hist, r) /\
    (List.length (renderedOf (libOf hist)) <= 6)%nat /\
    (6 < endPage (-1) 20 - startPage 0 (-1) -> exists f, r = Exited f).
Proof.
  eexists. eexists. split; [vm_compute; reflexivity|].
  apply (no_commands_six_pages (bare "linux" 20) 0 (-1) 4 5%nat).
  - int_bounds. lia.
  - cbn. lia.
  - lia.
  - cbn. int_bounds. lia.
  - reflexivity.
  - apply bare_noCommands.
  - vm_compute. reflexivity.
Defined.

End FirstRevisionFacts.
